(** * pinflow: the prep / exec / post engine of [src/index.ts]

    A shallow embedding of the engine (the [Node] class, [executeWithRetry]
    and [run]) and the properties of its retry wrapper, of its join barrier
    and of its routing.

    Conventions of the embedding.
    - User code ([prep], the generator's [next], [exec], [execFallback],
      [onError], [post]) is a parameter: a function on the world [W], which
      stands for the store together with everything else the callbacks of a
      workflow close over.  A call into user code acts on the world at the
      moment its promise settles.  Each of them may throw: [exec],
      [execFallback], [post] and the generator, and also [onError], which
      returns nothing when it returns.
    - An [async] function is a tree of calls ([Prog]): it runs until the next
      call it awaits, and is resumed with the settled outcome of that call.
      [interp] runs such a tree alone, start to end; [step] interleaves the
      pipelines that one cycle of [run] has launched, in the order a
      schedule prescribes.  Every order in which the pending promises of a
      cycle can settle is a schedule.
    - The three numbers of the configuration are integers (a count of
      attempts and two durations in milliseconds). *)

From Stdlib Require Import ZArith Lia.
From stdpp Require Import base option list gmap strings.

Local Open Scope Z_scope.

(** ** Actions, values and the edge table *)

(** [type Action = string | typeof KILL | undefined | null] *)
Inductive Action : Type :=
| AString (s : string)
| KILL
| AUndefined
| ANull.

#[global] Instance Action_eq_dec : EqDecision Action.
Proof. solve_decision. Defined.

Definition Action_encode (a : Action) : string + nat :=
  match a with
  | AString s => inl s
  | KILL => inr 0%nat
  | AUndefined => inr 1%nat
  | ANull => inr 2%nat
  end.

Definition Action_decode (x : string + nat) : Action :=
  match x with
  | inl s => AString s
  | inr 0%nat => KILL
  | inr 1%nat => AUndefined
  | inr _ => ANull
  end.

#[global] Instance Action_countable : Countable Action.
Proof.
  apply (inj_countable' Action_encode Action_decode).
  intros []; reflexivity.
Defined.

(** Nodes are objects: a node is known by its reference. *)
Definition NodeRef : Type := nat.

(** What the edge table holds at run time.  The casts [action as Node] and
    [action as Action] of [connect] are not checked, so both the keys and the
    entries of [Map<Action, Node>] are actions or nodes. *)
Definition Value : Type := (Action + NodeRef)%type.

Definition VString (s : string) : Value := inl (AString s).
Definition VNode (r : NodeRef) : Value := inr r.
Definition undefined : Value := inl AUndefined.

(** JavaScript truthiness, as [||] and [if] use it. *)
Definition truthy (v : Value) : bool :=
  match v with
  | inl (AString s) => negb (String.eqb s "")
  | inl KILL => true
  | inl AUndefined => false
  | inl ANull => false
  | inr _ => true
  end.

(** [a ?? b] *)
Definition nullish_or (a : Action) (b : Action) : Action :=
  match a with
  | AUndefined | ANull => b
  | _ => a
  end.

(** [a || b] *)
Definition js_or (a b : Value) : Value := if truthy a then a else b.

(** ** Configuration *)

Record NodeConfig : Type := mkNodeConfig {
  maxRetries : Z;
  retryDelay : Z;
  timeout : Z
}.

Definition DEFAULT_NODE_CONFIG : NodeConfig :=
  {| maxRetries := 3; retryDelay := 2000; timeout := 60000 |}.

(** The optional argument of the constructor ([NodeConfig] with every field
    optional). *)
Record PartialConfig : Type := mkPartialConfig {
  p_maxRetries : option Z;
  p_retryDelay : option Z;
  p_timeout : option Z
}.

(** [{ ...DEFAULT_NODE_CONFIG, ...config }] *)
Definition spread_config (config : option PartialConfig) : NodeConfig :=
  match config with
  | None => DEFAULT_NODE_CONFIG
  | Some c =>
      {| maxRetries := default (maxRetries DEFAULT_NODE_CONFIG) (p_maxRetries c);
         retryDelay := default (retryDelay DEFAULT_NODE_CONFIG) (p_retryDelay c);
         timeout := default (timeout DEFAULT_NODE_CONFIG) (p_timeout c) |}
  end.

Definition set_timeout (t : Z) (c : NodeConfig) : NodeConfig :=
  {| maxRetries := maxRetries c; retryDelay := retryDelay c; timeout := t |}.

(** ** Failures and settled promises *)

Section Engine.

Context {W G Item Res E : Type}.

(** What an [await] can throw: a value thrown by user code, the
    [new Error('Unreachable')] of [executeWithRetry], or the [TypeError] of a
    call of a method that is not there. *)
Inductive Error : Type :=
| Thrown (e : E)
| ErrorUnreachable
| TypeError.

Inductive Settled (A : Type) : Type :=
| Fulfilled (a : A)
| Rejected (e : Error).

Definition settle {A : Type} (r : A + E) : Settled A :=
  match r with
  | inl a => Fulfilled A a
  | inr e => Rejected A (Thrown e)
  end.

(** ** Nodes *)

(** [result.value] of the generator: a plain item, or a promise (given with
    the outcome it settles to). *)
Inductive Yielded : Type :=
| YValue (v : Item)
| YPromise (p : Item + E).

(** The outcome of [generator.next(..)]. *)
Inductive IteratorResult : Type :=
| ItYield (value : Yielded) (g : G)
| ItDone
| ItThrow (e : E).

Record Node : Type := mkNode {
  config : NodeConfig;
  edges : gmap Value Value;
  prep : W -> G;
  gen_next : G -> W -> IteratorResult * W;
  exec : Item -> W -> (Res + E) * W;
  post : list Item -> list Res -> W -> (Action + E) * W;
  execFallback : option (Item -> Error -> W -> (Res + E) * W);
  onError : Error -> Z -> Z -> W -> (unit + E) * W
}.

Definition with_edges (es : gmap Value Value) (n : Node) : Node :=
  {| config := config n; edges := es; prep := prep n; gen_next := gen_next n;
     exec := exec n; post := post n; execFallback := execFallback n;
     onError := onError n |}.

Definition with_config (c : NodeConfig) (n : Node) : Node :=
  {| config := c; edges := edges n; prep := prep n; gen_next := gen_next n;
     exec := exec n; post := post n; execFallback := execFallback n;
     onError := onError n |}.

(** The same node, with another [timeout] in its configuration. *)
Definition retimed (ms : Z) (n : Node) : Node :=
  with_config (set_timeout ms (config n)) n.

(** [connect(action: Action | Node, target?: Node): this] *)
Definition connect (action : Value) (target : option NodeRef) (this : Node) : Node :=
  match target with
  | None => with_edges (<[VString "default" := action]> (edges this)) this
  | Some target => with_edges (<[action := VNode target]> (edges this)) this
  end.

(** [getEdge(action: Action): Node | undefined] *)
Definition getEdge (this : Node) (action : Action) : Value :=
  default undefined (edges this !! (inl action : Value)).

(** ** Asynchronous functions as trees of calls *)

(** The calls the engine makes.  [AwaitItem], [Exec], [ExecFallback] and
    [SetTimeout] return promises that the caller awaits; [OnError] and the
    two [push]es are synchronous. *)
Inductive Call : Type -> Type :=
| AwaitItem (item : Settled Item) : Call Item
| Exec (item : Item) : Call Res
| ExecFallback (item : Item) (error : Error) : Call Res
| OnError (error : Error) (attempt maxRetries : Z) : Call unit
| SetTimeout (ms : Z) : Call unit
| PushPrepItem (v : Item) : Call unit
| PushExecResult (v : Res) : Call unit.

Definition is_async {X : Type} (c : Call X) : bool :=
  match c with
  | AwaitItem _ | Exec _ | ExecFallback _ _ | SetTimeout _ => true
  | OnError _ _ _ | PushPrepItem _ | PushExecResult _ => false
  end.

Inductive Prog (A : Type) : Type :=
| Ret (a : A)
| Throw (e : Error)
| Vis {X : Type} (c : Call X) (k : Settled X -> Prog A).

Arguments Ret {A} a.
Arguments Throw {A} e.
Arguments Vis {A X} c k.
Arguments Fulfilled {A} a.
Arguments Rejected {A} e.

Definition call {X : Type} (c : Call X) : Prog X :=
  Vis c (fun o => match o with Fulfilled x => Ret x | Rejected e => Throw e end).

Fixpoint bind {A B : Type} (p : Prog A) (f : A -> Prog B) : Prog B :=
  match p with
  | Ret a => f a
  | Throw e => Throw e
  | Vis c k => Vis c (fun o => bind (k o) f)
  end.

(** [try { return p } catch (error) { h error }] *)
Fixpoint try_catch {A : Type} (p : Prog A) (h : Error -> Prog A) : Prog A :=
  match p with
  | Ret a => Ret a
  | Throw e => h e
  | Vis c k => Vis c (fun o => try_catch (k o) h)
  end.

Notation "x <- c1 ;; c2" := (bind c1 (fun x => c2))
  (at level 100, c1 at next level, right associativity).
Notation "c1 ;; c2" := (bind c1 (fun _ => c2))
  (at level 100, right associativity).

(** ** executeWithRetry *)

Section ExecuteWithRetry.

Variable node : Node.
Variable item : Item.

(** The body of the [for] loop at [attempt], followed by the rest of the
    loop.  [attempt] runs over 0, 1, .. as long as [attempt < maxRetries]:
    [remaining] counts the iterations that the loop condition still lets
    through, and the loop is left through its condition when none does. *)
Fixpoint attempts (remaining : nat) (attempt : Z) : Prog Res :=
  match remaining with
  | O => Throw ErrorUnreachable
  | S remaining =>
      try_catch (call (Exec item)) (fun error =>
        if attempt =? maxRetries (config node) - 1 then
          match execFallback node with
          | Some _ => call (ExecFallback item error)
          | None => Throw error
          end
        else
          call (OnError error (attempt + 1) (maxRetries (config node))) ;;
          call (SetTimeout (Z.max (retryDelay (config node)) 0)) ;;
          attempts remaining (attempt + 1))
  end.

Definition executeWithRetry : Prog Res :=
  attempts (Z.to_nat (maxRetries (config node))) 0.

End ExecuteWithRetry.

(** The body of the [async] arrow function that [run] starts for each item. *)
Definition pipeline (node : Node) (item : Settled Item) : Prog unit :=
  v <- call (AwaitItem item) ;;
  call (PushPrepItem v) ;;
  v' <- call (AwaitItem item) ;;
  execValue <- executeWithRetry node v' ;;
  call (PushExecResult execValue).

(** ** The memory a call acts on *)

(** A record of the calls into user code, in the order they are made (it is
    not part of the program: it is what the theorems count). *)
Inductive Event : Type :=
| EvPrep (r : NodeRef)
| EvNext (r : NodeRef) (value : option Yielded)
| EvNextThrew (r : NodeRef) (e : E)
| EvExec (item : Item) (result : Res + E)
| EvExecFallback (item : Item) (error : Error) (result : Res + E)
| EvOnError (error : Error) (attempt maxRetries : Z)
| EvOnErrorThrew (error : Error) (attempt maxRetries : Z) (e : E)
| EvSetTimeout (ms : Z)
| EvPost (r : NodeRef) (items : list Item) (results : list Res) (result : Action + E).

Record Mem : Type := mkMem {
  world : W;
  trace : list Event;
  prepItems : list Item;
  execResults : list Res
}.

Definition log (ev : Event) (w : W) (m : Mem) : Mem :=
  {| world := w; trace := trace m ++ [ev];
     prepItems := prepItems m; execResults := execResults m |}.

Definition perform (node : Node) {X : Type} (c : Call X) (m : Mem) : Settled X * Mem :=
  match c in Call X return Settled X * Mem with
  | AwaitItem item => (item, m)
  | Exec item =>
      let '(r, w) := exec node item (world m) in
      (settle r, log (EvExec item r) w m)
  | ExecFallback item error =>
      match execFallback node with
      | Some fallback =>
          let '(r, w) := fallback item error (world m) in
          (settle r, log (EvExecFallback item error r) w m)
      | None => (Rejected TypeError, m)
      end
  | OnError error attempt maxRetries =>
      let '(r, w) := onError node error attempt maxRetries (world m) in
      (settle r,
       log match r with
           | inl _ => EvOnError error attempt maxRetries
           | inr e => EvOnErrorThrew error attempt maxRetries e
           end w m)
  | SetTimeout ms => (Fulfilled tt, log (EvSetTimeout ms) (world m) m)
  | PushPrepItem v =>
      (Fulfilled tt,
       {| world := world m; trace := trace m;
          prepItems := prepItems m ++ [v]; execResults := execResults m |})
  | PushExecResult v =>
      (Fulfilled tt,
       {| world := world m; trace := trace m;
          prepItems := prepItems m; execResults := execResults m ++ [v] |})
  end.

(** An asynchronous function run alone: every call settles before anything
    else happens. *)
Fixpoint interp (node : Node) {A : Type} (p : Prog A) (m : Mem) : Settled A * Mem :=
  match p with
  | Ret a => (Fulfilled a, m)
  | Throw e => (Rejected e, m)
  | Vis c k => let '(o, m') := perform node c m in interp node (k o) m'
  end.

(** ** run *)

(** A pipeline runs up to the next call it awaits. *)
Fixpoint advance (node : Node) {A : Type} (p : Prog A) (m : Mem) : Prog A * Mem :=
  match p with
  | Vis c k =>
      if is_async c then (p, m)
      else let '(o, m') := perform node c m in advance node (k o) m'
  | _ => (p, m)
  end.

(** The call a pipeline awaits settles: the pipeline goes on from there. *)
Definition resume (node : Node) {A : Type} (p : Prog A) (m : Mem) : Prog A * Mem :=
  match p with
  | Vis c k => let '(o, m') := perform node c m in advance node (k o) m'
  | _ => (p, m)
  end.

(** Where [run] itself is suspended. *)
Inductive Driver : Type :=
| AtNext (generator : G)
| AtAll (rejection : option Error).

(** One invocation of [run]: its locals, and the pipelines it has started
    (a pipeline that is [Ret tt] is a fulfilled promise, one that is
    [Throw e] a rejected one). *)
Record Cycle : Type := mkCycle {
  mem : Mem;
  node : NodeRef;
  execPromises : list (Prog unit);
  driver : Driver
}.

Inductive Status : Type :=
| Running (c : Cycle)
| Returned (w : W) (t : list Event)
| Failed (e : Error) (w : W) (t : list Event).

Definition status_trace (s : Status) : list Event :=
  match s with
  | Running c => trace (mem c)
  | Returned _ t => t
  | Failed _ _ t => t
  end.

(** [result.value instanceof Promise ? result.value : Promise.resolve(result.value)] *)
Definition item_promise (value : Yielded) : Settled Item :=
  match value with
  | YPromise p => settle p
  | YValue v => Fulfilled v
  end.

(** The rejection [Promise.all] takes when it is called: that of the first
    promise of the array that is already rejected. *)
Fixpoint first_rejection (ps : list (Prog unit)) : option Error :=
  match ps with
  | [] => None
  | Throw e :: _ => Some e
  | _ :: ps => first_rejection ps
  end.

Definition is_fulfilled (p : Prog unit) : bool :=
  match p with
  | Ret _ => true
  | _ => false
  end.

(** A promise settles while [Promise.all] is pending: the first rejection is
    the one [Promise.all] rejects with. *)
Definition note_rejection (p : Prog unit) (d : Driver) : Driver :=
  match d, p with
  | AtAll None, Throw e => AtAll (Some e)
  | _, _ => d
  end.

Section Run.

Variable nodes : NodeRef -> Node.

(** The first lines of [run], up to [await generator.next()]. *)
Definition start (r : NodeRef) (w : W) (t : list Event) : Status :=
  Running {| mem := {| world := w; trace := t ++ [EvPrep r];
                       prepItems := []; execResults := [] |};
             node := r;
             execPromises := [];
             driver := AtNext (prep (nodes r) w) |}.

(** [run(nextNode, store)] on whatever the edge table held. *)
Definition run_value (nextNode : Value) (w : W) (t : list Event) : Status :=
  match nextNode with
  | inr r => start r w t
  | inl _ => Failed TypeError w t
  end.

(** The last lines of [run], from the action [post] returned. *)
Definition route (n : Node) (action : Action) (w : W) (t : list Event) : Status :=
  match action with
  | KILL => Returned w t
  | _ =>
      let nextNode :=
        js_or (getEdge n (nullish_or action (AString "default")))
              (getEdge n (AString "default")) in
      if truthy nextNode then run_value nextNode w t else Returned w t
  end.

(** [Promise.all] is fulfilled: [post], then the routing. *)
Definition aggregate (c : Cycle) : Status :=
  let n := nodes (node c) in
  let m := mem c in
  let '(r, w) := post n (prepItems m) (execResults m) (world m) in
  let t := trace m ++ [EvPost (node c) (prepItems m) (execResults m) r] in
  match r with
  | inl action => route n action w t
  | inr e => Failed (Thrown e) w t
  end.

(** What happens next: [generator.next(..)] settles, or the call that
    pipeline [i] awaits settles, or [Promise.all(execPromises)] does. *)
Inductive Choice : Type :=
| Pull
| Settle (i : nat)
| Join.

#[global] Instance Choice_eq_dec : EqDecision Choice.
Proof. solve_decision. Defined.

Definition step (ch : Choice) (c : Cycle) : Status :=
  let n := nodes (node c) in
  match ch, driver c with
  | Pull, AtNext g =>
      let '(result, w) := gen_next n g (world (mem c)) in
      match result with
      | ItYield value g' =>
          let m := log (EvNext (node c) (Some value)) w (mem c) in
          let '(p, m') := advance n (pipeline n (item_promise value)) m in
          Running {| mem := m'; node := node c;
                     execPromises := execPromises c ++ [p];
                     driver := AtNext g' |}
      | ItDone =>
          Running {| mem := log (EvNext (node c) None) w (mem c);
                     node := node c;
                     execPromises := execPromises c;
                     driver := AtAll (first_rejection (execPromises c)) |}
      | ItThrow e =>
          Failed (Thrown e) w (trace (mem c) ++ [EvNextThrew (node c) e])
      end
  | Settle i, d =>
      match execPromises c !! i with
      | Some p =>
          let '(p', m') := resume n p (mem c) in
          Running {| mem := m'; node := node c;
                     execPromises := <[i := p']> (execPromises c);
                     driver := note_rejection p' d |}
      | None => Running c
      end
  | Join, AtAll (Some e) => Failed e (world (mem c)) (trace (mem c))
  | Join, AtAll None =>
      if forallb is_fulfilled (execPromises c) then aggregate c else Running c
  | _, _ => Running c
  end.

Fixpoint schedule (sched : list Choice) (s : Status) : Status :=
  match sched, s with
  | ch :: sched, Running c => schedule sched (step ch c)
  | _, _ => s
  end.

(** [run(node, store)], with the promises settling in the order [sched]. *)
Definition run (sched : list Choice) (r : NodeRef) (store : W) : Status :=
  schedule sched (start r store []).

End Run.

End Engine.

Arguments Error : clear implicits.
Arguments Settled : clear implicits.
Arguments Yielded : clear implicits.
Arguments IteratorResult : clear implicits.
Arguments Node : clear implicits.
Arguments Call : clear implicits.
Arguments Prog : clear implicits.
Arguments Event : clear implicits.
Arguments Mem : clear implicits.
Arguments Driver : clear implicits.
Arguments Cycle : clear implicits.
Arguments Status : clear implicits.
Arguments Fulfilled {E A} a.
Arguments Rejected {E A} e.
Arguments Ret {Item Res E A} a.
Arguments Throw {Item Res E A} e.
Arguments Vis {Item Res E A X} c k.

(** ** The parameters of a node *)

(** [type Params = Record<string, any>], for values of one type. *)
Definition Params (V : Type) : Type := gmap string V.

(** User code reads [this.params] as it reads the store: a world that
    holds the store and, for every node object, its [params]. *)
Record WithParams (V S : Type) : Type := mkWithParams {
  params : NodeRef -> Params V;
  store : S
}.

Arguments mkWithParams {V S} params store.
Arguments params {V S} w.
Arguments store {V S} w.

(** [protected params: Params = {}] *)
Definition no_params {V S : Type} (store : S) : WithParams V S :=
  {| params := fun _ => ∅; store := store |}.

(** [setParams(params: Params): this], called on the node object [this]. *)
Definition setParams {V S : Type} (this : NodeRef) (params' : Params V)
    (w : WithParams V S) : WithParams V S :=
  {| params := fun r => if decide (r = this) then params' else params w r;
     store := store w |}.

(** ** Reading a trace *)

Section Traces.

Context {Item Res E : Type}.

Fixpoint count (f : Event Item Res E -> bool) (t : list (Event Item Res E)) : nat :=
  match t with
  | [] => O
  | ev :: t => if f ev then S (count f t) else count f t
  end.

Definition is_exec (ev : Event Item Res E) : bool :=
  match ev with EvExec _ _ => true | _ => false end.

(** A call of [onError], whether it returned or threw. *)
Definition is_onError (ev : Event Item Res E) : bool :=
  match ev with EvOnError _ _ _ | EvOnErrorThrew _ _ _ _ => true | _ => false end.

Definition is_fallback (ev : Event Item Res E) : bool :=
  match ev with EvExecFallback _ _ _ => true | _ => false end.

Definition is_post (ev : Event Item Res E) : bool :=
  match ev with EvPost _ _ _ _ => true | _ => false end.

Definition is_prep (ev : Event Item Res E) : bool :=
  match ev with EvPrep _ => true | _ => false end.

(** The events of the calls a pipeline makes. *)
Definition quiet_event (ev : Event Item Res E) : bool :=
  match ev with
  | EvPrep _ | EvNext _ _ | EvNextThrew _ _ | EvPost _ _ _ _ => false
  | _ => true
  end.

(** The number of items the generator has yielded since the last call of
    [prep]: the items of the cycle that is running at the end of [t]. *)
Definition yielded (t : list (Event Item Res E)) : nat :=
  foldl (fun n ev =>
           match ev with
           | EvPrep _ => O
           | EvNext _ (Some _) => S n
           | _ => n
           end) O t.

End Traces.

(** ** What user code does in a call of [executeWithRetry] *)

Section Environment.

Context {W G Item Res E : Type}.

Variable node : Node W G Item Res E.
Variable item : Item.

(** [exec] fails with [errors], one after the other, [onError] returning
    each time it is told of a failure, and then [exec] returns [v]; the world
    is the one the engine leaves between the attempts. *)
Fixpoint fails_then_succeeds (errors : list E) (attempt : Z) (w : W) (v : Res) : Prop :=
  match errors with
  | [] => fst (exec node item w) = inl v
  | e :: errors =>
      exists w' w'',
        exec node item w = (inr e, w') /\
        onError node (Thrown e) (attempt + 1) (maxRetries (config node)) w' = (inl tt, w'') /\
        fails_then_succeeds errors (attempt + 1) w'' v
  end.

(** What the engine does on these failures, from [attempt] on. *)
Fixpoint retries (errors : list E) (attempt : Z) : list (Event Item Res E) :=
  match errors with
  | [] => []
  | e :: errors =>
      EvExec item (inr e)
      :: EvOnError (Thrown e) (attempt + 1) (maxRetries (config node))
      :: EvSetTimeout (Z.max (retryDelay (config node)) 0)
      :: retries errors (attempt + 1)
  end.

(** How a call of [executeWithRetry] that made the calls [added] ended in
    [o]. *)
Definition returned_by_exec (o : Settled E Res) (added : list (Event Item Res E)) : Prop :=
  exists v t, o = Fulfilled v /\ added = t ++ [EvExec item (inl v)].

Definition returned_by_fallback (o : Settled E Res) (added : list (Event Item Res E)) : Prop :=
  exists v error t,
    o = Fulfilled v /\ added = t ++ [EvExecFallback item error (inl v)].

Definition rethrown_from_last_attempt
    (o : Settled E Res) (added : list (Event Item Res E)) : Prop :=
  exists e t,
    o = Rejected (Thrown e) /\ added = t ++ [EvExec item (inr e)] /\
    Z.of_nat (count is_exec added) = maxRetries (config node).

Definition thrown_by_fallback (o : Settled E Res) (added : list (Event Item Res E)) : Prop :=
  exists e error t,
    o = Rejected (Thrown e) /\ added = t ++ [EvExecFallback item error (inr e)].

(** [onError] threw when it was told of a failed attempt. *)
Definition thrown_by_onError (o : Settled E Res) (added : list (Event Item Res E)) : Prop :=
  exists e error attempt t,
    o = Rejected (Thrown e) /\
    added = t ++ [EvExec item (inr error);
                  EvOnErrorThrew (Thrown error) attempt (maxRetries (config node)) e].

(** The call returns a value of [exec] or of [execFallback], or throws again
    the failure of the last attempt. *)
Definition returns_or_rethrows (m : Mem W Item Res E) : Prop :=
  exists added,
    trace (snd (interp node (executeWithRetry node item) m)) = trace m ++ added /\
    let o := fst (interp node (executeWithRetry node item) m) in
    returned_by_exec o added \/ returned_by_fallback o added \/
    rethrown_from_last_attempt o added.

End Environment.

(** ** How a call of [executeWithRetry] ends *)

Section LastAttempt.

Context {W G Item Res E : Type}.

(** The attempt after which the loop is left: [exec] returns; or the last
    attempt fails, and its failure is thrown again or handed to
    [execFallback]; or an attempt that is not the last fails, and [onError],
    called with the number [attempt], throws. *)
Inductive Ending : Type :=
| Returns (v : Res)
| Rethrows (e : E)
| FallsBack (e : E) (result : Res + E)
| OnErrorThrows (e : E) (attempt : Z) (thrown : E).

Variable node : Node W G Item Res E.
Variable item : Item.

(** The calls of that attempt. *)
Definition ending_calls (ending : Ending) : list (Event Item Res E) :=
  match ending with
  | Returns v => [EvExec item (inl v)]
  | Rethrows e => [EvExec item (inr e)]
  | FallsBack e result =>
      [EvExec item (inr e); EvExecFallback item (Thrown e) result]
  | OnErrorThrows e attempt thrown =>
      [EvExec item (inr e);
       EvOnErrorThrew (Thrown e) attempt (maxRetries (config node)) thrown]
  end.

(** What [executeWithRetry] returns or throws after it. *)
Definition ending_outcome (ending : Ending) : Settled E Res :=
  match ending with
  | Returns v => Fulfilled v
  | Rethrows e => Rejected (Thrown e)
  | FallsBack _ result => settle result
  | OnErrorThrows _ _ thrown => Rejected (Thrown thrown)
  end.

(** After [failures] failed attempts the loop is left in [ending]: a
    success comes within [maxRetries] attempts, a last failure is that of
    attempt [maxRetries], [execFallback] is called if and only if it is
    defined, and [onError] is told the number of an attempt that is not the
    last. *)
Definition ends_after (failures : nat) (ending : Ending) : Prop :=
  match ending with
  | Returns _ => Z.of_nat failures < maxRetries (config node)
  | Rethrows _ =>
      Z.of_nat failures = maxRetries (config node) - 1 /\ execFallback node = None
  | FallsBack _ _ =>
      Z.of_nat failures = maxRetries (config node) - 1 /\ is_Some (execFallback node)
  | OnErrorThrows _ attempt _ =>
      attempt = Z.of_nat failures + 1 /\ attempt < maxRetries (config node)
  end.

Definition is_sleep (ev : Event Item Res E) : bool :=
  match ev with EvSetTimeout _ => true | _ => false end.

(** A call of [onError] that returned. *)
Definition onError_returned (ev : Event Item Res E) : bool :=
  match ev with EvOnError _ _ _ => true | _ => false end.

End LastAttempt.

Arguments Ending : clear implicits.

(** ** Invariants of a cycle *)

Section Vocabulary.

Context {W G Item Res E : Type}.

(** How far a pipeline has got with its two [push]es. *)
Inductive Stage : Type :=
| Launched
| ItemPushed
| ResultPushed.

Definition items_of (s : Stage) : nat :=
  match s with Launched => O | _ => 1%nat end.

Definition results_of (s : Stage) : nat :=
  match s with ResultPushed => 1%nat | _ => O end.

Definition is_push {X : Type} (c : Call Item Res E X) : bool :=
  match c with
  | PushPrepItem _ | PushExecResult _ => true
  | _ => false
  end.

(** [at_stage s p]: the pipeline [p] has done the [push]es of stage [s], and
    whatever its calls answer, it does the remaining ones in order, the
    result last and just before it returns. *)
Inductive at_stage : Stage -> Prog Item Res E unit -> Prop :=
| stage_returned : at_stage ResultPushed (Ret tt)
| stage_thrown s e : s <> ResultPushed -> at_stage s (Throw e)
| stage_call s X (c : Call Item Res E X) k :
    s <> ResultPushed -> is_push c = false ->
    (forall o, at_stage s (k o)) -> at_stage s (Vis c k)
| stage_push_item v k :
    at_stage ItemPushed (k (Fulfilled tt)) ->
    at_stage Launched (Vis (PushPrepItem v) k)
| stage_push_result v k :
    k (Fulfilled tt) = Ret tt ->
    at_stage ItemPushed (Vis (PushExecResult v) k).

(** The pipelines of a cycle and its two arrays go together: as many items
    and results as pipelines that have pushed theirs, and one pipeline for
    each item the generator has yielded. *)
Definition tidy (c : Cycle W G Item Res E) : Prop :=
  exists stages : list Stage,
    Forall2 at_stage stages (execPromises c) /\
    length (prepItems (mem c)) = sum_list_with items_of stages /\
    length (execResults (mem c)) = sum_list_with results_of stages /\
    length (execPromises c) = yielded (trace (mem c)).

(** How the two arrays grow when a pipeline goes from stage [s] to [s']. *)
Definition grown (s s' : Stage) (m m' : Mem W Item Res E) : Prop :=
  (length (prepItems m') + items_of s = length (prepItems m) + items_of s')%nat /\
  (length (execResults m') + results_of s = length (execResults m) + results_of s')%nat.

Definition tidy_status (st : Status W G Item Res E) : Prop :=
  match st with
  | Running c => tidy c
  | _ => True
  end.

(** The result at each index is a result of [exec], or of [execFallback], for
    the item at the same index. *)
Definition aligned (node : Node W G Item Res E)
    (items : list Item) (results : list Res) : Prop :=
  forall i item, items !! i = Some item ->
    exists result w,
      results !! i = Some result /\
      (fst (exec node item w) = inl result \/
       exists fallback error,
         execFallback node = Some fallback /\
         fst (fallback item error w) = inl result).

Variable node : Node W G Item Res E.

(** [ends_in Q t p]: once the calls of [t] have been made, whatever else
    happens in between and whatever the calls of [p] do, [p] ends with an
    outcome that [Q] accepts for the calls made until then. *)
Inductive ends_in {A : Type} (Q : list (Event Item Res E) -> Settled E A -> Prop)
  : list (Event Item Res E) -> Prog Item Res E A -> Prop :=
| ends_ret t a : Q t (Fulfilled a) -> ends_in Q t (Ret a)
| ends_throw t e : Q t (Rejected e) -> ends_in Q t (Throw e)
| ends_vis t X (c : Call Item Res E X) k :
    (forall m : Mem W Item Res E,
        t `prefix_of` trace m ->
        ends_in Q (trace (snd (perform node c m))) (k (fst (perform node c m)))) ->
    ends_in Q t (Vis c k).

(** [Q] goes on accepting an outcome as more calls are made. *)
Definition lasting {A : Type}
    (Q : list (Event Item Res E) -> Settled E A -> Prop) : Prop :=
  forall t t' o, t `prefix_of` t' -> Q t o -> Q t' o.

(** [exec] fails whatever the item and the world. *)
Definition always_fails : Prop :=
  forall item w, exists e, fst (exec node item w) = inr e.

(** [onError] returns, whatever it is told and whatever the world. *)
Definition onError_returns : Prop :=
  forall error attempt maxRetries' w,
    fst (onError node error attempt maxRetries' w) = inl tt.

(** [execFallback] is defined and returns, whatever the item and the world. *)
Definition fallback_returns : Prop :=
  exists fallback, execFallback node = Some fallback /\
    forall item error w, exists v, fst (fallback item error w) = inl v.

(** The generators of [prep]: a finite sequence of items, or of promises that
    resolve to items; [next] does not throw. *)
Inductive produces : G -> Prop :=
| produces_intro g :
    (forall w e w', gen_next node g w <> (ItThrow e, w')) ->
    (forall w value g' w',
        gen_next node g w = (ItYield value g', w') ->
        exists v, item_promise value = Fulfilled v) ->
    (forall w value g' w',
        gen_next node g w = (ItYield value g', w') -> produces g') ->
    produces g.

End Vocabulary.

Section Outcomes.

Context {Item Res E : Type}.

(** The calls made before the cycle in question began. *)
Variable t0 : list (Event Item Res E).

(** The failure [e] is one that a call of [exec] ended with, among the calls
    that [t] has after [t0]. *)
Definition exec_failure (t : list (Event Item Res E)) (e : Error E) : Prop :=
  exists e' item l, e = Thrown e' /\ t = t0 ++ l /\ EvExec item (inr e') ∈ l.

(** A pipeline that is fulfilled. *)
Definition is_done (t : list (Event Item Res E)) (o : Settled E unit) : Prop :=
  o = Fulfilled tt.

End Outcomes.

Section RetryFailures.

Context {W G Item Res E : Type}.
Variable node : Node W G Item Res E.

(** The calls made before the cycle in question began. *)
Variable t0 : list (Event Item Res E).

(** The failure [e] is one that a call of [onError] ended with, among the
    calls that [t] has after [t0]: [onError] of [node] throws it. *)
Definition onError_failure (t : list (Event Item Res E)) (e : Error E) : Prop :=
  exists e' error attempt l,
    e = Thrown e' /\ t = t0 ++ l /\
    EvOnErrorThrew error attempt (maxRetries (config node)) e' ∈ l /\
    exists w, fst (onError node error attempt (maxRetries (config node)) w) = inr e'.

(** A pipeline that is rejected with a failure of [exec] or of [onError]. *)
Definition fails_in_retry (t : list (Event Item Res E)) (o : Settled E unit) : Prop :=
  exists e, o = Rejected e /\ (exec_failure t0 t e \/ onError_failure t e).

End RetryFailures.

Section CycleInvariants.

Context {W G Item Res E : Type}.
Variable nodes : NodeRef -> Node W G Item Res E.

(** Pipeline [i] is resumed until it has settled. *)
Definition settles (n : Node W G Item Res E) (p : Prog Item Res E unit) : Prop :=
  forall c i,
    nodes (node c) = n -> execPromises c !! i = Some p -> driver c = AtAll None ->
    exists k c',
      schedule nodes (replicate k (Settle i)) (Running c) = Running c' /\
      node c' = node c /\
      length (execPromises c') = length (execPromises c) /\
      (forall j, j <> i -> execPromises c' !! j = execPromises c !! j) /\
      ((driver c' = AtAll None /\ execPromises c' !! i = Some (Ret tt)) \/
       exists e, driver c' = AtAll (Some e)).

Variable r : NodeRef.
Variable w : W.
Variable t0 : list (Event Item Res E).

(** The cycle that [start nodes r w t0] begins, as long as it runs: its
    pipelines can only be rejected, with a failure of [exec] or of [onError],
    and there is one of them by the time the generator is done. *)
Definition doomed (c : Cycle W G Item Res E) : Prop :=
  node c = r /\
  Forall (ends_in (nodes r) (fails_in_retry (nodes r) t0) (trace (mem c)))
    (execPromises c) /\
  match driver c with
  | AtNext g =>
      produces (nodes r) g /\ (execPromises c = [] -> Running c = start nodes r w t0)
  | AtAll rej =>
      execPromises c <> [] /\
      forall e, rej = Some e ->
        exec_failure t0 (trace (mem c)) e \/ onError_failure (nodes r) t0 (trace (mem c)) e
  end.

Definition doomed_status (st : Status W G Item Res E) : Prop :=
  t0 `prefix_of` status_trace st /\
  count is_post (status_trace st) = count is_post t0 /\
  count is_prep (status_trace st) = S (count is_prep t0) /\
  match st with
  | Running c => doomed c
  | Failed e _ t => exec_failure t0 t e \/ onError_failure (nodes r) t0 t e
  | Returned _ _ => False
  end.

(** The same cycle, as long as it runs, when no pipeline can be rejected. *)
Definition safe (c : Cycle W G Item Res E) : Prop :=
  node c = r /\
  Forall (ends_in (nodes r) is_done (trace (mem c))) (execPromises c) /\
  match driver c with
  | AtNext g => produces (nodes r) g
  | AtAll rej => rej = None
  end.

Definition safe_status (st : Status W G Item Res E) : Prop :=
  (count is_post t0 < count is_post (status_trace st))%nat \/
  exists c, st = Running c /\ safe c /\
    count is_post (trace (mem c)) = count is_post t0.

End CycleInvariants.

(** ** Items and their results *)

Section Pairing.

Context {W G Item Res E : Type}.

(** What a pipeline has pushed: nothing yet (it has the promise of its
    item), its item, or its item and the result for it. *)
Inductive Pushed : Type :=
| Nothing (item : Settled E Item)
| TheItem (v : Item)
| Both (v : Item) (result : Res).

Definition item_of (s : Pushed) : option Item :=
  match s with
  | Nothing _ => None
  | TheItem v | Both v _ => Some v
  end.

(** The promise that the generator yielded for the pipeline. *)
Definition promise_of (s : Pushed) : Settled E Item :=
  match s with
  | Nothing item => item
  | TheItem v | Both v _ => Fulfilled v
  end.

Definition result_of (s : Pushed) : option Res :=
  match s with
  | Both _ result => Some result
  | _ => None
  end.

Definition pair_of (s : Pushed) : option (Item * Res) :=
  match s with
  | Both v result => Some (v, result)
  | _ => None
  end.

(** What a pipeline pushes when it goes from [s] to [s']. *)
Definition news {A : Type} (f : Pushed -> option A) (s s' : Pushed) : list A :=
  match f s, f s' with
  | None, Some a => [a]
  | _, _ => []
  end.

Definition keeps {A : Type} (f : Pushed -> option A) (s s' : Pushed) : Prop :=
  forall a, f s = Some a -> f s' = Some a.

Definition pushed (s s' : Pushed) (m m' : Mem W Item Res E) : Prop :=
  prepItems m' = prepItems m ++ news item_of s s' /\
  execResults m' = execResults m ++ news result_of s s' /\
  keeps item_of s s' /\ keeps result_of s s' /\ promise_of s' = promise_of s.

Variable node : Node W G Item Res E.

(** [result] is what [exec], or [execFallback], returned for [item] in some
    world. *)
Definition result_for (item : Item) (result : Res) : Prop :=
  exists w,
    fst (exec node item w) = inl result \/
    exists fallback error,
      execFallback node = Some fallback /\
      fst (fallback item error w) = inl result.

(** [result] is what [execFallback] returned for [item] and some failure, in
    some world. *)
Definition fallback_for (item : Item) (result : Res) : Prop :=
  exists fallback error w,
    execFallback node = Some fallback /\ fst (fallback item error w) = inl result.

(** [carries s p]: the pipeline [p] has pushed [s], and whatever user code
    does, what it pushes after its item is a result for that item, just
    before it returns. *)
Inductive carries : Pushed -> Prog Item Res E unit -> Prop :=
| carries_returned v result :
    result_for v result -> carries (Both v result) (Ret tt)
| carries_thrown s e : result_of s = None -> carries s (Throw e)
| carries_call s X (c : Call Item Res E X) k :
    result_of s = None -> is_push c = false ->
    (forall m : Mem W Item Res E, carries s (k (fst (perform node c m)))) ->
    carries s (Vis c k)
| carries_push_item v k :
    carries (TheItem v) (k (Fulfilled tt)) ->
    carries (Nothing (Fulfilled v)) (Vis (PushPrepItem v) k)
| carries_push_result v result k :
    result_for v result -> k (Fulfilled tt) = Ret tt ->
    carries (TheItem v) (Vis (PushExecResult result) k).

(** The two arrays hold, in some order, the items and the results of one
    list of pairs: for each of the [promises], in their order, the item it
    resolved to and a result for that item. *)
Definition matched (promises : list (Settled E Item))
    (items : list Item) (results : list Res) : Prop :=
  exists pairs : list (Item * Res),
    promises = Fulfilled <$> pairs.*1 /\
    items ≡ₚ pairs.*1 /\ results ≡ₚ pairs.*2 /\
    Forall (fun p => result_for p.1 p.2) pairs.

End Pairing.

Arguments Pushed : clear implicits.

(** What the generator has yielded since the last call of [prep]. *)
Definition yields {Item Res E : Type} (t : list (Event Item Res E))
  : list (Yielded Item E) :=
  foldl (fun l ev =>
           match ev with
           | EvPrep _ => []
           | EvNext _ (Some value) => l ++ [value]
           | _ => l
           end) [] t.

(** The arrays of a cycle hold what its pipelines have pushed, and there is
    one pipeline for each promise the generator has yielded. *)
Definition paired {W G Item Res E : Type}
    (nodes : NodeRef -> Node W G Item Res E) (c : Cycle W G Item Res E) : Prop :=
  exists stages : list (Pushed Item Res E),
    Forall2 (carries (nodes (node c))) stages (execPromises c) /\
    prepItems (mem c) ≡ₚ omap item_of stages /\
    execResults (mem c) ≡ₚ omap result_of stages /\
    promise_of <$> stages = item_promise <$> yields (trace (mem c)).

Definition paired_status {W G Item Res E : Type}
    (nodes : NodeRef -> Node W G Item Res E) (st : Status W G Item Res E) : Prop :=
  match st with
  | Running c => paired nodes c
  | _ => True
  end.

(** ** The calls of [exec] in a cycle *)

Section Budget.

Context {W G Item Res E : Type}.

Definition is_exec_call {X : Type} (c : Call Item Res E X) : bool :=
  match c with
  | Exec _ => true
  | _ => false
  end.

(** [within k p]: whatever its calls answer, [p] calls [exec] at most [k]
    more times. *)
Inductive within : nat -> Prog Item Res E unit -> Prop :=
| within_returned k : within k (Ret tt)
| within_thrown k e : within k (Throw e)
| within_exec k item K :
    (forall o, within k (K o)) -> within (S k) (Vis (Exec item) K)
| within_call k X (c : Call Item Res E X) K :
    is_exec_call c = false -> (forall o, within k (K o)) -> within k (Vis c K).

(** The number of calls of [exec] since the last call of [prep]: those of
    the cycle that is running at the end of [t]. *)
Definition execs (t : list (Event Item Res E)) : nat :=
  foldl (fun n ev =>
           match ev with
           | EvPrep _ => O
           | EvExec _ _ => S n
           | _ => n
           end) O t.

(** The calls of [exec] made in a cycle and those its pipelines can still
    make are at most [maxRetries] per pipeline. *)
Definition thrifty (nodes : NodeRef -> Node W G Item Res E)
    (c : Cycle W G Item Res E) : Prop :=
  exists budgets : list nat,
    Forall2 within budgets (execPromises c) /\
    (execs (trace (mem c)) + sum_list budgets
     <= length (execPromises c) * Z.to_nat (maxRetries (config (nodes (node c)))))%nat.

Definition thrifty_status (nodes : NodeRef -> Node W G Item Res E)
    (st : Status W G Item Res E) : Prop :=
  match st with
  | Running c => thrifty nodes c
  | _ => True
  end.

End Budget.

(** ** Nodes whose [exec] returns *)

(** [exec] returns, whatever the item and the world. *)
Definition always_returns {W G Item Res E : Type} (node : Node W G Item Res E) : Prop :=
  forall item w, exists v, fst (exec node item w) = inl v.

(** ** Cycles that cannot fail *)

Section Unfailing.

Context {W G Item Res E : Type}.
Variable nodes : NodeRef -> Node W G Item Res E.
Variable r : NodeRef.

(** What is known of the generator of the cycle. *)
Variable P : G -> Prop.

(** [P] is kept by [next()], which does not throw and yields items, or
    promises that resolve to items. *)
Definition kept_by_next : Prop :=
  forall g w, P g ->
    match gen_next (nodes r) g w with
    | (ItYield value g', _) => (exists v, item_promise value = Fulfilled v) /\ P g'
    | (ItDone, _) => True
    | (ItThrow _, _) => False
    end.

(** A cycle of node [r], as long as it runs, when neither its generator nor
    one of its pipelines can fail. *)
Definition unfailing (c : Cycle W G Item Res E) : Prop :=
  node c = r /\
  Forall (ends_in (nodes r) is_done (trace (mem c))) (execPromises c) /\
  match driver c with
  | AtNext g => P g
  | AtAll rej => rej = None
  end.

(** The cycle runs and cannot fail, or [post] has been called since [t0]. *)
Definition unfailing_status (t0 : list (Event Item Res E))
    (st : Status W G Item Res E) : Prop :=
  (count is_post t0 < count is_post (status_trace st))%nat \/
  exists c, st = Running c /\ unfailing c /\
    count is_post (trace (mem c)) = count is_post t0.

End Unfailing.

(** ** A pipeline that runs alone *)

Section Alone.

Context {W G Item Res E : Type}.

(** The promise of an [async] function that has ended in [o]. *)
Definition settled_as {A : Type} (o : Settled E A) : Prog Item Res E A :=
  match o with
  | Fulfilled a => Ret a
  | Rejected e => Throw e
  end.

(** A pipeline resumed [k] times in a row, nothing else happening in
    between. *)
Fixpoint resumes (node : Node W G Item Res E) {A : Type} (k : nat)
    (p : Prog Item Res E A) (m : Mem W Item Res E)
  : Prog Item Res E A * Mem W Item Res E :=
  match k with
  | O => (p, m)
  | S k => let '(p', m') := resume node p m in resumes node k p' m'
  end.

(** Two memories that differ in the record of the calls only. *)
Definition same_state (m m' : Mem W Item Res E) : Prop :=
  world m = world m' /\ prepItems m = prepItems m' /\ execResults m = execResults m'.

(** How the pipeline of an item ends when [executeWithRetry] ends in [o]. *)
Definition pipeline_outcome (o : Settled E Res) : Settled E unit :=
  match o with
  | Fulfilled _ => Fulfilled tt
  | Rejected e => Rejected e
  end.

(** The lines of [run] after [await Promise.all(execPromises)], for a cycle
    of node [r] with the one item [v] and the result [result], [t] being what
    has been called so far and [w] the world. *)
Definition after_all (nodes : NodeRef -> Node W G Item Res E) (r : NodeRef)
    (v : Item) (result : Res) (w : W) (t : list (Event Item Res E))
  : Status W G Item Res E :=
  aggregate nodes
    {| mem := {| world := w; trace := t; prepItems := [v]; execResults := [result] |};
       node := r;
       execPromises := [Ret tt];
       driver := AtAll None |}.

End Alone.

(** ** The cycle of one item *)

Section OneItem.

Context {W G Item Res E : Type}.
Variable nodes : NodeRef -> Node W G Item Res E.
Variable r : NodeRef.
Variable w : W.
Variable t : list (Event Item Res E).

(** The item, the generator once it has yielded it, how [executeWithRetry]
    ends for it and the world it leaves. *)
Variable v : Item.
Variable g1 : G.
Variable o : Settled E Res.
Variable w2 : W.

(** The cycle that [start nodes r w t] begins, as long as it runs: it has
    not begun, or its one pipeline is on its way to where
    [executeWithRetry] ends. *)
Definition only_pipeline (c : Cycle W G Item Res E) : Prop :=
  node c = r /\
  (Running c = start nodes r w t \/
   exists p,
     execPromises c = [p] /\
     fst (interp (nodes r) p (mem c)) = pipeline_outcome o /\
     same_state (snd (interp (nodes r) p (mem c)))
       {| world := w2; trace := []; prepItems := [v];
          execResults := match o with
                         | Fulfilled result => [result]
                         | Rejected _ => []
                         end |} /\
     (driver c = AtNext g1 \/ driver c = AtAll None \/
      exists e, driver c = AtAll (Some e) /\ p = Throw e)).

(** What a run from [start nodes r w t] has come to: the cycle still runs;
    or [run] is rejected as [executeWithRetry] was; or [post] has been
    called with the item and its result. *)
Definition one_item_status (st : Status W G Item Res E) : Prop :=
  (exists c, st = Running c /\ only_pipeline c /\
     count is_post (trace (mem c)) = count is_post t) \/
  (exists e tr, o = Rejected e /\ st = Failed e w2 tr) \/
  (exists result tr sched,
     o = Fulfilled result /\ st = schedule nodes sched (after_all nodes r v result w2 tr)).

End OneItem.

(** ** Cycles in sequence *)

(** While a cycle runs, [prep] has been called once more than [post]; and
    [run] returns right after a [post] whose action leads nowhere, in the
    world that this call of [post] left. *)
Definition in_sequence {W G Item Res E : Type}
    (nodes : NodeRef -> Node W G Item Res E) (st : Status W G Item Res E) : Prop :=
  match st with
  | Running c => count is_prep (trace (mem c)) = S (count is_post (trace (mem c)))
  | Returned w t =>
      exists t' r items results action w0,
        t = t' ++ [EvPost r items results (inl action)] /\
        post (nodes r) items results w0 = (inl action, w) /\
        route nodes (nodes r) action w t = Returned w t /\
        count is_prep t = count is_post t
  | Failed _ _ _ => True
  end.

(** ** Nodes to run the engine on *)

Module Examples.

(** A generator over a list: [for (const x of xs) yield x]. *)
Definition yield_each {W : Type} (g : list string) (w : W)
  : IteratorResult (list string) string string * W :=
  match g with
  | x :: g' => (ItYield (YValue x) g', w)
  | [] => (ItDone, w)
  end.

(** An [onError] that does nothing. *)
Definition quiet {W : Type} (error : Error string) (attempt maxRetries : Z) (w : W)
  : (unit + string) * W := (inl tt, w).

(** An [onError] that throws. *)
Definition loud {W : Type} (error : Error string) (attempt maxRetries : Z) (w : W)
  : (unit + string) * W := (inr "logger down"%string, w).

Definition with_onError {W G : Type}
    (h : Error string -> Z -> Z -> W -> (unit + string) * W)
    (n : Node W G string string string) : Node W G string string string :=
  {| config := config n; edges := edges n; prep := prep n; gen_next := gen_next n;
     exec := exec n; post := post n; execFallback := execFallback n;
     onError := h |}.

(** [exec] echoes its item; [post] returns [null]. *)
Definition echo : Node unit (list string) string string string :=
  {| config := DEFAULT_NODE_CONFIG;
     edges := ∅;
     prep := fun _ => ["a"; "b"]%string;
     gen_next := yield_each;
     exec := fun it w => (inl (String.append "echo " it), w);
     post := fun _ _ w => (inl ANull, w);
     execFallback := None;
     onError := quiet |}.

(** The world counts the calls of [exec]; the first two fail. *)
Definition flaky : Node nat (list string) string string string :=
  {| config := DEFAULT_NODE_CONFIG;
     edges := ∅;
     prep := fun _ => ["a"]%string;
     gen_next := yield_each;
     exec := fun it w =>
       if (w <? 2)%nat then (inr "down"%string, S w)
       else (inl (String.append "ok " it), S w);
     post := fun _ _ w => (inl AUndefined, w);
     execFallback := None;
     onError := quiet |}.

(** [exec] always fails, and so does [execFallback]. *)
Definition brittle : Node unit (list string) string string string :=
  {| config := DEFAULT_NODE_CONFIG;
     edges := ∅;
     prep := fun _ => ["a"]%string;
     gen_next := yield_each;
     exec := fun _ w => (inr "boom"%string, w);
     post := fun _ _ w => (inl AUndefined, w);
     execFallback := Some (fun _ _ w => (inr "fallback boom"%string, w));
     onError := quiet |}.

(** [exec] always fails and there is no [execFallback]. *)
Definition hopeless : Node unit (list string) string string string :=
  {| config := DEFAULT_NODE_CONFIG;
     edges := {[ VString "default" := VNode 1%nat ]};
     prep := fun _ => ["a"; "b"]%string;
     gen_next := yield_each;
     exec := fun it w => (inr (String.append "no " it), w);
     post := fun _ _ w => (inl AUndefined, w);
     execFallback := None;
     onError := quiet |}.

(** [exec] always fails and [execFallback] returns. *)
Definition degrading : Node unit (list string) string string string :=
  {| config := spread_config (Some {| p_maxRetries := Some 2;
                                      p_retryDelay := Some (-5);
                                      p_timeout := None |});
     edges := ∅;
     prep := fun _ => ["a"]%string;
     gen_next := yield_each;
     exec := fun it w => (inr (String.append "no " it), w);
     post := fun _ _ w => (inl AUndefined, w);
     execFallback := Some (fun it _ w => (inl (String.append "instead of " it), w));
     onError := quiet |}.

(** [prep] yields nothing; the default edge goes to node 1, the edge 'again'
    to node 0. *)
Definition silent : Node unit (list string) string string string :=
  connect (VString "again") (Some 0%nat)
    (connect (VNode 1%nat) None
       {| config := DEFAULT_NODE_CONFIG;
          edges := ∅;
          prep := fun _ => [];
          gen_next := yield_each;
          exec := fun it w => (inl it, w);
          post := fun _ _ w => (inl AUndefined, w);
          execFallback := None;
          onError := quiet |}).

(** Node 0 is [silent]; every other node is [echo]. *)
Definition silent_then_echo (r : NodeRef) : Node unit (list string) string string string :=
  match r with
  | O => silent
  | _ => echo
  end.

(** The two pipelines of [echo]: the items resolve in the order they were
    yielded, and the [exec] of the second item settles before that of the
    first. *)
Definition second_settles_first : list Choice :=
  [Pull; Settle 0; Pull; Settle 1; Settle 0; Settle 1; Settle 1; Settle 0; Pull]%nat.

Definition fresh {W : Type} (w : W) : Mem W string string string :=
  {| world := w; trace := []; prepItems := []; execResults := [] |}.

(** A generator over a list that throws once the list is used up. *)
Definition yield_then_throw {W : Type} (g : list string) (w : W)
  : IteratorResult (list string) string string * W :=
  match g with
  | x :: g' => (ItYield (YValue x) g', w)
  | [] => (ItThrow "prep failed"%string, w)
  end.

(** [prep] throws before it has yielded anything. *)
Definition faulty : Node unit (list string) string string string :=
  {| config := DEFAULT_NODE_CONFIG;
     edges := ∅;
     prep := fun _ => [];
     gen_next := yield_then_throw;
     exec := fun it w => (inl it, w);
     post := fun _ _ w => (inl AUndefined, w);
     execFallback := None;
     onError := quiet |}.

(** [echo], constructed with [{ maxRetries: 0 }]. *)
Definition unwilling : Node unit (list string) string string string :=
  with_config (spread_config (Some {| p_maxRetries := Some 0;
                                      p_retryDelay := None;
                                      p_timeout := None |})) echo.

(** [flaky], [hopeless] and [degrading] with an [onError] that throws. *)
Definition flaky_loud : Node nat (list string) string string string :=
  with_onError loud flaky.

Definition hopeless_loud : Node unit (list string) string string string :=
  with_onError loud hopeless.

Definition degrading_loud : Node unit (list string) string string string :=
  with_onError loud degrading.

End Examples.

(** ** A node of the test suite *)

(** [UnreliableNode] of [tests/retry-fallback.test.ts]. *)
Module RetryFallbackTest.

(** [interface RetryStore]; a [result] that is not set is [None]. *)
Record RetryStore : Type := mkRetryStore {
  prompt : string;
  result : option string;
  attempts : Z
}.

Section UnreliableNode.

(** [mockLLM.call], of [tests/mock-llm.ts]: it is taken to return a string
    and to leave the store alone. *)
Variable mockLLM_call : string -> string.

(** [async *prep(store) { yield store.prompt; }]: the generator has yet to
    yield ([true]) or has yielded ([false]). *)
Definition prep_next (g : bool) (store : RetryStore)
  : IteratorResult bool string string * RetryStore :=
  if g then (ItYield (YValue (prompt store)) false, store) else (ItDone, store).

Definition exec (item : string) (store : RetryStore)
  : (string + string) * RetryStore :=
  let store := {| prompt := prompt store; result := result store;
                  attempts := attempts store + 1 |} in
  if attempts store <? 3 then (inr "Simulated API failure"%string, store)
  else (inl (mockLLM_call item), store).

Definition post (prepItems execResults : list string) (store : RetryStore)
  : (Action + string) * RetryStore :=
  (inl ANull,
   {| prompt := prompt store; result := execResults !! O;
      attempts := attempts store |}).

Definition execFallback (item : string) (error : Error string) (store : RetryStore)
  : (string + string) * RetryStore :=
  (inl "Fallback response due to error"%string, store).

(** [new UnreliableNode(config)]; [onError] is that of [Node], which logs
    the failure, an [Error] object, to the console and returns. *)
Definition UnreliableNode (config : option PartialConfig)
  : Node RetryStore bool string string string :=
  mkNode (spread_config config) ∅ (fun _ => true) prep_next exec post
    (Some execFallback) (fun _ _ _ store => (inl tt, store)).

End UnreliableNode.

End RetryFallbackTest.

(** [ParallelNode] of [tests/parallel-execution.test.ts]. *)
Module ParallelExecutionTest.

(** [interface ParallelStore]; [results] that are not set are [None]. *)
Record ParallelStore : Type := mkParallelStore {
  queries : list string;
  results : option (list string)
}.

Section ParallelNode.

(** [mockLLM.call], of [tests/mock-llm.ts]: it is taken to return a string
    and to leave the store alone. *)
Variable mockLLM_call : string -> string.

(** [async *prep(store) { for (const query of store.queries) yield query; }]:
    the generator is at an index of the array. *)
Definition prep_next (i : nat) (store : ParallelStore)
  : IteratorResult nat string string * ParallelStore :=
  match queries store !! i with
  | Some query => (ItYield (YValue query) (S i), store)
  | None => (ItDone, store)
  end.

Definition exec (query : string) (store : ParallelStore)
  : (string + string) * ParallelStore :=
  (inl (mockLLM_call query), store).

Definition post (prepItems execResults : list string) (store : ParallelStore)
  : (Action + string) * ParallelStore :=
  (inl ANull, {| queries := queries store; results := Some execResults |}).

(** [new ParallelNode(config)]; [onError] is that of [Node], which logs the
    failure, an [Error] object, to the console and returns. *)
Definition ParallelNode (config : option PartialConfig)
  : Node ParallelStore nat string string string :=
  mkNode (spread_config config) ∅ (fun _ => O) prep_next exec post
    None (fun _ _ _ store => (inl tt, store)).

(** A cycle of [ParallelNode] on [store], as long as it runs: the store is
    as it was, and the generator has yielded the queries before its index,
    and all of them once it is done. *)
Definition in_cycle (store : ParallelStore)
    (c : Cycle ParallelStore nat string string string) : Prop :=
  world (mem c) = store /\
  yields (trace (mem c))
  = YValue <$> match driver c with
               | AtNext i => take i (queries store)
               | AtAll _ => queries store
               end.

(** What a run of [ParallelNode] on [store] has come to: its cycle runs, or
    it has returned with the answers to the queries, in some order. *)
Definition answered (store : ParallelStore)
    (st : Status ParallelStore nat string string string) : Prop :=
  (exists c, st = Running c /\
     unfailing (fun _ => ParallelNode None) O (fun _ => True) c /\
     paired (fun _ => ParallelNode None) c /\ in_cycle store c) \/
  (exists rs t,
     st = Returned {| queries := queries store; results := Some rs |} t /\
     rs ≡ₚ mockLLM_call <$> queries store).

End ParallelNode.

End ParallelExecutionTest.

(** The three nodes of [tests/workflow.test.ts]. *)
Module WorkflowTest.

(** [interface WorkflowStore]; a field that is not set is [None]. *)
Record WorkflowStore : Type := mkWorkflowStore {
  userQuery : string;
  researchResults : option string;
  outline : option string;
  finalReport : option string
}.

(** [`${x}`] for a string that may be [undefined]. *)
Definition template (x : option string) : string := default "undefined"%string x.

Section Nodes.

(** [mockLLM.call], of [tests/mock-llm.ts]: it is taken to return a string
    and to leave the store alone. *)
Variable mockLLM_call : string -> string.

(** [async *prep(store) { yield prompt; }]: the generator has yet to yield
    ([true]) or has yielded ([false]). *)
Definition yield_once (prompt : WorkflowStore -> string) (g : bool) (store : WorkflowStore)
  : IteratorResult bool string string * WorkflowStore :=
  if g then (ItYield (YValue (prompt store)) false, store) else (ItDone, store).

Definition exec (prompt : string) (store : WorkflowStore)
  : (string + string) * WorkflowStore :=
  (inl (mockLLM_call prompt), store).

Definition ResearchNode : Node WorkflowStore bool string string string :=
  mkNode (spread_config None) ∅ (fun _ => true)
    (yield_once (fun store =>
       String.append "Research the following topic: " (userQuery store)))
    exec
    (fun prepItems execResults store =>
       (inl (AString "outline"),
        {| userQuery := userQuery store; researchResults := execResults !! O;
           outline := outline store; finalReport := finalReport store |}))
    None (fun _ _ _ store => (inl tt, store)).

Definition OutlineNode : Node WorkflowStore bool string string string :=
  mkNode (spread_config None) ∅ (fun _ => true)
    (yield_once (fun store =>
       String.append "Create an outline based on: " (template (researchResults store))))
    exec
    (fun prepItems execResults store =>
       (inl (AString "write"),
        {| userQuery := userQuery store; researchResults := researchResults store;
           outline := execResults !! O; finalReport := finalReport store |}))
    None (fun _ _ _ store => (inl tt, store)).

Definition WriterNode : Node WorkflowStore bool string string string :=
  mkNode (spread_config None) ∅ (fun _ => true)
    (yield_once (fun store =>
       String.append "Write a report following this outline: " (template (outline store))))
    exec
    (fun prepItems execResults store =>
       (inl ANull,
        {| userQuery := userQuery store; researchResults := researchResults store;
           outline := outline store; finalReport := execResults !! O |}))
    None (fun _ _ _ store => (inl tt, store)).

(** What [executeWithRetry] leaves when [exec] returns at once. *)
Definition once (store : WorkflowStore) (prompt answer : string)
    (t : list (Event string string string))
  : Mem WorkflowStore string string string :=
  {| world := store; trace := t ++ [EvExec prompt (inl answer)];
     prepItems := [prompt]; execResults := [] |}.

(** [researchNode.connect(outlineNode); outlineNode.connect(writerNode)]:
    node 0 is [researchNode], node 1 [outlineNode], node 2 [writerNode]. *)
Definition workflow (r : NodeRef) : Node WorkflowStore bool string string string :=
  match r with
  | O => connect (VNode 1%nat) None ResearchNode
  | S O => connect (VNode 2%nat) None OutlineNode
  | _ => WriterNode
  end.

End Nodes.

End WorkflowTest.

(** [ConfigurableNode] of [tests/node-configuration.test.ts]. *)
Module NodeConfigurationTest.

(** [interface ConfigStore]; an [output] that is not set is [None]. *)
Record ConfigStore : Type := mkConfigStore {
  input : string;
  output : option string
}.

Section ConfigurableNode.

(** [mockLLM.call], of [tests/mock-llm.ts]: it is taken to return a string
    and to leave the store alone. *)
Variable mockLLM_call : string -> string.

(** The node object. *)
Variable this : NodeRef.

(** [this.params.prefix || ''], for parameters that are strings. *)
Definition prefix (w : WithParams string ConfigStore) : string :=
  match params w this !! "prefix"%string with
  | Some s => if String.eqb s "" then ""%string else s
  | None => ""%string
  end.

(** [async *prep(store) { ...; yield `${prefix}${store.input}`; }]: the
    generator has yet to yield ([true]) or has yielded ([false]). *)
Definition prep_next (g : bool) (w : WithParams string ConfigStore)
  : IteratorResult bool string string * WithParams string ConfigStore :=
  if g then (ItYield (YValue (String.append (prefix w) (input (store w)))) false, w)
  else (ItDone, w).

Definition exec (prompt : string) (w : WithParams string ConfigStore)
  : (string + string) * WithParams string ConfigStore :=
  (inl (mockLLM_call prompt), w).

Definition post (prepItems execResults : list string) (w : WithParams string ConfigStore)
  : (Action + string) * WithParams string ConfigStore :=
  (inl ANull,
   {| params := params w;
      store := {| input := input (store w); output := execResults !! O |} |}).

(** [new ConfigurableNode(config)]; [onError] is that of [Node], which logs
    the failure, an [Error] object, to the console and returns. *)
Definition ConfigurableNode (config : option PartialConfig)
  : Node (WithParams string ConfigStore) bool string string string :=
  mkNode (spread_config config) ∅ (fun _ => true) prep_next exec post
    None (fun _ _ _ w => (inl tt, w)).

(** What [executeWithRetry] leaves when [exec] returns at once. *)
Definition once (w : WithParams string ConfigStore) (prompt answer : string)
    (t : list (Event string string string))
  : Mem (WithParams string ConfigStore) string string string :=
  {| world := w; trace := t ++ [EvExec prompt (inl answer)];
     prepItems := [prompt]; execResults := [] |}.

End ConfigurableNode.

End NodeConfigurationTest.

(** [HinterNode] and [GuesserNode] of [tests/multi-agent.test.ts]. *)
Module MultiAgentTest.

(** [{ from: string; content: string }]; the [content] pushed is
    [execResults[0]], a string or [undefined] ([None]). *)
Record Message : Type := mkMessage {
  from : string;
  content : option string
}.

(** [interface MultiAgentStore]; a field that is not set is [None]. *)
Record MultiAgentStore : Type := mkMultiAgentStore {
  messages : list Message;
  targetWord : option string;
  guessed : option bool;
  rounds : Z
}.

(** [`${x}`] for a string that may be [undefined]. *)
Definition template (x : option string) : string := default "undefined"%string x.

(** The line break of a template. *)
Definition nl : string := String (Ascii.ascii_of_nat 10) EmptyString.

(** [m => `${m.from}: ${m.content}`] *)
Definition line (m : Message) : string :=
  from m +:+ ": " +:+ template (content m).

(** [xs.slice(-3)] *)
Definition last3 {A : Type} (xs : list A) : list A := drop (length xs - 3) xs.

(** [store.messages.push(m)] *)
Definition push (m : Message) (store : MultiAgentStore) : MultiAgentStore :=
  {| messages := messages store ++ [m]; targetWord := targetWord store;
     guessed := guessed store; rounds := rounds store |}.

Definition hinter_prompt (store : MultiAgentStore) : string :=
  let history := String.concat nl (line <$> last3 (messages store)) in
  "Target word: " +:+ template (targetWord store) +:+ nl
  +:+ "Previous messages: " +:+ history +:+ nl
  +:+ "Give a one-word clue (don't say the target word).".

Definition guesser_prompt (store : MultiAgentStore) : string :=
  let history := String.concat nl (line <$> messages store) in
  "Messages: " +:+ history +:+ nl +:+ "Guess the target word (one word):".

Section Nodes.

(** [mockLLM.call], of [tests/mock-llm.ts]: it is taken to return a string
    and to leave the store alone. *)
Variable mockLLM_call : string -> string.

(** [async *prep(store) { ...; yield prompt; }]: the generator has yet to
    yield ([true]) or has yielded ([false]). *)
Definition yield_once (prompt : MultiAgentStore -> string) (g : bool)
    (store : MultiAgentStore)
  : IteratorResult bool string string * MultiAgentStore :=
  if g then (ItYield (YValue (prompt store)) false, store) else (ItDone, store).

Definition HinterNode : Node MultiAgentStore bool string (option string) string :=
  mkNode (spread_config None) ∅ (fun _ => true) (yield_once hinter_prompt)
    (fun prompt store =>
       let _ := mockLLM_call prompt in
       (inl (Some "related-clue"%string), store))
    (fun prepItems execResults store =>
       let clue := default None (execResults !! O) in
       (inl AUndefined, push {| from := "Hinter"; content := clue |} store))
    None (fun _ _ _ store => (inl tt, store)).

Definition GuesserNode : Node MultiAgentStore bool string (option string) string :=
  mkNode (spread_config None) ∅ (fun _ => true) (yield_once guesser_prompt)
    (fun prompt store =>
       let _ := mockLLM_call prompt in
       (inl (if 2 <=? rounds store then targetWord store
             else Some "wrong-guess"%string), store))
    (fun prepItems execResults store =>
       let guess := default None (execResults !! O) in
       let store1 := push {| from := "Guesser"; content := guess |} store in
       let store2 :=
         {| messages := messages store1; targetWord := targetWord store1;
            guessed := guessed store1; rounds := rounds store1 + 1 |} in
       if bool_decide (guess = targetWord store2) then
         (inl KILL,
          {| messages := messages store2; targetWord := targetWord store2;
             guessed := Some true; rounds := rounds store2 |})
       else if 3 <=? rounds store2 then (inl KILL, store2)
       else (inl AUndefined, store2))
    None (fun _ _ _ store => (inl tt, store)).

(** [hinterNode.connect(guesserNode); guesserNode.connect(hinterNode)]:
    node 0 is [hinterNode], node 1 [guesserNode]. *)
Definition agents (r : NodeRef)
  : Node MultiAgentStore bool string (option string) string :=
  match r with
  | O => connect (VNode 1%nat) None HinterNode
  | _ => connect (VNode O) None GuesserNode
  end.

(** What [executeWithRetry] leaves when [exec] returns at once. *)
Definition once (store : MultiAgentStore) (prompt : string) (answer : option string)
    (t : list (Event string (option string) string))
  : Mem MultiAgentStore string (option string) string :=
  {| world := store; trace := t ++ [EvExec prompt (inl answer)];
     prepItems := [prompt]; execResults := [] |}.

End Nodes.

End MultiAgentTest.

(** * Properties *)

Section TraceFacts.

Context {Item Res E : Type}.
Implicit Types t : list (Event Item Res E).

Lemma count_app f t1 t2 : count f (t1 ++ t2) = (count f t1 + count f t2)%nat.
Proof.
  induction t1 as [|ev t1 IH]; simpl; [reflexivity|].
  destruct (f ev); simpl; rewrite IH; reflexivity.
Qed.

End TraceFacts.

Section RetryFacts.

Context {W G Item Res E : Type}.
Variable node : Node W G Item Res E.
Variable item : Item.

Abbreviation max := (maxRetries (config node)).

Lemma count_exec_retries errors attempt :
  count is_exec (retries node item errors attempt) = length errors.
Proof.
  revert attempt; induction errors as [|e errors IH]; intros attempt; simpl;
    [reflexivity|]. by rewrite IH.
Qed.

Lemma count_onError_retries errors attempt :
  count is_onError (retries node item errors attempt) = length errors.
Proof.
  revert attempt; induction errors as [|e errors IH]; intros attempt; simpl;
    [reflexivity|]. by rewrite IH.
Qed.

Lemma count_fallback_retries errors attempt :
  count is_fallback (retries node item errors attempt) = O.
Proof.
  revert attempt; induction errors as [|e errors IH]; intros attempt; simpl;
    [reflexivity|]. by rewrite IH.
Qed.

(** The loop, entered at [attempt] with more iterations left than [exec] has
    failures before its success. *)
Lemma attempts_fails_then_succeeds errors :
  forall remaining attempt m v,
    (length errors < remaining)%nat ->
    Z.of_nat remaining = max - attempt ->
    fails_then_succeeds node item errors attempt (world m) v ->
    exists m',
      interp node (attempts node item remaining attempt) m = (Fulfilled v, m') /\
      trace m' = trace m ++ retries node item errors attempt ++ [EvExec item (inl v)].
Proof.
  induction errors as [|e errors IH]; intros remaining attempt m v Hlen Hrem Hex.
  - destruct remaining as [|remaining]; [simpl in Hlen; lia|].
    simpl in Hex. simpl.
    destruct (exec node item (world m)) as [r w] eqn:Hexec. simpl in Hex. subst r.
    simpl. eexists. split; reflexivity.
  - destruct remaining as [|remaining]; [simpl in Hlen; lia|].
    destruct Hex as (w' & w'' & Hexec & Hreport & Hex).
    simpl. rewrite Hexec. simpl.
    destruct (Z.eqb_spec attempt (max - 1)) as [Heq|Hne].
    { simpl in Hlen. lia. }
    simpl. rewrite Hreport. simpl.
    match goal with
    | |- context [interp _ (attempts _ _ _ _) ?m1] =>
        destruct (IH remaining (attempt + 1) m1 v) as (m' & Hrun & Htrace);
          [simpl in Hlen; lia | lia | exact Hex |]
    end.
    exists m'. split; [exact Hrun|].
    rewrite Htrace. simpl. rewrite <- !app_assoc. reflexivity.
Qed.

End RetryFacts.

Section Retry.

Context {W G Item Res E : Type}.
Variable node : Node W G Item Res E.
Variable item : Item.

(** C2, amended.  When [exec] fails [length errors] times and then returns
    [v], with fewer failures than [maxRetries], and [onError] returns each
    time it is told of one of these failures, [executeWithRetry] returns
    [v]; the calls it makes are one failed [exec], one [onError] and one
    sleep per failure and then the successful [exec], after which nothing is
    called: [onError] is called once per failure and [exec] once more than
    that. *)
Theorem retry_until_success (errors : list E) (v : Res) (m : Mem W Item Res E) :
  Z.of_nat (length errors) < maxRetries (config node) ->
  fails_then_succeeds node item errors 0 (world m) v ->
  exists m',
    interp node (executeWithRetry node item) m = (Fulfilled v, m') /\
    trace m' = trace m ++ retries node item errors 0 ++ [EvExec item (inl v)] /\
    count is_onError (trace m') = (count is_onError (trace m) + length errors)%nat /\
    count is_exec (trace m') = (count is_exec (trace m) + S (length errors))%nat.
Proof.
  intros Hlt Hex.
  destruct (attempts_fails_then_succeeds node item errors
              (Z.to_nat (maxRetries (config node))) 0 m v) as (m' & Hrun & Htrace);
    [lia | lia | exact Hex |].
  exists m'. split; [exact Hrun|]. split; [exact Htrace|].
  rewrite Htrace, !count_app, count_onError_retries, count_exec_retries.
  simpl. split; lia.
Qed.

End Retry.

(** On [flaky], whose [exec] fails twice and then returns. *)
Lemma retry_until_success_witness :
  Z.of_nat (length ["down"; "down"]%string) < maxRetries (config Examples.flaky) /\
  fails_then_succeeds Examples.flaky "a"%string ["down"; "down"]%string 0 O "ok a"%string /\
  exists m',
    interp Examples.flaky (executeWithRetry Examples.flaky "a"%string) (Examples.fresh O)
    = (Fulfilled "ok a"%string, m') /\
    trace m' = trace (Examples.fresh O)
               ++ retries Examples.flaky "a"%string ["down"; "down"]%string 0
               ++ [EvExec "a"%string (inl "ok a"%string)] /\
    count is_onError (trace m') = (count is_onError (trace (Examples.fresh O)) + 2)%nat /\
    count is_exec (trace m') = (count is_exec (trace (Examples.fresh O)) + 3)%nat.
Proof.
  assert (H1 : Z.of_nat (length ["down"; "down"]%string)
               < maxRetries (config Examples.flaky)) by (vm_compute; reflexivity).
  assert (H2 : fails_then_succeeds Examples.flaky "a"%string
                 ["down"; "down"]%string 0 (world (Examples.fresh O)) "ok a"%string).
  { simpl. eexists _, _. split; [reflexivity|]. split; [reflexivity|].
    eexists _, _. split; [reflexivity|]. split; reflexivity. }
  split; [exact H1|]. split; [exact H2|].
  exact (retry_until_success Examples.flaky "a"%string ["down"; "down"]%string
           "ok a"%string (Examples.fresh O) H1 H2).
Defined.

(** C2 as stated fails: the [exec] of [flaky_loud] fails twice and then
    returns, with three attempts allowed, but [onError] throws when it is told
    of the first failure; [executeWithRetry] is rejected with the failure of
    [onError] after one call of [exec] and one call of [onError]. *)
Lemma throwing_onError_ends_the_retries :
  exec Examples.flaky_loud "a"%string O = (inr "down"%string, 1%nat) /\
  exec Examples.flaky_loud "a"%string 1%nat = (inr "down"%string, 2%nat) /\
  exec Examples.flaky_loud "a"%string 2%nat = (inl "ok a"%string, 3%nat) /\
  Z.of_nat 2 < maxRetries (config Examples.flaky_loud) /\
  interp Examples.flaky_loud (executeWithRetry Examples.flaky_loud "a"%string)
    (Examples.fresh O)
  = (Rejected (Thrown "logger down"%string),
     {| world := 1%nat;
        trace := [EvExec "a"%string (inr "down"%string);
                  EvOnErrorThrew (Thrown "down"%string) 1 3 "logger down"%string];
        prepItems := []; execResults := [] |}).
Proof.
  split; [reflexivity|]. split; [reflexivity|]. split; [reflexivity|].
  split; [vm_compute; reflexivity | reflexivity].
Qed.

Section RetryOutcome.

Context {W G Item Res E : Type}.
Variable node : Node W G Item Res E.
Variable item : Item.

Lemma attempts_outcome :
  forall remaining attempt m,
    (1 <= remaining)%nat ->
    Z.of_nat remaining = maxRetries (config node) - attempt ->
    exists o m' added,
      interp node (attempts node item remaining attempt) m = (o, m') /\
      trace m' = trace m ++ added /\
      (1 <= count is_exec added <= remaining)%nat /\
      ((exists v t, o = Fulfilled v /\ added = t ++ [EvExec item (inl v)]) \/
       (exists v error t,
           o = Fulfilled v /\ added = t ++ [EvExecFallback item error (inl v)]) \/
       (exists e t,
           o = Rejected (Thrown e) /\ added = t ++ [EvExec item (inr e)] /\
           count is_exec added = remaining) \/
       (exists e error t,
           o = Rejected (Thrown e) /\ added = t ++ [EvExecFallback item error (inr e)]) \/
       thrown_by_onError node item o added).
Proof.
  induction remaining as [|remaining IH]; intros attempt m Hpos Hrem; [lia|].
  simpl. destruct (exec node item (world m)) as [[v|e] w] eqn:Hexec; simpl.
  - (* the attempt succeeds *)
    eexists _, _, [EvExec item (inl v)]. split; [reflexivity|].
    split; [reflexivity|]. split; [simpl; lia|].
    left. exists v, []. split; reflexivity.
  - destruct (Z.eqb_spec attempt (maxRetries (config node) - 1)) as [Hlast|Hmore].
    + (* the last attempt fails *)
      assert (remaining = O) by lia. subst remaining.
      destruct (execFallback node) as [fallback|] eqn:Hfb; simpl.
      * rewrite Hfb. simpl.
        destruct (fallback item (Thrown e) w) as [[v|e'] w'] eqn:Hcall; simpl.
        -- eexists _, _, [EvExec item (inr e); EvExecFallback item (Thrown e) (inl v)].
           split; [reflexivity|]. split; [simpl; by rewrite <- app_assoc|].
           split; [simpl; lia|].
           right; left. exists v, (Thrown e), [EvExec item (inr e)].
           split; reflexivity.
        -- eexists _, _, [EvExec item (inr e); EvExecFallback item (Thrown e) (inr e')].
           split; [reflexivity|]. split; [simpl; by rewrite <- app_assoc|].
           split; [simpl; lia|].
           right; right; right; left. exists e', (Thrown e), [EvExec item (inr e)].
           split; reflexivity.
      * eexists _, _, [EvExec item (inr e)].
        split; [reflexivity|]. split; [reflexivity|]. split; [simpl; lia|].
        right; right; left. exists e, []. repeat split; reflexivity.
    + (* an earlier attempt fails: onError, the sleep, and the next attempt *)
      simpl.
      destruct (onError node (Thrown e) (attempt + 1) (maxRetries (config node)) w)
        as [[[]|e1] w1] eqn:Hreport; simpl.
      * match goal with
        | |- context [interp _ (attempts _ _ _ _) ?m1] =>
            destruct (IH (attempt + 1) m1)
              as (o & m' & added & Hrun & Htr & Hcnt & Hout); [lia | lia |]
        end.
        exists o, m',
          (EvExec item (inr e)
           :: EvOnError (Thrown e) (attempt + 1) (maxRetries (config node))
           :: EvSetTimeout (Z.max (retryDelay (config node)) 0) :: added).
        split; [exact Hrun|].
        split; [rewrite Htr; simpl; by rewrite <- !app_assoc|].
        split; [simpl; lia|].
        destruct Hout as [(v & t & -> & ->) | [(v & err & t & -> & ->) |
                          [(e' & t & -> & -> & Hn) | [(e' & err & t & -> & ->) |
                           (e' & err & a & t & -> & ->)]]]].
        -- left. eexists v, (_ :: _ :: _ :: t). split; reflexivity.
        -- right; left. eexists v, err, (_ :: _ :: _ :: t). split; reflexivity.
        -- right; right; left. eexists e', (_ :: _ :: _ :: t).
           split; [reflexivity|]. split; [reflexivity|]. simpl. lia.
        -- right; right; right; left. eexists e', err, (_ :: _ :: _ :: t).
           split; reflexivity.
        -- right; right; right; right. eexists e', err, a, (_ :: _ :: _ :: t).
           split; reflexivity.
      * (* [onError] throws: the loop is left *)
        eexists _, _,
          [EvExec item (inr e);
           EvOnErrorThrew (Thrown e) (attempt + 1) (maxRetries (config node)) e1].
        split; [reflexivity|]. split; [simpl; by rewrite <- app_assoc|].
        split; [simpl; lia|].
        right; right; right; right. exists e1, e, (attempt + 1), [].
        split; reflexivity.
Qed.

(** C8, amended.  With [maxRetries] at least 1, [executeWithRetry] never
    reaches [throw new Error('Unreachable')]: it calls [exec] at least once
    and at most [maxRetries] times, and it either returns the value of an
    [exec] or of [execFallback], or throws again the failure of the last
    attempt, or throws what [execFallback] threw, or throws what [onError]
    threw when it was told of a failed attempt. *)
Theorem unreachable_is_unreachable (m : Mem W Item Res E) :
  1 <= maxRetries (config node) ->
  exists o m' added,
    interp node (executeWithRetry node item) m = (o, m') /\
    trace m' = trace m ++ added /\
    o <> Rejected ErrorUnreachable /\
    1 <= Z.of_nat (count is_exec added) <= maxRetries (config node) /\
    (returned_by_exec item o added \/ returned_by_fallback item o added \/
     rethrown_from_last_attempt node item o added \/ thrown_by_fallback item o added \/
     thrown_by_onError node item o added).
Proof.
  intros Hmax.
  destruct (attempts_outcome (Z.to_nat (maxRetries (config node))) 0 m)
    as (o & m' & added & Hrun & Htr & Hcnt & Hout); [lia | lia |].
  exists o, m', added. split; [exact Hrun|]. split; [exact Htr|].
  split.
  { destruct Hout as [(v & t & -> & _) | [(v & err & t & -> & _) |
                      [(e' & t & -> & _) | [(e' & err & t & -> & _) |
                       (e' & err & a & t & -> & _)]]]]; discriminate. }
  split; [lia|].
  destruct Hout as [H | [H | [(e' & t & Ho & Ha & Hn) | [H | H]]]].
  - left. exact H.
  - right; left. exact H.
  - right; right; left. exists e', t. split; [exact Ho|]. split; [exact Ha|]. lia.
  - right; right; right; left. exact H.
  - right; right; right; right. exact H.
Qed.

End RetryOutcome.

(** On [brittle], with the default three attempts. *)
Lemma unreachable_is_unreachable_witness :
  1 <= maxRetries (config Examples.brittle) /\
  exists o m' added,
    interp Examples.brittle (executeWithRetry Examples.brittle "a"%string)
      (Examples.fresh tt) = (o, m') /\
    trace m' = trace (Examples.fresh tt) ++ added /\
    o <> Rejected ErrorUnreachable /\
    1 <= Z.of_nat (count is_exec added) <= maxRetries (config Examples.brittle) /\
    (returned_by_exec "a"%string o added \/ returned_by_fallback "a"%string o added \/
     rethrown_from_last_attempt Examples.brittle "a"%string o added \/
     thrown_by_fallback "a"%string o added \/
     thrown_by_onError Examples.brittle "a"%string o added).
Proof.
  assert (H : 1 <= maxRetries (config Examples.brittle)) by (vm_compute; discriminate).
  split; [exact H|].
  exact (unreachable_is_unreachable Examples.brittle "a"%string (Examples.fresh tt) H).
Defined.

(** C8 as stated fails: when the last attempt fails and [execFallback] throws
    too, the call ends with the failure of [execFallback], which is neither a
    returned value nor the failure of the last attempt.  And when [onError]
    throws, as that of [flaky_loud] does, the call ends with the failure of
    [onError], after the first attempt. *)
Lemma fallback_failure_is_a_fourth_outcome :
  1 <= maxRetries (config Examples.brittle) /\
  fst (interp Examples.brittle (executeWithRetry Examples.brittle "a"%string)
         (Examples.fresh tt)) = Rejected (Thrown "fallback boom"%string) /\
  ~ returns_or_rethrows Examples.brittle "a"%string (Examples.fresh tt) /\
  1 <= maxRetries (config Examples.flaky_loud) /\
  fst (interp Examples.flaky_loud (executeWithRetry Examples.flaky_loud "a"%string)
         (Examples.fresh O)) = Rejected (Thrown "logger down"%string) /\
  ~ returns_or_rethrows Examples.flaky_loud "a"%string (Examples.fresh O).
Proof.
  split; [vm_compute; discriminate|]. split; [reflexivity|].
  split; [|split; [vm_compute; discriminate|]; split; [reflexivity|]].
  - intros (added & Htr & Hout). cbv zeta in Hout.
    vm_compute in Htr. subst added.
    destruct Hout as [(v & t & Ho & _) | [(v & err & t & Ho & _) | (e & t & Ho & Ha & _)]].
    + vm_compute in Ho. discriminate.
    + vm_compute in Ho. discriminate.
    + apply (f_equal last) in Ha. rewrite last_snoc in Ha.
      vm_compute in Ha. discriminate.
  - intros (added & Htr & Hout). cbv zeta in Hout.
    vm_compute in Htr. subst added.
    destruct Hout as [(v & t & Ho & _) | [(v & err & t & Ho & _) | (e & t & Ho & Ha & _)]].
    + vm_compute in Ho. discriminate.
    + vm_compute in Ho. discriminate.
    + apply (f_equal last) in Ha. rewrite last_snoc in Ha.
      vm_compute in Ha. discriminate.
Qed.

(** ** The machine *)

Section Machine.

Context {W G Item Res E : Type}.
Variable nodes : NodeRef -> Node W G Item Res E.

Implicit Types c : Cycle W G Item Res E.
Implicit Types st : Status W G Item Res E.
Implicit Types m : Mem W Item Res E.

Lemma schedule_settled sched st :
  (forall c, st <> Running c) -> schedule nodes sched st = st.
Proof.
  destruct sched as [|ch sched], st as [c0| |]; intros H; try reflexivity.
  by destruct (H c0).
Qed.

Lemma schedule_app sched1 sched2 st :
  schedule nodes (sched1 ++ sched2) st
  = schedule nodes sched2 (schedule nodes sched1 st).
Proof.
  revert st; induction sched1 as [|ch sched1 IH]; intros st; simpl.
  - by destruct sched2, st.
  - destruct st; [apply IH | |]; by rewrite schedule_settled.
Qed.

(** What holds at the start and is kept by every step holds all along. *)
Lemma schedule_invariant (Inv : Status W G Item Res E -> Prop) :
  (forall c ch, Inv (Running c) -> Inv (step nodes ch c)) ->
  forall sched st, Inv st -> Inv (schedule nodes sched st).
Proof.
  intros Hstep. induction sched as [|ch sched IH]; intros st Hs; simpl.
  - by destruct st.
  - destruct st; [apply IH, Hstep, Hs | exact Hs | exact Hs].
Qed.

(** *** What a call leaves in the memory *)

Lemma yielded_quiet (t l : list (Event Item Res E)) :
  forallb quiet_event l = true -> yielded (t ++ l) = yielded t.
Proof.
  unfold yielded. rewrite foldl_app. generalize (foldl
    (fun n ev => match ev with
                 | EvPrep _ => O | EvNext _ (Some _) => S n | _ => n end) O t).
  induction l as [|ev l IH]; intros n Hq; simpl in *; [reflexivity|].
  apply andb_prop in Hq as [Hev Hl]. rewrite IH by exact Hl.
  destruct ev; simpl in Hev; try discriminate; reflexivity.
Qed.

Lemma perform_trace (n : Node W G Item Res E) {X} (c : Call Item Res E X) m :
  exists l, trace (snd (perform n c m)) = trace m ++ l /\ forallb quiet_event l = true.
Proof.
  destruct c; simpl.
  - exists []. by rewrite app_nil_r.
  - destruct (exec n item (world m)) as [r w]. simpl. by eexists [_].
  - destruct (execFallback n) as [fb|]; simpl.
    + destruct (fb item error (world m)) as [r w]. simpl. by eexists [_].
    + exists []. by rewrite app_nil_r.
  - destruct (onError _ _ _ _ _) as [[[]|e] w]; simpl;
      by eexists [_].
  - by eexists [_].
  - exists []. by rewrite app_nil_r.
  - exists []. by rewrite app_nil_r.
Qed.

Lemma advance_trace (n : Node W G Item Res E) {A} (p : Prog Item Res E A) :
  forall m, exists l,
    trace (snd (advance n p m)) = trace m ++ l /\ forallb quiet_event l = true.
Proof.
  induction p as [a|e|X c k IH]; intros m; simpl;
    try (exists []; by rewrite app_nil_r).
  destruct (is_async c); [exists []; by rewrite app_nil_r|].
  destruct (perform_trace n c m) as (l1 & H1 & Hq1).
  destruct (perform n c m) as [o m1]. simpl in H1.
  destruct (IH o m1) as (l2 & H2 & Hq2).
  exists (l1 ++ l2). rewrite H2, H1, app_assoc. split; [reflexivity|].
  rewrite forallb_app, Hq1, Hq2. reflexivity.
Qed.

Lemma resume_trace (n : Node W G Item Res E) {A} (p : Prog Item Res E A) m :
  exists l,
    trace (snd (resume n p m)) = trace m ++ l /\ forallb quiet_event l = true.
Proof.
  destruct p as [a|e|X c k]; simpl; try (exists []; by rewrite app_nil_r).
  destruct (perform_trace n c m) as (l1 & H1 & Hq1).
  destruct (perform n c m) as [o m1]. simpl in H1.
  destruct (advance_trace n (k o) m1) as (l2 & H2 & Hq2).
  exists (l1 ++ l2). rewrite H2, H1, app_assoc. split; [reflexivity|].
  rewrite forallb_app, Hq1, Hq2. reflexivity.
Qed.

(** *** The stages of a pipeline *)

Lemma perform_arrays (n : Node W G Item Res E) {X} (c : Call Item Res E X) m :
  is_push c = false ->
  prepItems (snd (perform n c m)) = prepItems m /\
  execResults (snd (perform n c m)) = execResults m.
Proof.
  destruct c; simpl; intros Hc; try discriminate; try (split; reflexivity).
  - destruct (exec n item (world m)) as [r w]. split; reflexivity.
  - destruct (execFallback n) as [fb|]; [|split; reflexivity].
    destruct (fb item error (world m)) as [r w]. split; reflexivity.
  - destruct (onError _ _ _ _ _) as [r w].
    split; reflexivity.
Qed.

Lemma advance_stage (n : Node W G Item Res E) (s : Stage) (p : Prog Item Res E unit) :
  at_stage s p ->
  forall m, exists s',
    at_stage s' (fst (advance n p m)) /\ grown s s' m (snd (advance n p m)).
Proof.
  induction 1 as [|s e Hs|s X c k Hs Hc Hk IH|v k Hk IH|v k Hk]; intros m.
  - exists ResultPushed. split; [constructor|]. split; reflexivity.
  - exists s. split; [by constructor|]. split; reflexivity.
  - simpl. destruct (is_async c).
    + exists s. split; [by constructor|]. split; reflexivity.
    + destruct (perform_arrays n c m Hc) as [Hi Hr].
      destruct (perform n c m) as [o m1]. simpl in Hi, Hr.
      destruct (IH o m1) as (s' & Hs' & Hg1 & Hg2).
      exists s'. split; [exact Hs'|]. split; [rewrite <- Hi | rewrite <- Hr]; assumption.
  - simpl.
    match goal with
    | |- context [advance n _ ?m1] => destruct (IH m1) as (s' & Hs' & Hg1 & Hg2)
    end.
    exists s'. split; [exact Hs'|].
    simpl in Hg1, Hg2. rewrite length_app in Hg1. simpl in Hg1.
    split; simpl; [lia | exact Hg2].
  - simpl. rewrite Hk. simpl. exists ResultPushed. split; [constructor|].
    split; simpl; [lia|]. rewrite length_app. simpl. lia.
Qed.

Lemma resume_stage (n : Node W G Item Res E) (s : Stage) (p : Prog Item Res E unit) m :
  at_stage s p ->
  exists s', at_stage s' (fst (resume n p m)) /\ grown s s' m (snd (resume n p m)).
Proof.
  intros Hp. destruct Hp as [|s e Hs|s X c k Hs Hc Hk|v k Hk|v k Hk].
  - exists ResultPushed. split; [constructor|]. split; reflexivity.
  - exists s. split; [by constructor|]. split; reflexivity.
  - simpl. destruct (perform_arrays n c m Hc) as [Hi Hr].
    destruct (perform n c m) as [o m1]. simpl in Hi, Hr.
    destruct (advance_stage n s (k o) (Hk o) m1) as (s' & Hs' & Hg1 & Hg2).
    exists s'. split; [exact Hs'|]. split; [rewrite <- Hi | rewrite <- Hr]; assumption.
  - simpl.
    match goal with
    | |- context [advance n _ ?m1] =>
        destruct (advance_stage n _ _ Hk m1) as (s' & Hs' & Hg1 & Hg2)
    end.
    exists s'. split; [exact Hs'|].
    simpl in Hg1, Hg2. rewrite length_app in Hg1. simpl in Hg1.
    split; simpl; [lia | exact Hg2].
  - simpl. rewrite Hk. simpl. exists ResultPushed. split; [constructor|].
    split; simpl; [lia|]. rewrite length_app. simpl. lia.
Qed.

Lemma attempts_stage (n : Node W G Item Res E) item (f : Res -> Prog Item Res E unit) :
  (forall v, at_stage ItemPushed (f v)) ->
  forall remaining attempt,
    at_stage ItemPushed (bind (attempts n item remaining attempt) f).
Proof.
  intros Hf. induction remaining as [|remaining IH]; intros attempt; simpl.
  - by constructor.
  - apply stage_call; [done | done |]. intros [v|e]; simpl; [apply Hf|].
    destruct (attempt =? maxRetries (config n) - 1).
    + destruct (execFallback n); simpl; [|by constructor].
      apply stage_call; [done | done |]. intros [v|e']; simpl; [apply Hf | by constructor].
    + simpl. apply stage_call; [done | done |].
      intros [[]|e']; simpl; [|by constructor].
      apply stage_call; [done | done |].
      intros [[]|e']; simpl; [apply IH | by constructor].
Qed.

Lemma pipeline_stage (n : Node W G Item Res E) item :
  at_stage Launched (pipeline n item).
Proof.
  unfold pipeline. simpl. apply stage_call; [done | done |].
  intros [v|e]; simpl; [|by constructor].
  apply stage_push_item. simpl.
  apply stage_call; [done | done |].
  intros [v'|e]; simpl; [|by constructor].
  apply attempts_stage. intros r. simpl. by apply stage_push_result.
Qed.

(** *** Every cycle is tidy *)

Lemma sum_insert (f : Stage -> nat) (stages : list Stage) i (s s' : Stage) :
  stages !! i = Some s ->
  (sum_list_with f (<[i:=s']> stages) + f s = sum_list_with f stages + f s')%nat.
Proof.
  revert i; induction stages as [|x stages IH]; intros [|i] Hi; simpl in *;
    try discriminate.
  - injection Hi as ->. lia.
  - specialize (IH i Hi). lia.
Qed.

Lemma sum_snoc (f : Stage -> nat) (stages : list Stage) (s : Stage) :
  sum_list_with f (stages ++ [s]) = (sum_list_with f stages + f s)%nat.
Proof. rewrite sum_list_with_app. simpl. lia. Qed.

Lemma yielded_snoc (t : list (Event Item Res E)) ev :
  yielded (t ++ [ev]) =
  match ev with
  | EvPrep _ => O
  | EvNext _ (Some _) => S (yielded t)
  | _ => yielded t
  end.
Proof. unfold yielded. rewrite foldl_app. reflexivity. Qed.

Lemma tidy_start r w t : tidy_status (start nodes r w t).
Proof.
  exists []. simpl. split; [constructor|]. split; [reflexivity|].
  split; [reflexivity|]. by rewrite yielded_snoc.
Qed.

Lemma tidy_route n action w t : tidy_status (route nodes n action w t).
Proof.
  unfold route. destruct action; try exact I;
    (destruct (truthy _); [|exact I]);
    (destruct (js_or _ _) as [a|r]; [exact I | apply tidy_start]).
Qed.

Lemma tidy_aggregate c : tidy_status (aggregate nodes c).
Proof.
  unfold aggregate. destruct (post _ _ _ _) as [[action|e] w];
    [apply tidy_route | exact I].
Qed.

Lemma tidy_step c ch : tidy c -> tidy_status (step nodes ch c).
Proof.
  intros (stages & Hst & Hitems & Hresults & Hyield).
  unfold step. destruct ch as [|i|].
  - (* generator.next(..) settles *)
    destruct (driver c) as [g|rej] eqn:Hd; [|by exists stages].
    destruct (gen_next _ g _) as [[value g'| |e] w]; [| |exact I].
    + pose proof (advance_stage (nodes (node c)) Launched _
                    (pipeline_stage (nodes (node c)) (item_promise value))
                    (log (EvNext (node c) (Some value)) w (mem c)))
        as (s' & Hs' & Hg1 & Hg2).
      pose proof (advance_trace (nodes (node c))
                    (pipeline (nodes (node c)) (item_promise value))
                    (log (EvNext (node c) (Some value)) w (mem c)))
        as (l & Hl & Hq).
      destruct (advance _ _ _) as [p m']. simpl in *.
      exists (stages ++ [s']). simpl. split; [by apply Forall2_app; [|constructor]|].
      rewrite !sum_snoc, length_app. simpl.
      split; [lia|]. split; [lia|].
      rewrite Hl, yielded_quiet, yielded_snoc by exact Hq. lia.
    + exists stages. simpl. rewrite yielded_snoc. done.
  - (* the call that pipeline [i] awaits settles *)
    destruct (execPromises c !! i) as [p|] eqn:Hp; [|by exists stages].
    destruct (Forall2_lookup_r _ _ _ _ _ Hst Hp) as (s & Hs & Hsp).
    destruct (resume_stage (nodes (node c)) s p (mem c) Hsp) as (s' & Hs' & Hg1 & Hg2).
    destruct (resume_trace (nodes (node c)) p (mem c)) as (l & Hl & Hq).
    destruct (resume _ p _) as [p' m']. simpl in *.
    exists (<[i:=s']> stages). simpl.
    split; [by apply Forall2_insert|].
    pose proof (sum_insert items_of stages i s s' Hs).
    pose proof (sum_insert results_of stages i s s' Hs).
    split; [lia|]. split; [lia|].
    rewrite length_insert, Hl, yielded_quiet by exact Hq. exact Hyield.
  - (* Promise.all settles *)
    destruct (driver c) as [g|[e|]]; [by exists stages | exact I |].
    destruct (forallb _ _); [apply tidy_aggregate | by exists stages].
Qed.

Lemma tidy_run sched r w : tidy_status (run nodes sched r w).
Proof.
  unfold run. apply (schedule_invariant tidy_status).
  - intros c ch Hc. by apply tidy_step.
  - apply tidy_start.
Qed.

(** When every pipeline is fulfilled, each has pushed its item and its
    result. *)
Lemma tidy_fulfilled c :
  tidy c -> forallb is_fulfilled (execPromises c) = true ->
  Forall (fun p => p = Ret tt) (execPromises c) /\
  length (prepItems (mem c)) = yielded (trace (mem c)) /\
  length (execResults (mem c)) = yielded (trace (mem c)).
Proof.
  intros (stages & Hst & Hitems & Hresults & Hyield) Hall.
  rewrite <- Hyield, Hitems, Hresults. clear Hitems Hresults Hyield.
  induction Hst as [|s p stages ps Hsp Hst IH]; simpl in *; [done|].
  apply andb_prop in Hall as [Hp Hall]. destruct (IH Hall) as (IH1 & IH2 & IH3).
  destruct Hsp; simpl in Hp; try discriminate.
  split; [by constructor|]. simpl. lia.
Qed.

(** *** What a step adds to the trace *)

Lemma quiet_count (l : list (Event Item Res E)) :
  forallb quiet_event l = true -> count is_post l = O /\ count is_prep l = O.
Proof.
  induction l as [|ev l IH]; simpl; [done|]. intros Hq.
  apply andb_prop in Hq as [Hev Hl]. destruct (IH Hl) as [IH1 IH2].
  destruct ev; simpl in *; try discriminate; done.
Qed.

Lemma count_elem (f : Event Item Res E -> bool) l ev :
  ev ∈ l -> f ev = true -> (0 < count f l)%nat.
Proof.
  induction 1 as [ev l|ev ev' l Hin IH]; intros Hf; simpl.
  - rewrite Hf. lia.
  - specialize (IH Hf). destruct (f ev'); lia.
Qed.

Lemma route_trace n action w t :
  exists rest, status_trace (route nodes n action w t) = t ++ rest /\
    count is_post rest = O.
Proof.
  assert (Hstay : exists rest : list (Event Item Res E),
             t = t ++ rest /\ count is_post rest = O)
    by (exists []; by rewrite app_nil_r).
  unfold route. destruct action; try exact Hstay;
    (destruct (truthy _); [|exact Hstay]);
    (destruct (js_or _ _) as [a|r]; [exact Hstay|]);
    by eexists [_].
Qed.

Lemma step_added c ch :
  exists added,
    status_trace (step nodes ch c) = trace (mem c) ++ added /\
    ((count is_post added = O /\ count is_prep added = O) \/
     (ch = Join /\ driver c = AtAll None /\
      forallb is_fulfilled (execPromises c) = true /\
      exists res rest,
        added = EvPost (node c) (prepItems (mem c)) (execResults (mem c)) res :: rest /\
        count is_post rest = O)).
Proof.
  assert (Hstay : exists added : list (Event Item Res E),
             trace (mem c) = trace (mem c) ++ added /\
             ((count is_post added = O /\ count is_prep added = O) \/
              (ch = Join /\ driver c = AtAll None /\
               forallb is_fulfilled (execPromises c) = true /\
               exists res rest,
                 added = EvPost (node c) (prepItems (mem c))
                           (execResults (mem c)) res :: rest /\
                 count is_post rest = O)))
    by (exists []; rewrite app_nil_r; by split; [|left]).
  unfold step. destruct ch as [|i|].
  - destruct (driver c) as [g|rej]; [|exact Hstay].
    destruct (gen_next _ g _) as [[value g'| |e] w].
    + pose proof (advance_trace (nodes (node c))
                    (pipeline (nodes (node c)) (item_promise value))
                    (log (EvNext (node c) (Some value)) w (mem c)))
        as (l & Hl & Hq).
      destruct (advance _ _ _) as [p m']. simpl in *.
      exists (EvNext (node c) (Some value) :: l).
      split; [by rewrite Hl, <- app_assoc|].
      left. simpl. by apply quiet_count.
    + eexists [_]. split; [reflexivity|by left].
    + eexists [_]. split; [reflexivity|by left].
  - destruct (execPromises c !! i) as [p|]; [|exact Hstay].
    destruct (resume_trace (nodes (node c)) p (mem c)) as (l & Hl & Hq).
    destruct (resume _ p _) as [p' m']. simpl in *.
    exists l. split; [exact Hl|]. left. by apply quiet_count.
  - destruct (driver c) as [g|[e|]] eqn:Hd; [exact Hstay| |].
    { exists []. rewrite app_nil_r. by split; [|left]. }
    destruct (forallb _ _) eqn:Hall; [|exact Hstay].
    unfold aggregate.
    destruct (post _ _ _ _) as [[action|e] w].
    + destruct (route_trace (nodes (node c)) action w
                  (trace (mem c) ++
                   [EvPost (node c) (prepItems (mem c)) (execResults (mem c))
                      (inl action)])) as (rest & Hrest & Hcount).
      eexists (_ :: rest). split; [by rewrite Hrest, <- app_assoc|].
      right. do 3 (split; [reflexivity|]). by eexists _, rest.
    + eexists [_]. split; [reflexivity|].
      right. do 3 (split; [reflexivity|]). by eexists _, [].
Qed.

End Machine.

Section JoinBarrier.

Context {W G Item Res E : Type}.
Variable nodes : NodeRef -> Node W G Item Res E.

(** C6. In any run, a step that calls [post] is the continuation of
    [await Promise.all(execPromises)]; at that point every pipeline the cycle
    has launched is fulfilled, and the arrays [post] is called with are
    [prepItems] and [execResults], each as long as the number of items that
    [prep] has yielded in this cycle. *)
Theorem join_barrier sched r w c ch added r' items results res :
  run nodes sched r w = Running c ->
  status_trace (step nodes ch c) = trace (mem c) ++ added ->
  EvPost r' items results res ∈ added ->
  ch = Join /\
  Forall (fun p => p = Ret tt) (execPromises c) /\
  items = prepItems (mem c) /\
  results = execResults (mem c) /\
  length (execPromises c) = yielded (trace (mem c)) /\
  length results = yielded (trace (mem c)) /\
  length items = yielded (trace (mem c)).
Proof.
  intros Hrun Hadded Hin.
  pose proof (tidy_run nodes sched r w) as Htidy. rewrite Hrun in Htidy.
  destruct (step_added nodes c ch) as (added' & Htr & Hcase).
  rewrite Htr in Hadded. apply app_inv_head in Hadded. subst added'.
  destruct Hcase as [[Hnone _] | (-> & Hd & Hall & res' & rest & -> & Hrest)].
  { pose proof (count_elem is_post _ _ Hin eq_refl). lia. }
  apply elem_of_cons in Hin as [Heq | Hin];
    [|pose proof (count_elem is_post _ _ Hin eq_refl); lia].
  injection Heq as -> -> -> ->.
  destruct (tidy_fulfilled c Htidy Hall) as (Hps & Hi & Hr).
  destruct Htidy as (stages & _ & _ & _ & Hy).
  done.
Qed.

End JoinBarrier.

Section Routing.

Context {W G Item Res E : Type}.
Variable nodes : NodeRef -> Node W G Item Res E.
Variable n : Node W G Item Res E.

Implicit Types w : W.
Implicit Types t : list (Event Item Res E).

Lemma getEdge_node action target :
  edges n !! (inl action : Value) = Some (VNode target) ->
  getEdge n action = VNode target.
Proof. unfold getEdge. by intros ->. Qed.

Lemma getEdge_missing action :
  edges n !! (inl action : Value) = None -> getEdge n action = undefined.
Proof. unfold getEdge. by intros ->. Qed.

(** C5. After [post] has returned: [KILL] ends the traversal whatever the
    edges; [undefined] and [null] are routed as the string 'default' is; a
    string with an edge to a node goes to that node; a string without an edge
    is routed as 'default' is; and with no edge for the action and none for
    'default', the traversal ends, and [run] returns. *)
Theorem routing w t :
  route nodes n KILL w t = Returned w t /\
  route nodes n AUndefined w t = route nodes n (AString "default") w t /\
  route nodes n ANull w t = route nodes n (AString "default") w t /\
  (forall s target,
      edges n !! VString s = Some (VNode target) ->
      route nodes n (AString s) w t = start nodes target w t) /\
  (forall s,
      edges n !! VString s = None ->
      route nodes n (AString s) w t = route nodes n (AString "default") w t) /\
  (forall action,
      edges n !! (inl (nullish_or action (AString "default")) : Value) = None ->
      edges n !! VString "default" = None ->
      route nodes n action w t = Returned w t).
Proof.
  split; [reflexivity|]. split; [reflexivity|]. split; [reflexivity|].
  split; [|split].
  - intros s target Hedge. unfold route. simpl.
    rewrite (getEdge_node (AString s) target Hedge). reflexivity.
  - intros s Hedge. unfold route. simpl.
    rewrite (getEdge_missing (AString s) Hedge). unfold js_or. simpl.
    destruct (truthy (getEdge n (AString "default"))) eqn:Hd; rewrite Hd; reflexivity.
  - intros action Hedge Hdefault. unfold route.
    rewrite (getEdge_missing _ Hedge), (getEdge_missing _ Hdefault).
    by destruct action.
Qed.

(** C10. [connect(t)] is [connect('default', t)]: both leave [t] under the
    string key 'default', so that a [post] that returns the string 'default'
    goes to [t]; and each of the two calls overwrites what the other one
    stored. *)
Theorem connect_default target target' w t :
  connect (VNode target) None n = connect (VString "default") (Some target) n /\
  edges (connect (VNode target) None n) !! VString "default" = Some (VNode target) /\
  route nodes (connect (VNode target) None n) (AString "default") w t
  = start nodes target w t /\
  route nodes (connect (VNode target) None n) AUndefined w t
  = start nodes target w t /\
  connect (VNode target') None (connect (VString "default") (Some target) n)
  = connect (VNode target') None n /\
  connect (VString "default") (Some target) (connect (VNode target') None n)
  = connect (VString "default") (Some target) n.
Proof.
  assert (Hget : edges (connect (VNode target) None n) !! VString "default"
                 = Some (VNode target)) by apply lookup_insert_eq.
  split; [reflexivity|]. split; [exact Hget|].
  assert (Hroute : route nodes (connect (VNode target) None n) (AString "default") w t
                   = start nodes target w t).
  { unfold route, getEdge, VString in *. simpl nullish_or. rewrite Hget. reflexivity. }
  split; [exact Hroute|]. split; [exact Hroute|].
  unfold connect, with_edges. simpl. by rewrite !insert_insert_eq.
Qed.

End Routing.

Section EmptyCycle.

Context {W G Item Res E : Type}.
Variable nodes : NodeRef -> Node W G Item Res E.

(** A cycle without pipelines: until the generator has answered, and then
    until [Promise.all] has, nothing else can happen. *)
Lemma idle_before_pull (c : Cycle W G Item Res E) idle :
  execPromises c = [] -> (exists g, driver c = AtNext g) -> Pull ∉ idle ->
  schedule nodes idle (Running c) = Running c.
Proof.
  intros Hps [g Hd]. induction idle as [|ch idle IH]; intros Hidle; [reflexivity|].
  apply not_elem_of_cons in Hidle as [Hch Hidle]. simpl.
  assert (Hstep : step nodes ch c = Running c).
  { unfold step. rewrite Hd, Hps. by destruct ch. }
  rewrite Hstep. by apply IH.
Qed.

Lemma idle_before_join (c : Cycle W G Item Res E) idle :
  execPromises c = [] -> (exists rej, driver c = AtAll rej) -> Join ∉ idle ->
  schedule nodes idle (Running c) = Running c.
Proof.
  intros Hps [rej Hd]. induction idle as [|ch idle IH]; intros Hidle; [reflexivity|].
  apply not_elem_of_cons in Hidle as [Hch Hidle]. simpl.
  assert (Hstep : step nodes ch c = Running c).
  { unfold step. rewrite Hd, Hps. by destruct ch. }
  rewrite Hstep. by apply IH.
Qed.

(** C9. When the generator of [prep] is done at once, whatever the schedule
    the cycle is the answer of the generator followed by that of
    [Promise.all]: no pipeline is launched, nothing is called but [post], with
    two empty arrays, and the action [post] returns is routed by [route], as
    after any other cycle. *)
Theorem empty_cycle r w w' t idle1 idle2 :
  gen_next (nodes r) (prep (nodes r) w) w = (ItDone, w') ->
  Pull ∉ idle1 -> Join ∉ idle2 ->
  schedule nodes (idle1 ++ Pull :: idle2 ++ [Join]) (start nodes r w t) =
  let called :=
    t ++ [EvPrep r; EvNext r None; EvPost r [] [] (fst (post (nodes r) [] [] w'))] in
  match post (nodes r) [] [] w' with
  | (inl action, w'') => route nodes (nodes r) action w'' called
  | (inr e, w'') => Failed (Thrown e) w'' called
  end.
Proof.
  intros Hdone Hidle1 Hidle2. unfold start.
  rewrite schedule_app, idle_before_pull; [|reflexivity|by eexists|exact Hidle1].
  cbn [schedule]. unfold step at 1. simpl. rewrite Hdone.
  rewrite schedule_app, idle_before_join; [|reflexivity|by eexists|exact Hidle2].
  simpl. unfold step, aggregate. simpl.
  destruct (post (nodes r) [] [] w') as [[action|e] w'']; simpl;
    by rewrite <- !app_assoc.
Qed.

End EmptyCycle.

Section Timeout.

Context {W G Item Res E : Type}.

Lemma perform_retimed ms (n : Node W G Item Res E) {X} (c : Call Item Res E X) m :
  perform (retimed ms n) c m = perform n c m.
Proof. destruct c; reflexivity. Qed.

Lemma interp_retimed ms (n : Node W G Item Res E) {A} (p : Prog Item Res E A) :
  forall m, interp (retimed ms n) p m = interp n p m.
Proof.
  induction p as [a|e|X c k IH]; intros m; simpl; try reflexivity.
  rewrite perform_retimed. destruct (perform n c m) as [o m']. apply IH.
Qed.

Lemma advance_retimed ms (n : Node W G Item Res E) {A} (p : Prog Item Res E A) :
  forall m, advance (retimed ms n) p m = advance n p m.
Proof.
  induction p as [a|e|X c k IH]; intros m; simpl; try reflexivity.
  destruct (is_async c); [reflexivity|].
  rewrite perform_retimed. destruct (perform n c m) as [o m']. apply IH.
Qed.

Lemma resume_retimed ms (n : Node W G Item Res E) {A} (p : Prog Item Res E A) m :
  resume (retimed ms n) p m = resume n p m.
Proof.
  destruct p as [a|e|X c k]; simpl; try reflexivity.
  rewrite perform_retimed. destruct (perform n c m) as [o m'].
  apply advance_retimed.
Qed.

Lemma pipeline_retimed ms (n : Node W G Item Res E) item :
  pipeline (retimed ms n) item = pipeline n item.
Proof. reflexivity. Qed.

Variable nodes : NodeRef -> Node W G Item Res E.
Variable timeouts : NodeRef -> Z.

Lemma step_retimed ch c :
  step (fun r => retimed (timeouts r) (nodes r)) ch c = step nodes ch c.
Proof.
  unfold step. destruct ch as [|i|].
  - destruct (driver c) as [g|rej]; [|reflexivity].
    change (gen_next (retimed (timeouts (node c)) (nodes (node c))))
      with (gen_next (nodes (node c))).
    destruct (gen_next _ g _) as [[value g'| |e] w]; [|reflexivity|reflexivity].
    rewrite pipeline_retimed, advance_retimed. reflexivity.
  - destruct (execPromises c !! i) as [p|]; [|reflexivity].
    rewrite resume_retimed. reflexivity.
  - reflexivity.
Qed.

Lemma schedule_retimed sched st :
  schedule (fun r => retimed (timeouts r) (nodes r)) sched st = schedule nodes sched st.
Proof.
  revert st; induction sched as [|ch sched IH]; intros st; [reflexivity|].
  destruct st; [|reflexivity|reflexivity]. simpl. rewrite step_retimed. apply IH.
Qed.

(** C7. Replacing the [timeout] of every node by any other value changes
    nothing: [executeWithRetry] makes the same calls and ends the same way,
    and so does [run], under every schedule. *)
Theorem timeout_is_ignored :
  (forall r ms item m,
      interp (retimed ms (nodes r)) (executeWithRetry (retimed ms (nodes r)) item) m
      = interp (nodes r) (executeWithRetry (nodes r) item) m) /\
  (forall sched r w,
      run (fun r => retimed (timeouts r) (nodes r)) sched r w = run nodes sched r w).
Proof.
  split.
  - intros r ms item m. apply interp_retimed.
  - intros sched r w. unfold run. rewrite schedule_retimed. reflexivity.
Qed.

End Timeout.

(** ** How the pipelines of a node end *)

Section Endings.

Context {W G Item Res E : Type}.
Variable node : Node W G Item Res E.

Implicit Types m : Mem W Item Res E.
Implicit Types t : list (Event Item Res E).

Lemma perform_prefix {X} (c : Call Item Res E X) m :
  trace m `prefix_of` trace (snd (perform node c m)).
Proof. destruct (perform_trace node c m) as (l & -> & _). by exists l. Qed.

Lemma advance_prefix {A} (p : Prog Item Res E A) m :
  trace m `prefix_of` trace (snd (advance node p m)).
Proof. destruct (advance_trace node p m) as (l & -> & _). by exists l. Qed.

Lemma resume_prefix {A} (p : Prog Item Res E A) m :
  trace m `prefix_of` trace (snd (resume node p m)).
Proof. destruct (resume_trace node p m) as (l & -> & _). by exists l. Qed.

Lemma ends_in_later {A} (Q : list (Event Item Res E) -> Settled E A -> Prop)
    t (p : Prog Item Res E A) :
  lasting Q -> ends_in node Q t p ->
  forall t', t `prefix_of` t' -> ends_in node Q t' p.
Proof.
  intros HQ. induction 1 as [t a Ha|t e He|t X c k Hk IH]; intros t' Hpre.
  - constructor. by eapply HQ.
  - constructor. by eapply HQ.
  - constructor. intros m Hm. apply Hk. by etrans.
Qed.

Lemma ends_in_advance {A} (Q : list (Event Item Res E) -> Settled E A -> Prop)
    t (p : Prog Item Res E A) :
  lasting Q -> ends_in node Q t p ->
  forall m, t `prefix_of` trace m ->
    ends_in node Q (trace (snd (advance node p m))) (fst (advance node p m)).
Proof.
  intros HQ. induction 1 as [t a Ha|t e He|t X c k Hk IH]; intros m Hpre; simpl.
  - constructor. by eapply HQ.
  - constructor. by eapply HQ.
  - destruct (is_async c); simpl.
    + constructor. intros m' Hm'. apply Hk. by etrans.
    + specialize (IH m Hpre). destruct (perform node c m) as [o m1]. simpl in IH.
      by apply IH.
Qed.

Lemma ends_in_resume {A} (Q : list (Event Item Res E) -> Settled E A -> Prop)
    t (p : Prog Item Res E A) m :
  lasting Q -> ends_in node Q t p -> t `prefix_of` trace m ->
  ends_in node Q (trace (snd (resume node p m))) (fst (resume node p m)).
Proof.
  intros HQ [t0 a Ha|t0 e He|t0 X c k Hk] Hpre; simpl.
  - constructor. by eapply HQ.
  - constructor. by eapply HQ.
  - specialize (Hk m Hpre). destruct (perform node c m) as [o m1]. simpl in Hk.
    by apply (ends_in_advance Q _ _ HQ Hk).
Qed.

Lemma exec_failure_later t0 t t' e :
  t `prefix_of` t' -> exec_failure t0 t e -> exec_failure t0 t' e.
Proof.
  intros [l' ->] (e' & item & l & -> & -> & Hin). exists e', item, (l ++ l').
  split; [reflexivity|]. split; [by rewrite app_assoc|]. apply elem_of_app. by left.
Qed.

Lemma onError_failure_later t0 t t' e :
  t `prefix_of` t' -> onError_failure node t0 t e -> onError_failure node t0 t' e.
Proof.
  intros [l' ->] (e' & error & attempt & l & -> & -> & Hin & Hthrows).
  exists e', error, attempt, (l ++ l').
  split; [reflexivity|]. split; [by rewrite app_assoc|].
  split; [apply elem_of_app; by left | exact Hthrows].
Qed.

Lemma retry_failure_later t0 t t' e :
  t `prefix_of` t' ->
  exec_failure t0 t e \/ onError_failure node t0 t e ->
  exec_failure t0 t' e \/ onError_failure node t0 t' e.
Proof.
  intros Hpre [He | He]; [left | right].
  - by apply (exec_failure_later t0 t).
  - by apply (onError_failure_later t0 t).
Qed.

Lemma lasting_fails_in_retry t0 : lasting (fails_in_retry node t0).
Proof.
  intros t t' o Hpre (e & -> & He). exists e. split; [reflexivity|].
  by apply (retry_failure_later t0 t).
Qed.

Lemma lasting_is_done : lasting (@is_done Item Res E).
Proof. by intros t t' o _ H. Qed.

(** A pipeline of a node whose [exec] always fails and that has no
    [execFallback] ends with a failure of [exec], or with the failure of
    [onError] when it throws. *)
Lemma attempts_doomed t0 item (f : Res -> Prog Item Res E unit) :
  always_fails node -> execFallback node = None ->
  forall remaining attempt t,
    t0 `prefix_of` t ->
    (1 <= remaining)%nat ->
    Z.of_nat remaining = maxRetries (config node) - attempt ->
    ends_in node (fails_in_retry node t0) t
      (bind (attempts node item remaining attempt) f).
Proof.
  intros Hfails Hnone.
  induction remaining as [|remaining IH]; intros attempt t Ht Hpos Hrem; [lia|].
  simpl. constructor. intros m Hm. simpl.
  destruct (Hfails item (world m)) as [e He].
  destruct (exec node item (world m)) as [r w]. simpl in He. subst r. simpl.
  assert (Hm0 : t0 `prefix_of` trace m) by (by etrans).
  destruct (Z.eqb_spec attempt (maxRetries (config node) - 1)) as [Hlast|Hmore].
  - rewrite Hnone. simpl. constructor.
    exists (Thrown e). split; [reflexivity|]. left. destruct Hm0 as [l Hl].
    exists e, item, (l ++ [EvExec item (inr e)]).
    split; [reflexivity|]. split; [by rewrite Hl, app_assoc|].
    apply elem_of_app. right. apply list_elem_of_here.
  - simpl. constructor. intros m1 Hm1. simpl.
    destruct (onError node (Thrown e) (attempt + 1) (maxRetries (config node))
                (world m1)) as [[[]|e1] w1] eqn:Hreport; simpl.
    + constructor. intros m2 Hm2. simpl. apply IH; [|lia|lia].
      apply prefix_app_r. etrans; [|exact (prefix_app_l _ _ _ Hm2)].
      etrans; [exact Hm0|]. exact (prefix_app_l _ _ _ Hm1).
    + constructor. exists (Thrown e1). split; [reflexivity|]. right.
      assert (Hpre : t0 `prefix_of` trace m1).
      { etrans; [exact Hm0|]. exact (prefix_app_l _ _ _ Hm1). }
      destruct Hpre as [l Hl].
      exists e1, (Thrown e), (attempt + 1),
        (l ++ [EvOnErrorThrew (Thrown e) (attempt + 1) (maxRetries (config node)) e1]).
      split; [reflexivity|]. split; [by rewrite Hl, app_assoc|].
      split; [apply elem_of_app; right; apply list_elem_of_here|].
      exists (world m1). by rewrite Hreport.
Qed.

Lemma pipeline_doomed t0 v t :
  always_fails node -> execFallback node = None ->
  1 <= maxRetries (config node) ->
  t0 `prefix_of` t ->
  ends_in node (fails_in_retry node t0) t (pipeline node (Fulfilled v)).
Proof.
  intros Hfails Hnone Hmax Ht. unfold pipeline. simpl.
  constructor. intros m Hm. simpl.
  constructor. intros m1 Hm1. simpl.
  constructor. intros m2 Hm2. simpl.
  apply attempts_doomed; [done | done | | lia | lia].
  etrans; [exact Ht|]. etrans; [exact Hm|]. by etrans.
Qed.

(** A pipeline of a node whose [execFallback] and [onError] return is
    fulfilled. *)
Lemma attempts_safe item (f : Res -> Prog Item Res E unit) :
  fallback_returns node -> onError_returns node ->
  (forall v t, ends_in node is_done t (f v)) ->
  forall remaining attempt t,
    (1 <= remaining)%nat ->
    Z.of_nat remaining = maxRetries (config node) - attempt ->
    ends_in node is_done t (bind (attempts node item remaining attempt) f).
Proof.
  intros (fallback & Hfb & Hreturns) Hquiet Hf.
  induction remaining as [|remaining IH]; intros attempt t Hpos Hrem; [lia|].
  simpl. constructor. intros m _. simpl.
  destruct (exec node item (world m)) as [[v|e] w]; simpl; [apply Hf|].
  destruct (Z.eqb_spec attempt (maxRetries (config node) - 1)) as [Hlast|Hmore].
  - rewrite Hfb. simpl. constructor. intros m1 _. simpl. rewrite Hfb.
    destruct (Hreturns item (Thrown e) (world m1)) as [v Hv].
    destruct (fallback item (Thrown e) (world m1)) as [r' w']. simpl in Hv.
    subst r'. simpl. apply Hf.
  - simpl. constructor. intros m1 _. simpl.
    pose proof (Hquiet (Thrown e) (attempt + 1) (maxRetries (config node)) (world m1))
      as Hreport.
    destruct (onError node (Thrown e) (attempt + 1) (maxRetries (config node))
                (world m1)) as [report w1]. simpl in Hreport. subst report. simpl.
    constructor. intros m2 _. simpl. apply IH; lia.
Qed.

Lemma pipeline_safe v t :
  fallback_returns node -> onError_returns node ->
  1 <= maxRetries (config node) ->
  ends_in node is_done t (pipeline node (Fulfilled v)).
Proof.
  intros Hfb Hquiet Hmax. unfold pipeline. simpl.
  constructor. intros m _. simpl.
  constructor. intros m1 _. simpl.
  constructor. intros m2 _. simpl.
  apply attempts_safe; [done | done | | lia | lia].
  intros r t'. simpl. constructor. intros m3 _. simpl. by constructor.
Qed.

End Endings.

(** ** A cycle can always get to its join *)

Section Progress.

Context {W G Item Res E : Type}.
Variable nodes : NodeRef -> Node W G Item Res E.

Implicit Types c : Cycle W G Item Res E.

Lemma step_pull_yield c g value g' w :
  driver c = AtNext g ->
  gen_next (nodes (node c)) g (world (mem c)) = (ItYield value g', w) ->
  step nodes Pull c =
  let pm := advance (nodes (node c)) (pipeline (nodes (node c)) (item_promise value))
              (log (EvNext (node c) (Some value)) w (mem c)) in
  Running {| mem := snd pm; node := node c;
             execPromises := execPromises c ++ [fst pm];
             driver := AtNext g' |}.
Proof.
  intros Hd Hnext. unfold step. rewrite Hd, Hnext. cbv zeta.
  by destruct (advance _ _ _).
Qed.

Lemma step_pull_done c g w :
  driver c = AtNext g ->
  gen_next (nodes (node c)) g (world (mem c)) = (ItDone, w) ->
  step nodes Pull c =
  Running {| mem := log (EvNext (node c) None) w (mem c); node := node c;
             execPromises := execPromises c;
             driver := AtAll (first_rejection (execPromises c)) |}.
Proof. intros Hd Hnext. unfold step. by rewrite Hd, Hnext. Qed.

Lemma step_settle c i p :
  execPromises c !! i = Some p ->
  step nodes (Settle i) c =
  let pm := resume (nodes (node c)) p (mem c) in
  Running {| mem := snd pm; node := node c;
             execPromises := <[i := fst pm]> (execPromises c);
             driver := note_rejection (fst pm) (driver c) |}.
Proof.
  intros Hp. unfold step. rewrite Hp. cbv zeta.
  destruct (driver c); by destruct (resume _ _ _).
Qed.

(** The generator is pulled until it is done. *)
Lemma pull_all n g :
  produces n g ->
  forall c, driver c = AtNext g -> nodes (node c) = n ->
    exists k c',
      schedule nodes (replicate k Pull) (Running c) = Running c' /\
      node c' = node c /\ exists rej, driver c' = AtAll rej.
Proof.
  induction 1 as [g Hthrow Hitem Hrest IH]; intros c Hd Hn.
  destruct (gen_next n g (world (mem c))) as [[value g'| |e] w] eqn:Hnext.
  - rewrite <- Hn in Hnext.
    pose proof (step_pull_yield c g value g' w Hd Hnext) as Hstep. cbv zeta in Hstep.
    rewrite Hn in Hnext.
    edestruct (IH _ _ _ _ Hnext) as (k & c' & Hs & Hnode & Hrej);
      [| |exists (S k), c'; cbn [replicate schedule]; rewrite Hstep; split; [exact Hs|];
          split; [exact Hnode | exact Hrej]];
      [reflexivity | exact Hn].
  - rewrite <- Hn in Hnext.
    pose proof (step_pull_done c g w Hd Hnext) as Hstep.
    eexists 1%nat, _. cbn [replicate schedule]. rewrite Hstep. split; [reflexivity|].
    split; [reflexivity|]. by eexists.
  - by destruct (Hthrow _ _ _ Hnext).
Qed.

Lemma settles_after_step n c i p p' m' :
  nodes (node c) = n -> execPromises c !! i = Some p -> driver c = AtAll None ->
  resume n p (mem c) = (p', m') ->
  settles nodes n p' ->
  exists k c',
    schedule nodes (replicate k (Settle i)) (Running c) = Running c' /\
    node c' = node c /\
    length (execPromises c') = length (execPromises c) /\
    (forall j, j <> i -> execPromises c' !! j = execPromises c !! j) /\
    ((driver c' = AtAll None /\ execPromises c' !! i = Some (Ret tt)) \/
     exists e, driver c' = AtAll (Some e)).
Proof.
  intros Hn Hp Hd Hres Hsettles.
  pose proof (step_settle c i p Hp) as Hstep. cbv zeta in Hstep.
  rewrite Hn, Hres, Hd in Hstep. cbn [fst snd] in Hstep.
  assert (Hlt : (i < length (execPromises c))%nat) by (by eapply lookup_lt_Some).
  destruct p' as [[]|e|X c0 k0].
  - eexists 1%nat, _. cbn [replicate schedule]. rewrite Hstep. split; [reflexivity|]. simpl.
    split; [reflexivity|]. split; [apply length_insert|].
    split; [intros j Hj; by apply list_lookup_insert_ne|].
    left. split; [reflexivity|]. by apply list_lookup_insert_eq.
  - eexists 1%nat, _. cbn [replicate schedule]. rewrite Hstep. split; [reflexivity|]. simpl.
    split; [reflexivity|]. split; [apply length_insert|].
    split; [intros j Hj; by apply list_lookup_insert_ne|].
    right. by eexists.
  - match type of Hstep with
    | _ = Running ?c1 =>
        destruct (Hsettles c1 i) as (k & c' & Hs & Hnode & Hlen & Hothers & Hend);
          [exact Hn | simpl; by apply list_lookup_insert_eq | reflexivity |]
    end.
    exists (S k), c'. cbn [replicate schedule]. rewrite Hstep.
    split; [exact Hs|]. simpl in *. split; [exact Hnode|].
    split; [by rewrite Hlen, length_insert|].
    split; [|exact Hend].
    intros j Hj. rewrite Hothers by exact Hj. by apply list_lookup_insert_ne.
Qed.

Lemma settles_every n (p : Prog Item Res E unit) :
  settles nodes n p /\ forall m, settles nodes n (fst (advance n p m)).
Proof.
  induction p as [[]|e|X c0 k0 IH].
  - assert (Hret : settles nodes n (Ret tt)).
    { intros c i Hn Hp Hd. exists O, c. simpl. split; [reflexivity|].
      split; [reflexivity|]. split; [reflexivity|]. split; [done|]. by left. }
    split; [exact Hret | intros m; exact Hret].
  - assert (Hthrow : settles nodes n (Throw e)).
    { intros c i Hn Hp Hd.
      pose proof (step_settle c i _ Hp) as Hstep. cbv zeta in Hstep.
      rewrite Hd in Hstep. cbn [fst snd resume] in Hstep.
      eexists 1%nat, _. cbn [replicate schedule]. rewrite Hstep. split; [reflexivity|]. simpl.
      split; [reflexivity|]. split; [apply length_insert|].
      split; [intros j Hj; by apply list_lookup_insert_ne|].
      right. by eexists. }
    split; [exact Hthrow | intros m; exact Hthrow].
  - assert (Hvis : settles nodes n (Vis c0 k0)).
    { intros c i Hn Hp Hd.
      destruct (resume n (Vis c0 k0) (mem c)) as [p' m'] eqn:Hres.
      eapply settles_after_step; [exact Hn | exact Hp | exact Hd | exact Hres |].
      simpl in Hres. destruct (perform n c0 (mem c)) as [o m1].
      destruct (IH o) as [_ Hadv]. specialize (Hadv m1).
      rewrite Hres in Hadv. exact Hadv. }
    split; [exact Hvis|]. intros m. simpl.
    destruct (is_async c0); [exact Hvis|].
    destruct (perform n c0 m) as [o m1]. by destruct (IH o) as [_ Hadv].
Qed.

Lemma fulfilled_lookup (ps : list (Prog Item Res E unit)) :
  (forall i, (i < length ps)%nat -> ps !! i = Some (Ret tt)) ->
  forallb is_fulfilled ps = true.
Proof.
  induction ps as [|p ps IH]; intros Hall; [reflexivity|]. simpl.
  pose proof (Hall O) as H0. simpl in H0. injection (H0 ltac:(lia)) as ->. simpl.
  apply IH. intros i Hi. apply (Hall (S i)). simpl. lia.
Qed.

(** Every pipeline from [j] on is resumed until it has settled, or until one
    of them is rejected. *)
Lemma settle_from (d : nat) :
  forall j c,
    d = (length (execPromises c) - j)%nat ->
    (j <= length (execPromises c))%nat ->
    driver c = AtAll None ->
    (forall i, (i < j)%nat -> execPromises c !! i = Some (Ret tt)) ->
    exists sched c',
      schedule nodes sched (Running c) = Running c' /\
      node c' = node c /\
      ((driver c' = AtAll None /\ forallb is_fulfilled (execPromises c') = true) \/
       exists e, driver c' = AtAll (Some e)).
Proof.
  induction d as [|d IH]; intros j c Hdist Hj Hd Hbelow.
  - exists [], c. split; [reflexivity|]. split; [reflexivity|]. left.
    split; [exact Hd|]. apply fulfilled_lookup. intros i Hi. apply Hbelow. lia.
  - destruct (lookup_lt_is_Some_2 (execPromises c) j ltac:(lia)) as [p Hp].
    destruct (settles_every (nodes (node c)) p) as [Hsettles _].
    destruct (Hsettles c j eq_refl Hp Hd)
      as (k & c1 & Hs1 & Hnode1 & Hlen1 & Hothers & [[Hd1 Hj1] | Hrej]).
    + destruct (IH (S j) c1) as (sched & c' & Hs & Hnode & Hend).
      * lia.
      * lia.
      * exact Hd1.
      * intros i Hi. destruct (decide (i = j)) as [->|Hne]; [exact Hj1|].
        rewrite Hothers by exact Hne. apply Hbelow. lia.
      * exists (replicate k (Settle j) ++ sched), c'.
        rewrite schedule_app, Hs1. split; [exact Hs|].
        split; [congruence | exact Hend].
    + exists (replicate k (Settle j)), c1. split; [exact Hs1|].
      split; [exact Hnode1|]. by right.
Qed.

(** From any point of a cycle whose generator ends, some schedule of pulls
    and of resumptions leads to the point where [Promise.all] settles. *)
Lemma can_join c :
  (forall g, driver c = AtNext g -> produces (nodes (node c)) g) ->
  exists sched c',
    schedule nodes sched (Running c) = Running c' /\
    node c' = node c /\
    ((driver c' = AtAll None /\ forallb is_fulfilled (execPromises c') = true) \/
     exists e, driver c' = AtAll (Some e)).
Proof.
  intros Hgen.
  assert (Hall : forall c0, node c0 = node c -> forall rej, driver c0 = AtAll rej ->
            exists sched c',
              schedule nodes sched (Running c0) = Running c' /\
              node c' = node c /\
              ((driver c' = AtAll None /\
                forallb is_fulfilled (execPromises c') = true) \/
               exists e, driver c' = AtAll (Some e))).
  { intros c0 Hnode [e|] Hd.
    - exists [], c0. split; [reflexivity|]. split; [exact Hnode|]. right. by exists e.
    - destruct (settle_from (length (execPromises c0) - 0) O c0)
        as (sched & c' & Hs & Hnode' & Hend); [reflexivity | lia | exact Hd | lia |].
      exists sched, c'. split; [exact Hs|]. split; [congruence | exact Hend]. }
  destruct (driver c) as [g|rej] eqn:Hd.
  - destruct (pull_all _ g (Hgen g eq_refl) c Hd eq_refl)
      as (k & c1 & Hs1 & Hnode1 & rej & Hrej).
    destruct (Hall c1 Hnode1 rej Hrej) as (sched & c' & Hs & Hnode & Hend).
    exists (replicate k Pull ++ sched), c'. rewrite schedule_app, Hs1.
    split; [exact Hs|]. split; [exact Hnode | exact Hend].
  - by apply (Hall c eq_refl rej).
Qed.

End Progress.

(** ** Retries exhausted and no fallback *)

Section Exhausted.

Context {W G Item Res E : Type}.
Variable nodes : NodeRef -> Node W G Item Res E.
Variable r : NodeRef.
Variable w : W.
Variable t0 : list (Event Item Res E).

Abbreviation n := (nodes r).

Hypothesis Hmax : 1 <= maxRetries (config n).
Hypothesis Hfails : always_fails n.
Hypothesis Hnone : execFallback n = None.
Hypothesis Hproduces : produces n (prep n w).
Hypothesis Hfirst : exists value g' w', gen_next n (prep n w) w = (ItYield value g', w').

Implicit Types c : Cycle W G Item Res E.
Implicit Types t : list (Event Item Res E).

Abbreviation retry_failure t e := (exec_failure t0 t e \/ onError_failure n t0 t e).

Lemma doomed_thrown t e :
  ends_in n (fails_in_retry n t0) t (Throw e : Prog Item Res E unit) -> retry_failure t e.
Proof.
  inversion 1 as [|t' e' (e'' & Heq & He)|]. by injection Heq as <-.
Qed.

Lemma doomed_first_rejection t (ps : list (Prog Item Res E unit)) e :
  Forall (ends_in n (fails_in_retry n t0) t) ps ->
  first_rejection ps = Some e -> retry_failure t e.
Proof.
  induction 1 as [|p ps Hp Hps IH]; simpl; [discriminate|].
  destruct p as [a|e'|X c0 k0]; [exact IH| |exact IH].
  intros [= <-]. by apply doomed_thrown.
Qed.

Lemma doomed_not_fulfilled t (ps : list (Prog Item Res E unit)) :
  Forall (ends_in n (fails_in_retry n t0) t) ps -> ps <> [] ->
  forallb is_fulfilled ps = false.
Proof.
  intros [|p ps' Hp _] Hne; [done|]. simpl.
  destruct p as [a|e|X c0 k0]; [|done|done].
  inversion Hp as [t' a' (e & Heq & _)| |]. discriminate.
Qed.

Lemma doomed_later t t' (ps : list (Prog Item Res E unit)) :
  t `prefix_of` t' ->
  Forall (ends_in n (fails_in_retry n t0) t) ps -> Forall (ends_in n (fails_in_retry n t0) t') ps.
Proof.
  intros Hpre Hps. eapply Forall_impl; [exact Hps|]. intros p Hp.
  by apply (ends_in_later n _ _ _ (lasting_fails_in_retry n t0) Hp).
Qed.

Lemma doomed_start : (doomed_status nodes r w t0) (start nodes r w t0).
Proof.
  split; [by eexists|].
  split; [simpl; rewrite count_app; simpl; lia|].
  split; [simpl; rewrite count_app; simpl; lia|].
  split; [reflexivity|]. split; [constructor|]. simpl. by split.
Qed.

Lemma doomed_core_step c ch :
  t0 `prefix_of` trace (mem c) ->
  (doomed nodes r w t0) c ->
  match step nodes ch c with
  | Running c' => (doomed nodes r w t0) c'
  | Failed e _ t => retry_failure t e
  | Returned _ _ => False
  end.
Proof.
  intros Ht0 (Hnode & Hps & Hdrv).
  unfold step. rewrite Hnode. destruct ch as [|i|].
  - (* generator.next(..) settles *)
    destruct (driver c) as [g|rej] eqn:Hd;
      [|split; [exact Hnode|]; split; [exact Hps|]; by rewrite Hd].
    destruct Hdrv as [Hg Hinit]. destruct Hg as [g Hthrow Hitem Hrest].
    destruct (gen_next n g (world (mem c))) as [[value g'| |e] w'] eqn:Hnext.
    + destruct (Hitem _ _ _ _ Hnext) as [v Hv]. rewrite Hv.
      set (m0 := log (EvNext r (Some value)) w' (mem c)).
      assert (Hpre0 : trace (mem c) `prefix_of` trace m0) by (by eexists).
      pose proof (ends_in_advance n _ _ _ (lasting_fails_in_retry n t0)
                    (pipeline_doomed n t0 v (trace m0) Hfails Hnone Hmax
                       ltac:(by etrans)) m0
                    ltac:(reflexivity)) as Hp.
      pose proof (advance_prefix n (pipeline n (Fulfilled v)) m0) as Hpre.
      destruct (advance _ _ _) as [p m']. simpl in Hp, Hpre.
      split; [reflexivity|]. simpl.
      split; [apply Forall_app; split; [|by constructor]|].
      { apply (doomed_later (trace (mem c))); [by etrans | exact Hps]. }
      split; [by eapply Hrest|]. intros Hnil. by destruct (execPromises c).
    + split; [reflexivity|]. simpl.
      assert (Hpre : trace (mem c) `prefix_of` trace (mem c) ++ [EvNext r None])
        by (by eexists).
      split; [by apply (doomed_later (trace (mem c)))|]. split.
      * intros Hnil. specialize (Hinit Hnil). injection Hinit as Hc.
        destruct Hfirst as (value & g' & w'' & Hyield).
        rewrite Hc in Hd, Hnext. simpl in Hd, Hnext. injection Hd as <-.
        congruence.
      * intros e He. apply (retry_failure_later n t0 (trace (mem c))); [exact Hpre|].
        by apply (doomed_first_rejection _ (execPromises c)).
    + by destruct (Hthrow _ _ _ Hnext).
  - (* the call that pipeline [i] awaits settles *)
    destruct (execPromises c !! i) as [p|] eqn:Hp;
      [|split; [exact Hnode|]; split; [exact Hps|]; exact Hdrv].
    pose proof (ends_in_resume n _ _ p (mem c) (lasting_fails_in_retry n t0)
                  (proj1 (Forall_lookup _ _) Hps i p Hp) ltac:(reflexivity)) as Hp'.
    pose proof (resume_prefix n p (mem c)) as Hpre.
    destruct (resume n p (mem c)) as [p' m']. simpl in Hp', Hpre.
    split; [reflexivity|]. simpl.
    split; [apply Forall_insert; [by apply (doomed_later (trace (mem c)))|exact Hp']|].
    assert (Hne : <[i:=p']> (execPromises c) <> []).
    { intros Hnil. apply (f_equal length) in Hnil. rewrite length_insert in Hnil.
      apply lookup_lt_Some in Hp. simpl in Hnil. lia. }
    destruct (driver c) as [g|[e|]]; simpl.
    + destruct Hdrv as [Hg _]. by split.
    + destruct Hdrv as [_ He]. split; [exact Hne|].
      intros e' [= <-]. by apply (retry_failure_later n t0 (trace (mem c))), He.
    + destruct p' as [a|e|X c0 k0]; (split; [exact Hne|]); try done.
      intros e' [= <-]. by apply doomed_thrown.
  - (* Promise.all settles *)
    destruct (driver c) as [g|[e|]] eqn:Hd.
    + split; [exact Hnode|]. split; [exact Hps|]. by rewrite Hd.
    + destruct Hdrv as [_ He]. by apply He.
    + destruct Hdrv as [Hne _]. rewrite (doomed_not_fulfilled _ _ Hps Hne).
      split; [exact Hnode|]. split; [exact Hps|]. by rewrite Hd.
Qed.

Lemma doomed_step c ch :
  (doomed_status nodes r w t0) (Running c) -> (doomed_status nodes r w t0) (step nodes ch c).
Proof.
  intros (Ht0 & Hpost & Hprep & Hc).
  pose proof (doomed_core_step c ch Ht0 Hc) as Hcore.
  destruct (step_added nodes c ch) as (added & Htr & Hcase).
  destruct Hcase as [[Hp1 Hp2] | (-> & Hd & Hall & _)].
  - unfold doomed_status. rewrite Htr, !count_app. simpl in Hpost, Hprep.
    split; [by apply prefix_app_r|]. split; [lia|]. split; [lia|]. exact Hcore.
  - destruct Hc as (_ & Hps & Hdrv). rewrite Hd in Hdrv. destruct Hdrv as [Hne _].
    rewrite (doomed_not_fulfilled _ _ Hps Hne) in Hall. discriminate.
Qed.

Lemma doomed_schedule sched st :
  (doomed_status nodes r w t0) st -> (doomed_status nodes r w t0) (schedule nodes sched st).
Proof.
  apply (schedule_invariant nodes (doomed_status nodes r w t0)). intros c ch.
  apply doomed_step.
Qed.

Lemma doomed_can_fail c :
  (doomed_status nodes r w t0) (Running c) ->
  exists sched e w' t, schedule nodes sched (Running c) = Failed e w' t.
Proof.
  intros Hc. pose proof Hc as (_ & _ & _ & Hnode & Hps & Hdrv).
  destruct (can_join nodes c) as (sched & c' & Hs & _ & Hend).
  { intros g Hg. rewrite Hg in Hdrv. rewrite Hnode. apply Hdrv. }
  pose proof (doomed_schedule sched _ Hc) as Hc'. rewrite Hs in Hc'.
  destruct Hc' as (_ & _ & _ & _ & Hps' & Hdrv').
  destruct Hend as [[Hd Hall] | [e Hd]]; rewrite Hd in Hdrv'.
  - destruct Hdrv' as [Hne _].
    rewrite (doomed_not_fulfilled _ _ Hps' Hne) in Hall. discriminate.
  - exists (sched ++ [Join]), e, (world (mem c')), (trace (mem c')).
    rewrite schedule_app, Hs. simpl. unfold step. by rewrite Hd.
Qed.

End Exhausted.

(** C3, amended.  A node with [maxRetries] at least 1, no [execFallback],
    and an [exec] that fails at every attempt, whose [prep] yields at least
    one item.  Wherever in a traversal the cycle of this node begins ([t0] is
    what has been called before; it is empty for [run] on this node), under
    every schedule: [post] is not called, no other node is run ([prep] is
    not called again), [run] does not return, and when [run] fails it is with
    a failure that a call of [exec] or a call of [onError] has ended with in
    this cycle, and with a failure of [exec] when [onError] does not throw;
    and whatever has happened so far, the promises can still settle so that
    [run] fails. *)
Theorem exhausted_retries_reject {W G Item Res E : Type}
    (nodes : NodeRef -> Node W G Item Res E) (r : NodeRef) (w : W)
    (t0 : list (Event Item Res E)) :
  1 <= maxRetries (config (nodes r)) ->
  always_fails (nodes r) ->
  execFallback (nodes r) = None ->
  produces (nodes r) (prep (nodes r) w) ->
  (exists value g' w',
      gen_next (nodes r) (prep (nodes r) w) w = (ItYield value g', w')) ->
  forall sched,
    let st := schedule nodes sched (start nodes r w t0) in
    count is_post (status_trace st) = count is_post t0 /\
    count is_prep (status_trace st) = S (count is_prep t0) /\
    (forall w' t, st <> Returned w' t) /\
    (forall e w' t, st = Failed e w' t ->
        (exec_failure t0 t e \/ onError_failure (nodes r) t0 t e) /\
        (onError_returns (nodes r) -> exec_failure t0 t e)) /\
    (exists sched' e w' t,
        schedule nodes (sched ++ sched') (start nodes r w t0) = Failed e w' t).
Proof.
  intros Hmax Hfails Hnone Hproduces Hfirst sched st.
  pose proof (doomed_schedule nodes r w t0 Hmax Hfails Hnone Hfirst sched _
                (doomed_start nodes r w t0 Hproduces)) as Hrun.
  fold st in Hrun. destruct Hrun as (Hpre & Hpost & Hprep & Hst).
  split; [exact Hpost|]. split; [exact Hprep|].
  split; [intros w' t Heq; by rewrite Heq in Hst|].
  split.
  { intros e w' t Heq. rewrite Heq in Hst. split; [exact Hst|].
    intros Hquiet. destruct Hst as [He | (e' & error & a & l & _ & _ & _ & w1 & Hthrows)];
      [exact He|].
    by rewrite Hquiet in Hthrows. }
  setoid_rewrite schedule_app. fold st.
  destruct st as [c|w' t|e w' t] eqn:Heq; [|done|].
  - apply (doomed_can_fail nodes r w t0 Hmax Hfails Hnone Hfirst).
    by split; [|split; [|split]].
  - exists [], e, w', t. reflexivity.
Qed.

(** ** Retries exhausted and a fallback that returns *)

Section Degraded.

Context {W G Item Res E : Type}.
Variable nodes : NodeRef -> Node W G Item Res E.
Variable r : NodeRef.
Variable w : W.
Variable t0 : list (Event Item Res E).

Abbreviation n := (nodes r).

Hypothesis Hmax : 1 <= maxRetries (config n).
Hypothesis Hfallback : fallback_returns n.
Hypothesis Hquiet : onError_returns n.

Implicit Types c : Cycle W G Item Res E.
Implicit Types t : list (Event Item Res E).

Lemma safe_not_thrown t e : ~ ends_in n is_done t (Throw e : Prog Item Res E unit).
Proof. inversion 1 as [|t' e' He|]. discriminate. Qed.

Lemma safe_first_rejection t (ps : list (Prog Item Res E unit)) :
  Forall (ends_in n is_done t) ps -> first_rejection ps = None.
Proof.
  induction 1 as [|p ps Hp Hps IH]; simpl; [reflexivity|].
  destruct p as [a|e|X c0 k0]; [exact IH| |exact IH].
  by destruct (safe_not_thrown t e).
Qed.

Lemma safe_later t t' (ps : list (Prog Item Res E unit)) :
  t `prefix_of` t' ->
  Forall (ends_in n is_done t) ps -> Forall (ends_in n is_done t') ps.
Proof.
  intros Hpre Hps. eapply Forall_impl; [exact Hps|]. intros p Hp.
  by apply (ends_in_later n _ _ _ lasting_is_done Hp).
Qed.

Lemma aggregate_posts c :
  (count is_post (trace (mem c)) < count is_post (status_trace (aggregate nodes c)))%nat.
Proof.
  unfold aggregate. destruct (post _ _ _ _) as [[action|e] w'].
  - destruct (route_trace nodes (nodes (node c)) action w'
                (trace (mem c) ++
                 [EvPost (node c) (prepItems (mem c)) (execResults (mem c))
                    (inl action)])) as (rest & -> & _).
    rewrite !count_app. simpl. lia.
  - simpl. rewrite count_app. simpl. lia.
Qed.

Lemma safe_start :
  produces n (prep n w) -> (safe_status nodes r t0) (start nodes r w t0).
Proof.
  intros Hp. right. eexists. split; [reflexivity|]. split.
  - split; [reflexivity|]. split; [constructor | exact Hp].
  - simpl. rewrite count_app. simpl. lia.
Qed.

Lemma safe_core_step c ch :
  (safe nodes r) c ->
  (exists c', step nodes ch c = Running c' /\ (safe nodes r) c') \/
  step nodes ch c = aggregate nodes c.
Proof.
  intros (Hnode & Hps & Hdrv).
  assert (Hstay : (exists c', Running c = Running c' /\ (safe nodes r) c') \/
                  Running c = aggregate nodes c)
    by (left; exists c; by split; [|split; [|split]]).
  unfold step. rewrite Hnode. destruct ch as [|i|].
  - destruct (driver c) as [g|rej] eqn:Hd; [|exact Hstay].
    destruct Hdrv as [g Hthrow Hitem Hrest].
    destruct (gen_next n g (world (mem c))) as [[value g'| |e] w'] eqn:Hnext.
    + destruct (Hitem _ _ _ _ Hnext) as [v Hv]. rewrite Hv.
      set (m0 := log (EvNext r (Some value)) w' (mem c)).
      assert (Hpre0 : trace (mem c) `prefix_of` trace m0) by (by eexists).
      pose proof (ends_in_advance n _ _ _ lasting_is_done
                    (pipeline_safe n v (trace m0) Hfallback Hquiet Hmax) m0
                    ltac:(reflexivity)) as Hp.
      pose proof (advance_prefix n (pipeline n (Fulfilled v)) m0) as Hpre.
      destruct (advance _ _ _) as [p m']. simpl in Hp, Hpre.
      left. eexists. split; [reflexivity|]. split; [reflexivity|]. simpl.
      split; [apply Forall_app; split; [|by constructor]|by eapply Hrest].
      apply (safe_later (trace (mem c))); [by etrans | exact Hps].
    + left. eexists. split; [reflexivity|]. split; [reflexivity|]. simpl.
      split; [|by apply (safe_first_rejection (trace (mem c)))].
      apply (safe_later (trace (mem c))); [by eexists | exact Hps].
    + by destruct (Hthrow _ _ _ Hnext).
  - destruct (execPromises c !! i) as [p|] eqn:Hp; [|exact Hstay].
    pose proof (ends_in_resume n _ _ p (mem c) lasting_is_done
                  (proj1 (Forall_lookup _ _) Hps i p Hp) ltac:(reflexivity)) as Hp'.
    pose proof (resume_prefix n p (mem c)) as Hpre.
    destruct (resume n p (mem c)) as [p' m']. simpl in Hp', Hpre.
    left. eexists. split; [reflexivity|]. split; [reflexivity|]. simpl.
    split; [apply Forall_insert; [by apply (safe_later (trace (mem c)))|exact Hp']|].
    destruct (driver c) as [g|[e|]]; simpl; [exact Hdrv | exact Hdrv |].
    destruct p' as [a|e|X c0 k0]; [reflexivity| |reflexivity].
    by destruct (safe_not_thrown _ e Hp').
  - destruct (driver c) as [g|[e|]] eqn:Hd; [exact Hstay | discriminate |].
    destruct (forallb _ _); [by right | exact Hstay].
Qed.

Lemma safe_step c ch :
  (safe_status nodes r t0) (Running c) -> (safe_status nodes r t0) (step nodes ch c).
Proof.
  destruct (step_added nodes c ch) as (added & Htr & Hcase).
  intros [Hposted | (c0 & [= <-] & Hc & Hcount)].
  - left. rewrite Htr, count_app. simpl in Hposted. lia.
  - destruct (safe_core_step c ch Hc) as [(c' & Hstep & Hc') | Hstep].
    + destruct Hcase as [[Hnone _] | (_ & _ & _ & res & rest & -> & _)].
      * right. exists c'. split; [exact Hstep|]. split; [exact Hc'|].
        rewrite Hstep in Htr. simpl in Htr. rewrite Htr, count_app. lia.
      * left. rewrite Htr, count_app. simpl. lia.
    + left. rewrite Hstep. pose proof (aggregate_posts c). lia.
Qed.

Lemma safe_schedule sched st :
  (safe_status nodes r t0) st -> (safe_status nodes r t0) (schedule nodes sched st).
Proof.
  apply (schedule_invariant nodes (safe_status nodes r t0)). intros c ch. apply safe_step.
Qed.

Lemma safe_can_post st :
  (safe_status nodes r t0) st ->
  exists sched,
    (count is_post t0 < count is_post (status_trace (schedule nodes sched st)))%nat.
Proof.
  intros [Hposted | (c & -> & Hc & Hcount)]; [by exists []|].
  pose proof Hc as (Hnode & Hps & Hdrv).
  destruct (can_join nodes c) as (sched & c' & Hs & _ & Hend).
  { intros g Hg. rewrite Hg in Hdrv. by rewrite Hnode. }
  assert (Hc' : (safe_status nodes r t0) (Running c')).
  { rewrite <- Hs. apply safe_schedule. right. by exists c. }
  destruct Hc' as [Hposted | (c0 & [= <-] & (_ & _ & Hdrv') & Hcount')].
  { exists sched. by rewrite Hs. }
  exists (sched ++ [Join]). rewrite schedule_app, Hs. simpl. unfold step.
  destruct Hend as [[Hd Hall] | [e Hd]]; rewrite Hd in Hdrv'; [|discriminate].
  rewrite Hd, Hall. pose proof (aggregate_posts c'). lia.
Qed.

End Degraded.

Section Fallback.

Context {W G Item Res E : Type}.
Variable node : Node W G Item Res E.
Variable item : Item.

Lemma attempts_fallback :
  always_fails node -> fallback_returns node -> onError_returns node ->
  forall remaining attempt m,
    (1 <= remaining)%nat ->
    Z.of_nat remaining = maxRetries (config node) - attempt ->
    exists v error m' t,
      interp node (attempts node item remaining attempt) m = (Fulfilled v, m') /\
      trace m' = trace m ++ t ++ [EvExecFallback item error (inl v)] /\
      count is_exec t = remaining /\ count is_fallback t = O /\
      fallback_for node item v.
Proof.
  intros Hfails (fallback & Hfb & Hreturns) Hquiet.
  induction remaining as [|remaining IH]; intros attempt m Hpos Hrem; [lia|].
  simpl. destruct (Hfails item (world m)) as [e He].
  destruct (exec node item (world m)) as [r w] eqn:Hexec. simpl in He. subst r.
  simpl. destruct (Z.eqb_spec attempt (maxRetries (config node) - 1)) as [Hlast|Hmore].
  - assert (remaining = O) by lia. subst remaining.
    rewrite Hfb. simpl. rewrite Hfb.
    destruct (Hreturns item (Thrown e) w) as [v Hv].
    destruct (fallback item (Thrown e) w) as [r' w'] eqn:Hcall. simpl in Hv. subst r'.
    simpl. eexists v, (Thrown e), _, [EvExec item (inr e)].
    split; [reflexivity|]. simpl. split; [by rewrite <- app_assoc|].
    split; [reflexivity|]. split; [reflexivity|].
    exists fallback, (Thrown e), w. split; [exact Hfb|]. by rewrite Hcall.
  - simpl.
    pose proof (Hquiet (Thrown e) (attempt + 1) (maxRetries (config node)) w)
      as Hreport.
    destruct (onError node (Thrown e) (attempt + 1) (maxRetries (config node)) w)
      as [report w1]. simpl in Hreport. subst report. simpl.
    match goal with
    | |- context [interp _ (attempts _ _ _ _) ?m1] =>
        destruct (IH (attempt + 1) m1)
          as (v & error & m' & t & Hrun & Htr & Hex & Hfbk & Hv); [lia | lia |]
    end.
    exists v, error, m',
      (EvExec item (inr e)
       :: EvOnError (Thrown e) (attempt + 1) (maxRetries (config node))
       :: EvSetTimeout (Z.max (retryDelay (config node)) 0) :: t).
    split; [exact Hrun|]. split; [rewrite Htr; simpl; by rewrite <- !app_assoc|].
    simpl. split; [lia|]. split; [exact Hfbk | exact Hv].
Qed.

End Fallback.

(** ** The engine on the example nodes *)

Lemma produces_yield_each {W Res : Type}
    (n : Node W (list string) string Res string) :
  gen_next n = Examples.yield_each -> forall g, produces n g.
Proof.
  intros Hgen. induction g as [|x g IH]; constructor; rewrite Hgen; simpl.
  - intros w e w' [=].
  - intros w value g' w' [=].
  - intros w value g' w' [=].
  - intros w e w' [=].
  - intros w value g' w' [= <- <- <-]. by exists x.
  - intros w value g' w' [= <- <- <-]. exact IH.
Qed.

(** C1 fails on the code.  [echo] yields "a" and then "b"; when the [exec]
    of "b" settles before the [exec] of "a", [post] is called with the items
    in the order they were yielded and the results in the order they were
    completed: the result at index 0 is that of the item at index 1. *)
Theorem results_in_completion_order :
  run (fun _ => Examples.echo) (Examples.second_settles_first ++ [Join]) O tt
  = Returned tt
      [EvPrep O; EvNext O (Some (YValue "a"%string));
       EvNext O (Some (YValue "b"%string));
       EvExec "b"%string (inl "echo b"%string);
       EvExec "a"%string (inl "echo a"%string);
       EvNext O None;
       EvPost O ["a"; "b"]%string ["echo b"; "echo a"]%string (inl ANull)] /\
  ~ aligned Examples.echo ["a"; "b"]%string ["echo b"; "echo a"]%string.
Proof.
  split; [reflexivity|].
  intros Haligned. destruct (Haligned O "a"%string eq_refl) as (result & w & Hr & Hex).
  injection Hr as <-. destruct Hex as [Hex | (fallback & error & Hfb & _)];
    discriminate.
Qed.

(** On [echo], at the point where both pipelines are fulfilled and the
    generator is done. *)
Lemma join_barrier_witness :
  let c : Cycle unit (list string) string string string :=
    {| mem := {| world := tt;
                 trace := [EvPrep O; EvNext O (Some (YValue "a"%string));
                           EvNext O (Some (YValue "b"%string));
                           EvExec "b"%string (inl "echo b"%string);
                           EvExec "a"%string (inl "echo a"%string);
                           EvNext O None];
                 prepItems := ["a"; "b"]%string;
                 execResults := ["echo b"; "echo a"]%string |};
       node := O;
       execPromises := [Ret tt; Ret tt];
       driver := AtAll None |} in
  let posted : Event string string string :=
    EvPost O ["a"; "b"]%string ["echo b"; "echo a"]%string (inl ANull) in
  run (fun _ => Examples.echo) Examples.second_settles_first O tt = Running c /\
  status_trace (step (fun _ => Examples.echo) Join c) = trace (mem c) ++ [posted] /\
  posted ∈ [posted] /\
  Forall (fun p => p = Ret tt) (execPromises c) /\
  length ["echo b"; "echo a"]%string = yielded (trace (mem c)).
Proof.
  intros c posted.
  assert (H1 : run (fun _ => Examples.echo) Examples.second_settles_first O tt
               = Running c) by reflexivity.
  assert (H2 : status_trace (step (fun _ => Examples.echo) Join c)
               = trace (mem c) ++ [posted]) by reflexivity.
  assert (H3 : posted ∈ [posted]) by apply list_elem_of_here.
  destruct (join_barrier (fun _ => Examples.echo) Examples.second_settles_first
              O tt c Join [posted] O ["a"; "b"]%string
              ["echo b"; "echo a"]%string (inl ANull) H1 H2 H3)
    as (_ & Hall & _ & _ & _ & Hlen & _).
  split; [exact H1|]. split; [exact H2|]. split; [exact H3|].
  split; [exact Hall | exact Hlen].
Defined.

(** On [hopeless], run from the start, after the first item has been pushed
    and both pipelines have been launched. *)
Lemma exhausted_retries_reject_witness :
  1 <= maxRetries (config Examples.hopeless) /\
  always_fails Examples.hopeless /\
  execFallback Examples.hopeless = None /\
  produces Examples.hopeless (prep Examples.hopeless tt) /\
  (exists value g' w',
      gen_next Examples.hopeless (prep Examples.hopeless tt) tt
      = (ItYield value g', w')) /\
  let st := run (fun _ => Examples.hopeless)
              [Pull; Settle O; Pull; Settle 1%nat; Settle O] O tt in
  count is_post (status_trace st) = O /\
  count is_prep (status_trace st) = 1%nat /\
  (forall w' t, st <> Returned w' t) /\
  (forall e w' t, st = Failed e w' t ->
      (exec_failure [] t e \/ onError_failure Examples.hopeless [] t e) /\
      (onError_returns Examples.hopeless -> exec_failure [] t e)) /\
  (exists sched' e w' t,
      run (fun _ => Examples.hopeless)
        ([Pull; Settle O; Pull; Settle 1%nat; Settle O] ++ sched') O tt
      = Failed e w' t).
Proof.
  assert (H1 : 1 <= maxRetries (config Examples.hopeless)) by (vm_compute; discriminate).
  assert (H2 : always_fails Examples.hopeless).
  { intros item w. by eexists. }
  assert (H3 : execFallback Examples.hopeless = None) by reflexivity.
  assert (H4 : produces Examples.hopeless (prep Examples.hopeless tt)).
  { by apply produces_yield_each. }
  assert (H5 : exists value g' w',
             gen_next Examples.hopeless (prep Examples.hopeless tt) tt
             = (ItYield value g', w')).
  { by eexists _, _, _. }
  split; [exact H1|]. split; [exact H2|]. split; [exact H3|].
  split; [exact H4|]. split; [exact H5|].
  exact (exhausted_retries_reject (fun _ => Examples.hopeless) O tt [] H1 H2 H3 H4 H5
           [Pull; Settle O; Pull; Settle 1%nat; Settle O]).
Defined.

(** C3 as stated fails: the [exec] of [hopeless_loud] fails at every
    attempt and there is no [execFallback], but [onError] throws when it is
    told of the first failure; [run] is rejected with the failure of
    [onError], which is not a failure of [exec], after one attempt. *)
Lemma throwing_onError_rejects_run :
  1 <= maxRetries (config Examples.hopeless_loud) /\
  always_fails Examples.hopeless_loud /\
  execFallback Examples.hopeless_loud = None /\
  produces Examples.hopeless_loud (prep Examples.hopeless_loud tt) /\
  (exists value g' w',
      gen_next Examples.hopeless_loud (prep Examples.hopeless_loud tt) tt
      = (ItYield value g', w')) /\
  let t : list (Event string string string) :=
    [EvPrep O; EvNext O (Some (YValue "a"%string));
     EvExec "a"%string (inr "no a"%string);
     EvOnErrorThrew (Thrown "no a"%string) 1 3 "logger down"%string;
     EvNext O (Some (YValue "b"%string)); EvNext O None] in
  run (fun _ => Examples.hopeless_loud)
    [Pull; Settle O; Settle O; Settle O; Pull; Pull; Join] O tt
  = Failed (Thrown "logger down"%string) tt t /\
  ~ exec_failure [] t (Thrown "logger down"%string).
Proof.
  split; [vm_compute; discriminate|].
  split; [intros item w; by eexists|].
  split; [reflexivity|].
  split; [by apply produces_yield_each|].
  split; [by eexists _, _, _|].
  split; [reflexivity|].
  intros (e' & item & l & [= <-] & Ht & Hin). simpl in Ht. subst l.
  repeat (apply elem_of_cons in Hin as [Hin|Hin]; [discriminate|]).
  by apply elem_of_nil in Hin.
Qed.

(** C4 as stated fails: [brittle] defines [execFallback] and its [exec]
    fails at each of its 3 attempts, but [execFallback] throws in its turn;
    [executeWithRetry] is rejected with that failure, and so is [run],
    without a call of [post].  And the [execFallback] of [degrading_loud]
    returns, but its [onError] throws when it is told of the first failure:
    [run] is rejected with that failure, without a call of [execFallback] or
    of [post]. *)
Lemma failing_fallback_aborts_cycle :
  1 <= maxRetries (config Examples.brittle) /\
  always_fails Examples.brittle /\
  is_Some (execFallback Examples.brittle) /\
  produces Examples.brittle (prep Examples.brittle tt) /\
  fst (interp Examples.brittle (executeWithRetry Examples.brittle "a"%string)
         (Examples.fresh tt)) = Rejected (Thrown "fallback boom"%string) /\
  run (fun _ => Examples.brittle)
    ([Pull] ++ replicate 8 (Settle O) ++ [Pull; Join]) O tt
  = Failed (Thrown "fallback boom"%string) tt
      [EvPrep O; EvNext O (Some (YValue "a"%string));
       EvExec "a"%string (inr "boom"%string); EvOnError (Thrown "boom"%string) 1 3;
       EvSetTimeout 2000;
       EvExec "a"%string (inr "boom"%string); EvOnError (Thrown "boom"%string) 2 3;
       EvSetTimeout 2000;
       EvExec "a"%string (inr "boom"%string);
       EvExecFallback "a"%string (Thrown "boom"%string) (inr "fallback boom"%string);
       EvNext O None] /\
  1 <= maxRetries (config Examples.degrading_loud) /\
  always_fails Examples.degrading_loud /\
  fallback_returns Examples.degrading_loud /\
  produces Examples.degrading_loud (prep Examples.degrading_loud tt) /\
  run (fun _ => Examples.degrading_loud)
    ([Pull] ++ replicate 3 (Settle O) ++ [Pull; Join]) O tt
  = Failed (Thrown "logger down"%string) tt
      [EvPrep O; EvNext O (Some (YValue "a"%string));
       EvExec "a"%string (inr "no a"%string);
       EvOnErrorThrew (Thrown "no a"%string) 1 2 "logger down"%string;
       EvNext O None].
Proof.
  split; [vm_compute; discriminate|].
  split; [intros item w; by eexists|].
  split; [by eexists|].
  split; [by apply produces_yield_each|].
  split; [vm_compute; reflexivity|].
  split; [vm_compute; reflexivity|].
  split; [vm_compute; discriminate|].
  split; [intros item w; by eexists|].
  split; [eexists; split; [reflexivity|]; intros item error w; by eexists|].
  split; [by apply produces_yield_each|].
  vm_compute; reflexivity.
Qed.

(** On [silent], which has a default edge and an edge 'again', and on [echo],
    which has no edge. *)
Lemma routing_witness :
  let nodes := Examples.silent_then_echo in
  let t : list (Event string string string) := [] in
  route nodes Examples.silent KILL tt t = Returned tt t /\
  route nodes Examples.silent AUndefined tt t = start nodes 1%nat tt t /\
  route nodes Examples.silent (AString "again") tt t = start nodes O tt t /\
  route nodes Examples.silent (AString "elsewhere") tt t = start nodes 1%nat tt t /\
  route nodes Examples.echo (AString "elsewhere") tt t = Returned tt t /\
  route nodes Examples.echo ANull tt t = Returned tt t.
Proof.
  intros nodes t.
  destruct (routing nodes Examples.silent tt t) as (Hkill & Hundef & _ & Hedge & Hback & _).
  destruct (routing nodes Examples.echo tt t) as (_ & _ & _ & _ & _ & Hnone).
  split; [exact Hkill|].
  split; [rewrite Hundef; by apply Hedge|].
  split; [by apply Hedge|].
  split; [rewrite Hback by reflexivity; by apply Hedge|].
  split; by apply Hnone.
Defined.

(** On [silent], whose [prep] yields nothing and whose [post] returns
    [undefined]: the traversal goes on with node 1. *)
Lemma empty_cycle_witness :
  gen_next (Examples.silent_then_echo O) (prep (Examples.silent_then_echo O) tt) tt
  = (ItDone, tt) /\
  (Pull ∉ [Settle O; Join]) /\
  (Join ∉ [Pull; Settle 1%nat]) /\
  schedule Examples.silent_then_echo
    ([Settle O; Join] ++ Pull :: [Pull; Settle 1%nat] ++ [Join])
    (start Examples.silent_then_echo O tt [])
  = start Examples.silent_then_echo 1%nat tt
      [EvPrep O; EvNext O None; EvPost O [] [] (inl AUndefined)].
Proof.
  assert (H1 : gen_next (Examples.silent_then_echo O)
                 (prep (Examples.silent_then_echo O) tt) tt = (ItDone, tt))
    by reflexivity.
  assert (H2 : Pull ∉ [Settle O; Join]) by compute_done.
  assert (H3 : Join ∉ [Pull; Settle 1%nat]) by compute_done.
  split; [exact H1|]. split; [exact H2|]. split; [exact H3|].
  rewrite (empty_cycle Examples.silent_then_echo O tt tt []
             [Settle O; Join] [Pull; Settle 1%nat] H1 H2 H3).
  reflexivity.
Defined.

(** * Further properties of the code *)

(** ** The edge table: [connect] and [getEdge] *)

Section Edges.

Context {W G Item Res E : Type}.
Variable nodes : NodeRef -> Node W G Item Res E.
Variable n : Node W G Item Res E.

Implicit Types w : W.
Implicit Types t : list (Event Item Res E).

(** X1. After [connect(action, target)], [getEdge(action)] is [target] and
    [getEdge] of every other action is what it was; after [connect(v)],
    [getEdge('default')] is [v] and [getEdge] of every other action is what
    it was. *)
Theorem getEdge_connect (action action' : Action) (target : NodeRef) (v : Value) :
  getEdge (connect (inl action) (Some target) n) action'
  = (if decide (action' = action) then VNode target else getEdge n action') /\
  getEdge (connect v None n) action'
  = (if decide (action' = AString "default") then v else getEdge n action').
Proof.
  unfold getEdge, connect, with_edges, VString. simpl. split.
  - destruct (decide (action' = action)) as [->|Hne].
    + by rewrite lookup_insert_eq.
    + rewrite lookup_insert_ne; [reflexivity | congruence].
  - destruct (decide (action' = AString "default")) as [->|Hne].
    + by rewrite lookup_insert_eq.
    + rewrite lookup_insert_ne; [reflexivity | congruence].
Qed.

(** X2. Of two calls of [connect] with the same key the second one wins,
    and two calls with different keys can be made in either order. *)
Theorem connect_order (key1 key2 : Value) (target1 target2 : NodeRef) :
  connect key1 (Some target2) (connect key1 (Some target1) n)
  = connect key1 (Some target2) n /\
  (key1 <> key2 ->
   connect key1 (Some target1) (connect key2 (Some target2) n)
   = connect key2 (Some target2) (connect key1 (Some target1) n)).
Proof.
  unfold connect, with_edges. simpl. split.
  - by rewrite insert_insert_eq.
  - intros Hne. by rewrite insert_insert_ne.
Qed.

(** X3. [run] looks an edge up under a string only: an edge that [connect]
    stored under [null], [undefined], [KILL] or a node is never followed,
    whatever [post] returns. *)
Theorem dead_edges (key : Value) (target : NodeRef) (action : Action) w t :
  (forall s, key <> VString s) ->
  route nodes (connect key (Some target) n) action w t = route nodes n action w t.
Proof.
  intros Hkey.
  assert (Hget : forall s, getEdge (connect key (Some target) n) (AString s)
                           = getEdge n (AString s)).
  { intros s. unfold getEdge, connect, with_edges. simpl.
    rewrite lookup_insert_ne; [reflexivity|]. apply Hkey. }
  unfold route. destruct action; simpl nullish_or; rewrite ?Hget; reflexivity.
Qed.

(** X4. [connect(s)] with a string and no target stores the string itself
    under 'default'.  When [post] then returns [undefined], [run] is called
    on that string and fails with a [TypeError], unless the string is empty,
    in which case the traversal ends. *)
Theorem connect_without_target (s : string) w t :
  getEdge (connect (VString s) None n) (AString "default") = VString s /\
  route nodes (connect (VString s) None n) AUndefined w t
  = (if String.eqb s "" then Returned w t else Failed TypeError w t).
Proof.
  assert (Hget : getEdge (connect (VString s) None n) (AString "default") = VString s).
  { unfold getEdge, connect, with_edges, VString. simpl. by rewrite lookup_insert_eq. }
  split; [exact Hget|].
  unfold route. simpl nullish_or. rewrite Hget. unfold js_or, VString. simpl.
  destruct (String.eqb s "") eqn:Hs; simpl; rewrite Hs; reflexivity.
Qed.

(** X5. When [run] goes on with another node after [post], that node is the
    one stored under the action ('default' for [undefined] and [null]) or
    the one stored under 'default', and its cycle starts in the world [post]
    left; [KILL] never leads to a node. *)
Theorem route_follows_an_edge (action : Action) w t (c : Cycle W G Item Res E) :
  route nodes n action w t = Running c ->
  action <> KILL /\
  Running c = start nodes (node c) w t /\
  (edges n !! (inl (nullish_or action (AString "default")) : Value)
   = Some (VNode (node c)) \/
   edges n !! VString "default" = Some (VNode (node c))).
Proof.
  unfold route. intros Hroute.
  destruct (decide (action = KILL)) as [->|Hkill]; [discriminate|].
  split; [exact Hkill|].
  assert (Hnext : (if truthy (js_or (getEdge n (nullish_or action (AString "default")))
                                    (getEdge n (AString "default")))
                   then run_value nodes
                          (js_or (getEdge n (nullish_or action (AString "default")))
                                 (getEdge n (AString "default"))) w t
                   else Returned w t) = Running c) by (by destruct action).
  clear Hroute. unfold js_or, getEdge, VString in *.
  destruct (edges n !! (inl (nullish_or action (AString "default")) : Value))
    as [v1|] eqn:H1; simpl in Hnext.
  - destruct (truthy v1) eqn:Hv1.
    + rewrite Hv1 in Hnext. destruct v1 as [a|r1]; [discriminate|].
      simpl in Hnext. injection Hnext as <-. simpl. split; [reflexivity|]. by left.
    + destruct (edges n !! (inl (AString "default") : Value)) as [v2|] eqn:H2;
        simpl in Hnext; [|discriminate].
      destruct (truthy v2); [|discriminate].
      destruct v2 as [a|r2]; [discriminate|].
      simpl in Hnext. injection Hnext as <-. simpl. split; [reflexivity|]. by right.
  - destruct (edges n !! (inl (AString "default") : Value)) as [v2|] eqn:H2;
      simpl in Hnext; [|discriminate].
    destruct (truthy v2); [|discriminate].
    destruct v2 as [a|r2]; [discriminate|].
    simpl in Hnext. injection Hnext as <-. simpl. split; [reflexivity|]. by right.
Qed.

End Edges.

(** On [echo] with two named edges. *)
Lemma connect_order_witness :
  VString "retry" <> VString "done" /\
  connect (VString "retry") (Some 1%nat)
    (connect (VString "done") (Some 2%nat) Examples.echo)
  = connect (VString "done") (Some 2%nat)
      (connect (VString "retry") (Some 1%nat) Examples.echo).
Proof.
  assert (H : VString "retry" <> VString "done") by discriminate.
  split; [exact H|].
  exact (proj2 (connect_order Examples.echo (VString "retry") (VString "done")
                  1%nat 2%nat) H).
Defined.

(** On [echo] with an edge stored under [null], when [post] returns [null]. *)
Lemma dead_edges_witness :
  (forall s, (inl ANull : Value) <> VString s) /\
  route Examples.silent_then_echo (connect (inl ANull) (Some O) Examples.echo) ANull tt []
  = Returned tt [].
Proof.
  assert (H : forall s, (inl ANull : Value) <> VString s) by (intros s; discriminate).
  split; [exact H|].
  exact (eq_trans
           (dead_edges Examples.silent_then_echo Examples.echo (inl ANull) O ANull tt [] H)
           eq_refl).
Defined.

(** On [silent], whose default edge goes to node 1, when [post] returns an
    action that has no edge. *)
Lemma route_follows_an_edge_witness :
  let nodes := Examples.silent_then_echo in
  let c : Cycle unit (list string) string string string :=
    {| mem := {| world := tt; trace := [EvPrep 1%nat];
                 prepItems := []; execResults := [] |};
       node := 1%nat;
       execPromises := [];
       driver := AtNext ["a"; "b"]%string |} in
  route nodes Examples.silent (AString "elsewhere") tt [] = Running c /\
  (edges Examples.silent !! VString "elsewhere" = Some (VNode 1%nat) \/
   edges Examples.silent !! VString "default" = Some (VNode 1%nat)).
Proof.
  intros nodes c.
  assert (H : route nodes Examples.silent (AString "elsewhere") tt [] = Running c)
    by reflexivity.
  split; [exact H|].
  exact (proj2 (proj2 (route_follows_an_edge nodes Examples.silent
                         (AString "elsewhere") tt [] c H))).
Defined.

(** ** The calls of [executeWithRetry] *)

Section RetryCalls.

Context {W G Item Res E : Type}.
Variable node : Node W G Item Res E.
Variable item : Item.

Implicit Types m : Mem W Item Res E.

Lemma attempts_calls :
  forall remaining attempt m,
    (1 <= remaining)%nat ->
    Z.of_nat remaining = maxRetries (config node) - attempt ->
    exists errors ending m',
      interp node (attempts node item remaining attempt) m
      = (ending_outcome ending, m') /\
      trace m' = trace m ++ retries node item errors attempt ++ ending_calls node item ending /\
      match ending with
      | Returns _ => (length errors < remaining)%nat
      | Rethrows _ => S (length errors) = remaining /\ execFallback node = None
      | FallsBack _ _ => S (length errors) = remaining /\ is_Some (execFallback node)
      | OnErrorThrows _ number _ =>
          (S (length errors) < remaining)%nat /\
          number = attempt + Z.of_nat (length errors) + 1
      end.
Proof.
  induction remaining as [|remaining IH]; intros attempt m Hpos Hrem; [lia|].
  simpl. destruct (exec node item (world m)) as [[v|e] w] eqn:Hexec; simpl.
  - exists [], (Returns v). eexists. split; [reflexivity|].
    split; [reflexivity|]. simpl. lia.
  - destruct (Z.eqb_spec attempt (maxRetries (config node) - 1)) as [Hlast|Hmore].
    + assert (remaining = O) by lia. subst remaining.
      destruct (execFallback node) as [fallback|] eqn:Hfb; simpl.
      * rewrite Hfb. simpl.
        destruct (fallback item (Thrown e) w) as [[v|e'] w'] eqn:Hcall; simpl;
          [exists [], (FallsBack e (inl v)) | exists [], (FallsBack e (inr e'))];
          (eexists; split; [reflexivity|];
           split; [simpl; by rewrite <- app_assoc|];
           split; [reflexivity | by eexists]).
      * exists [], (Rethrows e). eexists. split; [reflexivity|].
        split; [reflexivity|]. by split.
    + simpl.
      destruct (onError node (Thrown e) (attempt + 1) (maxRetries (config node)) w)
        as [[[]|thrown] w1] eqn:Hreport; simpl.
      * match goal with
        | |- context [interp _ (attempts _ _ _ _) ?m1] =>
            destruct (IH (attempt + 1) m1)
              as (errors & ending & m' & Hrun & Htr & Hend); [lia | lia |]
        end.
        exists (e :: errors), ending, m'. split; [exact Hrun|].
        split; [rewrite Htr; simpl; by rewrite <- !app_assoc|].
        destruct ending; simpl; [lia | | |]; (split; [lia|]);
          [apply Hend | apply Hend | destruct Hend as [_ ->]; lia].
      * exists [], (OnErrorThrows e (attempt + 1) thrown). eexists.
        split; [reflexivity|]. split; [simpl; by rewrite <- app_assoc|].
        simpl. split; lia.
Qed.

Lemma attempts_none m :
  maxRetries (config node) <= 0 ->
  interp node (executeWithRetry node item) m = (Rejected ErrorUnreachable, m).
Proof.
  intros Hmax. unfold executeWithRetry.
  destruct (maxRetries (config node)) as [|p|p]; [reflexivity | lia | reflexivity].
Qed.

(** What a call of [executeWithRetry] adds to the trace, whatever the
    configuration and whatever user code does. *)
Lemma executeWithRetry_added m :
  (maxRetries (config node) <= 0 /\
   interp node (executeWithRetry node item) m = (Rejected ErrorUnreachable, m)) \/
  (1 <= maxRetries (config node) /\
   exists errors ending m',
     interp node (executeWithRetry node item) m = (ending_outcome ending, m') /\
     trace m' = trace m ++ retries node item errors 0 ++ ending_calls node item ending /\
     ends_after node (length errors) ending).
Proof.
  destruct (Z_le_gt_dec (maxRetries (config node)) 0) as [Hnone|Hsome].
  - left. split; [exact Hnone | by apply attempts_none].
  - right. split; [lia|].
    destruct (attempts_calls (Z.to_nat (maxRetries (config node))) 0 m)
      as (errors & ending & m' & Hrun & Htr & Hend); [lia | lia |].
    exists errors, ending, m'. split; [exact Hrun|]. split; [exact Htr|].
    destruct ending; simpl in *; [lia | | |];
      [split; [lia | apply Hend] | split; [lia | apply Hend] | lia].
Qed.

(** X6. With [maxRetries] at least 1, the calls of [executeWithRetry] are:
    for each failed attempt of which [onError] is told and returns, the
    failed [exec], [onError] with the number of the attempt (from 1) and
    [maxRetries], and a [setTimeout] of [max(retryDelay, 0)] ms; then either an
    [exec] that returns, whose value is returned; or the failed [exec] of
    attempt [maxRetries], whose failure is thrown again when there is no
    [execFallback], and otherwise handed to [execFallback], whose outcome is
    that of the call; or the failed [exec] of an earlier attempt and a call
    of [onError] that throws, whose failure is then thrown. *)
Theorem executeWithRetry_calls m :
  1 <= maxRetries (config node) ->
  exists errors ending m',
    interp node (executeWithRetry node item) m = (ending_outcome ending, m') /\
    trace m' = trace m ++ retries node item errors 0 ++ ending_calls node item ending /\
    ends_after node (length errors) ending.
Proof.
  intros Hmax. destruct (executeWithRetry_added m) as [[Hnone _] | [_ Hcalls]];
    [lia | exact Hcalls].
Qed.

(** X7. With [maxRetries] zero or negative, [executeWithRetry] calls
    nothing, not even [exec], and throws [Error('Unreachable')]; the pipeline
    of an item has then pushed the item, and no result, when it is
    rejected. *)
Theorem no_attempts m (v : Item) :
  maxRetries (config node) <= 0 ->
  interp node (executeWithRetry node item) m = (Rejected ErrorUnreachable, m) /\
  interp node (pipeline node (Fulfilled v)) m
  = (Rejected ErrorUnreachable,
     {| world := world m; trace := trace m;
        prepItems := prepItems m ++ [v]; execResults := execResults m |}).
Proof.
  intros Hmax. split; [by apply attempts_none|].
  unfold pipeline, executeWithRetry.
  destruct (maxRetries (config node)) as [|p|p]; [reflexivity | lia | reflexivity].
Qed.

End RetryCalls.

Section RetryContracts.

Context {W G Item Res E : Type}.
Variable node : Node W G Item Res E.
Variable item : Item.

Implicit Types m : Mem W Item Res E.

Lemma retries_onError errors :
  forall attempt error number maxRetries',
    EvOnError error number maxRetries' ∈ retries node item errors attempt ->
    maxRetries' = maxRetries (config node) /\
    attempt + 1 <= number <= attempt + Z.of_nat (length errors).
Proof.
  induction errors as [|e errors IH]; intros attempt error number maxRetries' Hin;
    simpl in Hin.
  - by apply elem_of_nil in Hin.
  - rewrite !elem_of_cons in Hin.
    destruct Hin as [Heq | [Heq | [Heq | Hin]]]; try discriminate.
    + injection Heq as -> -> ->. simpl length. split; [reflexivity | lia].
    + destruct (IH _ _ _ _ Hin) as [-> Hnumber]. simpl length.
      split; [reflexivity | lia].
Qed.

Lemma retries_sleep errors :
  forall attempt ms,
    EvSetTimeout ms ∈ retries node item errors attempt ->
    ms = Z.max (retryDelay (config node)) 0.
Proof.
  induction errors as [|e errors IH]; intros attempt ms Hin; simpl in Hin.
  - by apply elem_of_nil in Hin.
  - rewrite !elem_of_cons in Hin.
    destruct Hin as [Heq | [Heq | [Heq | Hin]]]; try discriminate.
    + by injection Heq as ->.
    + by apply (IH (attempt + 1)).
Qed.

Lemma retries_fallback errors attempt item' error result :
  EvExecFallback item' error result ∉ retries node item errors attempt.
Proof.
  intros Hin. pose proof (count_elem is_fallback _ _ Hin eq_refl) as Hpos.
  rewrite count_fallback_retries in Hpos. lia.
Qed.

Lemma count_sleep_retries errors attempt :
  count is_sleep (retries node item errors attempt) = length errors.
Proof.
  revert attempt; induction errors as [|e errors IH]; intros attempt; simpl;
    [reflexivity|]. by rewrite IH.
Qed.

(** X8. [execFallback] is called at most once in a call of
    [executeWithRetry], as its last call, right after the failed [exec] of
    attempt [maxRetries]; it is given the item and the failure of that
    attempt, and what it returns or throws is what [executeWithRetry] returns
    or throws. *)
Theorem fallback_contract m added item' error result :
  trace (snd (interp node (executeWithRetry node item) m)) = trace m ++ added ->
  EvExecFallback item' error result ∈ added ->
  exists e t,
    item' = item /\ error = Thrown e /\
    added = t ++ [EvExec item (inr e); EvExecFallback item (Thrown e) result] /\
    count is_fallback t = O /\
    Z.of_nat (count is_exec added) = maxRetries (config node) /\
    fst (interp node (executeWithRetry node item) m) = settle result.
Proof.
  intros Htr Hin.
  destruct (executeWithRetry_added node item m)
    as [[_ Hrun] | (Hmax & errors & ending & m' & Hrun & Htr' & Hend)];
    rewrite Hrun in *; simpl in Htr.
  - rewrite <- (app_nil_r (trace m)) in Htr at 1. apply app_inv_head in Htr.
    subst added. by apply elem_of_nil in Hin.
  - rewrite Htr' in Htr. apply app_inv_head in Htr. subst added.
    apply elem_of_app in Hin as [Hin|Hin]; [by apply retries_fallback in Hin|].
    destruct ending as [v|e|e result'|e number thrown]; simpl in Hin;
      rewrite ?elem_of_cons in Hin.
    + destruct Hin as [Heq|Hin]; [discriminate | by apply elem_of_nil in Hin].
    + destruct Hin as [Heq|Hin]; [discriminate | by apply elem_of_nil in Hin].
    + destruct Hin as [Heq|[Heq|Hin]]; [discriminate | | by apply elem_of_nil in Hin].
      injection Heq as -> -> ->. destruct Hend as [Hlen _].
      exists e, (retries node item errors 0).
      split; [reflexivity|]. split; [reflexivity|]. split; [reflexivity|].
      split; [apply count_fallback_retries|].
      split; [|reflexivity].
      rewrite count_app, count_exec_retries. simpl. lia.
    + destruct Hin as [Heq|[Heq|Hin]];
        [discriminate | discriminate | by apply elem_of_nil in Hin].
Qed.

Lemma retries_threw errors attempt error number maxRetries' thrown :
  EvOnErrorThrew error number maxRetries' thrown ∉ retries node item errors attempt.
Proof.
  revert attempt. induction errors as [|e errors IH]; intros attempt Hin; simpl in Hin.
  - by apply elem_of_nil in Hin.
  - rewrite !elem_of_cons in Hin.
    destruct Hin as [Heq | [Heq | [Heq | Hin]]]; try discriminate.
    by apply (IH (attempt + 1)).
Qed.

Lemma count_returned_retries errors attempt :
  count onError_returned (retries node item errors attempt) = length errors.
Proof.
  revert attempt; induction errors as [|e errors IH]; intros attempt; simpl;
    [reflexivity|]. by rewrite IH.
Qed.

(** X9. [onError] is called with [maxRetries] and with the number of a
    failed attempt from 1 to [maxRetries - 1], never for the last attempt,
    whether it returns or throws; each [setTimeout] is given
    [max(retryDelay, 0)] ms, never a negative time; there are as many of
    these sleeps as calls of [onError]
    that returned, and with [maxRetries] at least 1, one call of [exec] more
    than that; and a call of [onError] that throws is the last call, what it
    throws being what [executeWithRetry] throws. *)
Theorem onError_then_sleep m added :
  trace (snd (interp node (executeWithRetry node item) m)) = trace m ++ added ->
  (forall error number maxRetries',
      EvOnError error number maxRetries' ∈ added ->
      maxRetries' = maxRetries (config node) /\
      1 <= number <= maxRetries (config node) - 1) /\
  (forall error number maxRetries' thrown,
      EvOnErrorThrew error number maxRetries' thrown ∈ added ->
      maxRetries' = maxRetries (config node) /\
      1 <= number <= maxRetries (config node) - 1 /\
      (exists t, added = t ++ [EvOnErrorThrew error number maxRetries' thrown]) /\
      fst (interp node (executeWithRetry node item) m) = Rejected (Thrown thrown)) /\
  (forall ms,
      EvSetTimeout ms ∈ added ->
      ms = Z.max (retryDelay (config node)) 0 /\ 0 <= ms) /\
  count is_sleep added = count onError_returned added /\
  (count is_onError added <= S (count is_sleep added))%nat /\
  (1 <= maxRetries (config node) ->
   count is_exec added = S (count is_sleep added)).
Proof.
  intros Htr.
  destruct (executeWithRetry_added node item m)
    as [[Hnone Hrun] | (Hmax & errors & ending & m' & Hrun & Htr' & Hend)];
    rewrite Hrun in *; simpl in Htr.
  - rewrite <- (app_nil_r (trace m)) in Htr at 1. apply app_inv_head in Htr.
    subst added. split; [intros ? ? ? Hin; by apply elem_of_nil in Hin|].
    split; [intros ? ? ? ? Hin; by apply elem_of_nil in Hin|].
    split; [intros ? Hin; by apply elem_of_nil in Hin|].
    split; [reflexivity|]. split; [simpl; lia | lia].
  - rewrite Htr' in Htr. apply app_inv_head in Htr. subst added.
    assert (Hlen : Z.of_nat (length errors) <= maxRetries (config node) - 1)
      by (destruct ending; simpl in Hend; lia).
    split; [|split; [|split; [|split; [|split]]]].
    + intros error number maxRetries' Hin.
      apply elem_of_app in Hin as [Hin|Hin].
      * destruct (retries_onError _ _ _ _ _ Hin) as [-> Hnumber]. split; [reflexivity | lia].
      * destruct ending; simpl in Hin; rewrite ?elem_of_cons in Hin;
          repeat (destruct Hin as [Heq|Hin]; [discriminate|]);
          by apply elem_of_nil in Hin.
    + intros error number maxRetries' thrown Hin.
      apply elem_of_app in Hin as [Hin|Hin]; [by apply retries_threw in Hin|].
      destruct ending as [v|e|e result'|e number' thrown']; simpl in Hin;
        rewrite ?elem_of_cons in Hin.
      * destruct Hin as [Heq|Hin]; [discriminate | by apply elem_of_nil in Hin].
      * destruct Hin as [Heq|Hin]; [discriminate | by apply elem_of_nil in Hin].
      * destruct Hin as [Heq|[Heq|Hin]];
          [discriminate | discriminate | by apply elem_of_nil in Hin].
      * destruct Hin as [Heq|[Heq|Hin]];
          [discriminate | | by apply elem_of_nil in Hin].
        injection Heq as -> -> -> ->. simpl in Hend.
        split; [reflexivity|]. split; [lia|]. split; [|reflexivity].
        exists (retries node item errors 0 ++ [EvExec item (inr e)]).
        simpl. by rewrite <- app_assoc.
    + intros ms Hin.
      apply elem_of_app in Hin as [Hin|Hin].
      * rewrite (retries_sleep _ _ _ Hin). split; [reflexivity | lia].
      * destruct ending; simpl in Hin; rewrite ?elem_of_cons in Hin;
          repeat (destruct Hin as [Heq|Hin]; [discriminate|]);
          by apply elem_of_nil in Hin.
    + rewrite !count_app, count_sleep_retries, count_returned_retries.
      by destruct ending.
    + rewrite !count_app, count_sleep_retries, count_onError_retries.
      destruct ending; simpl; lia.
    + intros _. rewrite !count_app, count_exec_retries, count_sleep_retries.
      destruct ending; simpl; lia.
Qed.

End RetryContracts.

(** On [brittle], with the default three attempts and an [execFallback]. *)
Lemma executeWithRetry_calls_witness :
  1 <= maxRetries (config Examples.brittle) /\
  exists errors ending m',
    interp Examples.brittle (executeWithRetry Examples.brittle "a"%string)
      (Examples.fresh tt) = (ending_outcome ending, m') /\
    trace m' = trace (Examples.fresh tt)
               ++ retries Examples.brittle "a"%string errors 0
               ++ ending_calls Examples.brittle "a"%string ending /\
    ends_after Examples.brittle (length errors) ending.
Proof.
  assert (H : 1 <= maxRetries (config Examples.brittle)) by (vm_compute; discriminate).
  split; [exact H|].
  exact (executeWithRetry_calls Examples.brittle "a"%string (Examples.fresh tt) H).
Defined.

(** On [unwilling], constructed with [{ maxRetries: 0 }]. *)
Lemma no_attempts_witness :
  maxRetries (config Examples.unwilling) <= 0 /\
  interp Examples.unwilling (executeWithRetry Examples.unwilling "a"%string)
    (Examples.fresh tt) = (Rejected ErrorUnreachable, Examples.fresh tt) /\
  interp Examples.unwilling (pipeline Examples.unwilling (Fulfilled "a"%string))
    (Examples.fresh tt)
  = (Rejected ErrorUnreachable,
     {| world := tt; trace := []; prepItems := ["a"%string]; execResults := [] |}).
Proof.
  assert (H : maxRetries (config Examples.unwilling) <= 0) by (vm_compute; discriminate).
  split; [exact H|].
  exact (no_attempts Examples.unwilling "a"%string (Examples.fresh tt) "a"%string H).
Defined.

(** On [degrading], with two attempts, a delay of -5 ms and an
    [execFallback] that returns. *)
Lemma fallback_contract_witness :
  let added : list (Event string string string) :=
    [EvExec "a"%string (inr "no a"%string); EvOnError (Thrown "no a"%string) 1 2;
     EvSetTimeout 0;
     EvExec "a"%string (inr "no a"%string);
     EvExecFallback "a"%string (Thrown "no a"%string) (inl "instead of a"%string)] in
  trace (snd (interp Examples.degrading (executeWithRetry Examples.degrading "a"%string)
                (Examples.fresh tt))) = trace (Examples.fresh tt) ++ added /\
  EvExecFallback "a"%string (Thrown "no a"%string) (inl "instead of a"%string) ∈ added /\
  Z.of_nat (count is_exec added) = maxRetries (config Examples.degrading) /\
  fst (interp Examples.degrading (executeWithRetry Examples.degrading "a"%string)
         (Examples.fresh tt)) = Fulfilled "instead of a"%string.
Proof.
  intros added.
  assert (H1 : trace (snd (interp Examples.degrading
                             (executeWithRetry Examples.degrading "a"%string)
                             (Examples.fresh tt)))
               = trace (Examples.fresh tt) ++ added) by reflexivity.
  assert (H2 : EvExecFallback "a"%string (Thrown "no a"%string)
                 (inl "instead of a"%string) ∈ added).
  { do 4 apply list_elem_of_further. apply list_elem_of_here. }
  split; [exact H1|]. split; [exact H2|].
  destruct (fallback_contract Examples.degrading "a"%string (Examples.fresh tt) added
              "a"%string (Thrown "no a"%string) (inl "instead of a"%string) H1 H2)
    as (e & t & _ & _ & _ & _ & Hcount & Hout).
  split; [exact Hcount | exact Hout].
Defined.

(** On [degrading_loud], whose [onError] throws at the first failure. *)
Lemma onError_then_sleep_witness :
  let added : list (Event string string string) :=
    [EvExec "a"%string (inr "no a"%string);
     EvOnErrorThrew (Thrown "no a"%string) 1 2 "logger down"%string] in
  trace (snd (interp Examples.degrading_loud
                (executeWithRetry Examples.degrading_loud "a"%string)
                (Examples.fresh tt))) = trace (Examples.fresh tt) ++ added /\
  fst (interp Examples.degrading_loud
         (executeWithRetry Examples.degrading_loud "a"%string) (Examples.fresh tt))
  = Rejected (Thrown "logger down"%string) /\
  count is_sleep added = count onError_returned added /\
  (count is_onError added <= S (count is_sleep added))%nat.
Proof.
  intros added.
  assert (H1 : trace (snd (interp Examples.degrading_loud
                             (executeWithRetry Examples.degrading_loud "a"%string)
                             (Examples.fresh tt)))
               = trace (Examples.fresh tt) ++ added) by reflexivity.
  split; [exact H1|].
  destruct (onError_then_sleep Examples.degrading_loud "a"%string (Examples.fresh tt)
              added H1)
    as (_ & Hthrew & _ & Hcount & Hcalls & _).
  split; [|split; [exact Hcount | exact Hcalls]].
  apply (Hthrew (Thrown "no a"%string) 1 2 "logger down"%string).
  apply list_elem_of_further, list_elem_of_here.
Defined.

(** ** Failures of a cycle *)

Section CycleFailures.

Context {W G Item Res E : Type}.
Variable nodes : NodeRef -> Node W G Item Res E.

Implicit Types c : Cycle W G Item Res E.
Implicit Types st : Status W G Item Res E.

(** X10. When the first [next()] of the generator of [prep] throws, [run]
    is rejected with what it threw, whatever the schedule: neither [exec] nor
    [post] has been called, and no edge is followed. *)
Theorem generator_failure r w w' t e idle rest :
  gen_next (nodes r) (prep (nodes r) w) w = (ItThrow e, w') ->
  Pull ∉ idle ->
  schedule nodes (idle ++ Pull :: rest) (start nodes r w t)
  = Failed (Thrown e) w' (t ++ [EvPrep r; EvNextThrew r e]).
Proof.
  intros Hthrow Hidle. unfold start.
  rewrite schedule_app, idle_before_pull; [|reflexivity|by eexists|exact Hidle].
  cbn [schedule]. unfold step at 1. simpl. rewrite Hthrow.
  rewrite schedule_settled by discriminate. by rewrite <- app_assoc.
Qed.

Lemma stages_bounded (stages : list Stage) :
  (sum_list_with results_of stages <= sum_list_with items_of stages <= length stages)%nat.
Proof.
  induction stages as [|s stages IH]; simpl; [lia|]. destruct s; simpl; lia.
Qed.

(** X11. At every point of a run, the cycle that is running has at most as
    many results as items in its arrays, at most as many items as pipelines,
    and one pipeline for each item the generator has yielded. *)
Theorem arrays_bounded sched r w c :
  run nodes sched r w = Running c ->
  (length (execResults (mem c)) <= length (prepItems (mem c))
   <= length (execPromises c))%nat /\
  length (execPromises c) = yielded (trace (mem c)).
Proof.
  intros Hrun. pose proof (tidy_run nodes sched r w) as Htidy. rewrite Hrun in Htidy.
  destruct Htidy as (stages & Hst & Hitems & Hresults & Hyield).
  split; [|exact Hyield].
  rewrite Hitems, Hresults, <- (Forall2_length _ _ _ Hst). apply stages_bounded.
Qed.

Lemma rejected_not_fulfilled (ps : list (Prog Item Res E unit)) i e :
  ps !! i = Some (Throw e) -> forallb is_fulfilled ps = false.
Proof.
  revert i; induction ps as [|p ps IH]; intros [|i] Hi; simpl in *; try discriminate.
  - by injection Hi as ->.
  - rewrite (IH i Hi). apply andb_false_r.
Qed.

Lemma step_keeps_rejection c ch i e :
  execPromises c !! i = Some (Throw e) ->
  match step nodes ch c with
  | Running c' => node c' = node c /\ execPromises c' !! i = Some (Throw e)
  | Returned _ _ => False
  | Failed _ _ _ => True
  end.
Proof.
  intros Hi. unfold step. destruct ch as [|j|].
  - destruct (driver c) as [g|rej]; [|done].
    destruct (gen_next _ g _) as [[value g'| |err] w1]; [| |done].
    + destruct (advance _ _ _) as [p m']. simpl. split; [reflexivity|].
      by apply lookup_app_l_Some.
    + done.
  - destruct (execPromises c !! j) as [p|] eqn:Hj; [|done].
    destruct (decide (j = i)) as [->|Hne].
    + rewrite Hi in Hj. injection Hj as <-. simpl. split; [reflexivity|].
      apply list_lookup_insert_eq. by eapply lookup_lt_Some.
    + destruct (resume _ p _) as [p' m']. simpl. split; [reflexivity|].
      by rewrite list_lookup_insert_ne.
  - destruct (driver c) as [g|[err|]]; [done | done |].
    by rewrite (rejected_not_fulfilled _ i e Hi).
Qed.

(** X12. Once a pipeline of a cycle is rejected, whatever the schedule
    [post] is not called in that cycle and [run] does not return: the cycle
    goes on, with that pipeline rejected, until [run] is rejected. *)
Theorem rejection_is_final c i e sched :
  execPromises c !! i = Some (Throw e) ->
  count is_post (status_trace (schedule nodes sched (Running c)))
  = count is_post (trace (mem c)) /\
  (forall w t, schedule nodes sched (Running c) <> Returned w t) /\
  (forall c', schedule nodes sched (Running c) = Running c' ->
     node c' = node c /\ execPromises c' !! i = Some (Throw e)).
Proof.
  intros Hi.
  pose (Inv := fun st =>
    count is_post (status_trace st) = count is_post (trace (mem c)) /\
    match st with
    | Running c' => node c' = node c /\ execPromises c' !! i = Some (Throw e)
    | Returned _ _ => False
    | Failed _ _ _ => True
    end).
  assert (Hinv : Inv (schedule nodes sched (Running c))).
  { apply (schedule_invariant nodes Inv); [|by split].
    intros c1 ch [Hcount [Hnode Hi1]]. simpl in Hcount.
    pose proof (step_keeps_rejection c1 ch i e Hi1) as Hkeep.
    destruct (step_added nodes c1 ch) as (added & Htr & Hcase).
    split.
    - rewrite Htr, count_app, Hcount.
      destruct Hcase as [[Hnone _] | (_ & _ & Hall & _)]; [lia|].
      by rewrite (rejected_not_fulfilled _ i e Hi1) in Hall.
    - destruct (step nodes ch c1) as [c2|w t|err w t]; [|done|done].
      destruct Hkeep as [Hnode2 Hi2]. split; [congruence | exact Hi2]. }
  destruct Hinv as [Hcount Hst]. split; [exact Hcount|].
  split.
  - intros w t Heq. by rewrite Heq in Hst.
  - intros c' Heq. by rewrite Heq in Hst.
Qed.

End CycleFailures.

(** On [faulty], whose generator throws at its first [next()]. *)
Lemma generator_failure_witness :
  gen_next Examples.faulty (prep Examples.faulty tt) tt
  = (ItThrow "prep failed"%string, tt) /\
  (Pull ∉ [Settle O; Join]) /\
  schedule (fun _ => Examples.faulty) ([Settle O; Join] ++ Pull :: [Join; Pull])
    (start (fun _ => Examples.faulty) O tt [])
  = Failed (Thrown "prep failed"%string) tt
      ([] ++ [EvPrep O; EvNextThrew O "prep failed"%string]).
Proof.
  assert (H1 : gen_next Examples.faulty (prep Examples.faulty tt) tt
               = (ItThrow "prep failed"%string, tt)) by reflexivity.
  assert (H2 : Pull ∉ [Settle O; Join]) by compute_done.
  split; [exact H1|]. split; [exact H2|].
  exact (generator_failure (fun _ => Examples.faulty) O tt tt []
           "prep failed"%string [Settle O; Join] [Join; Pull] H1 H2).
Defined.

(** On [echo], once both pipelines are fulfilled. *)
Lemma arrays_bounded_witness :
  let c : Cycle unit (list string) string string string :=
    {| mem := {| world := tt;
                 trace := [EvPrep O; EvNext O (Some (YValue "a"%string));
                           EvNext O (Some (YValue "b"%string));
                           EvExec "b"%string (inl "echo b"%string);
                           EvExec "a"%string (inl "echo a"%string);
                           EvNext O None];
                 prepItems := ["a"; "b"]%string;
                 execResults := ["echo b"; "echo a"]%string |};
       node := O;
       execPromises := [Ret tt; Ret tt];
       driver := AtAll None |} in
  run (fun _ => Examples.echo) Examples.second_settles_first O tt = Running c /\
  (length (execResults (mem c)) <= length (prepItems (mem c))
   <= length (execPromises c))%nat /\
  length (execPromises c) = yielded (trace (mem c)).
Proof.
  intros c.
  assert (H : run (fun _ => Examples.echo) Examples.second_settles_first O tt
              = Running c) by reflexivity.
  split; [exact H|].
  exact (arrays_bounded (fun _ => Examples.echo) Examples.second_settles_first O tt c H).
Defined.

(** On a cycle of [echo] whose first item was a promise that has been
    rejected. *)
Lemma rejection_is_final_witness :
  let c : Cycle unit (list string) string string string :=
    {| mem := {| world := tt;
                 trace := [EvPrep O; EvNext O (Some (YPromise (inr "lost"%string)))];
                 prepItems := [];
                 execResults := [] |};
       node := O;
       execPromises := [Throw (Thrown "lost"%string)];
       driver := AtNext ["b"%string] |} in
  let st := schedule (fun _ => Examples.echo) [Pull; Settle O; Settle 1%nat; Pull; Join]
              (Running c) in
  execPromises c !! O = Some (Throw (Thrown "lost"%string)) /\
  count is_post (status_trace st) = count is_post (trace (mem c)) /\
  (forall w t, st <> Returned w t).
Proof.
  intros c st.
  assert (H : execPromises c !! O = Some (Throw (Thrown "lost"%string))) by reflexivity.
  split; [exact H|].
  destruct (rejection_is_final (fun _ => Examples.echo) c O (Thrown "lost"%string)
              [Pull; Settle O; Settle 1%nat; Pull; Join] H) as (Hcount & Hreturn & _).
  split; [exact Hcount | exact Hreturn].
Defined.

(** ** The arrays [post] is called with *)

Section Matching.

Context {W G Item Res E : Type}.
Variable nodes : NodeRef -> Node W G Item Res E.

Implicit Types c : Cycle W G Item Res E.
Implicit Types m : Mem W Item Res E.
Implicit Types s : Pushed Item Res E.

Lemma news_same {A} (f : Pushed Item Res E -> option A) s : news f s s = [].
Proof. unfold news. by destruct (f s). Qed.

Lemma pushed_refl s m : pushed s s m m.
Proof. unfold pushed, keeps. rewrite !news_same, !app_nil_r. done. Qed.

Lemma yields_quiet (t l : list (Event Item Res E)) :
  forallb quiet_event l = true -> yields (t ++ l) = yields t.
Proof.
  unfold yields. rewrite foldl_app. generalize (foldl
    (fun l0 ev => match ev with
                  | EvPrep _ => [] | EvNext _ (Some value) => l0 ++ [value] | _ => l0
                  end) [] t).
  induction l as [|ev l IH]; intros l0 Hq; simpl in *; [reflexivity|].
  apply andb_prop in Hq as [Hev Hl]. rewrite IH by exact Hl.
  destruct ev; simpl in Hev; try discriminate; reflexivity.
Qed.

Lemma yields_snoc (t : list (Event Item Res E)) ev :
  yields (t ++ [ev]) =
  match ev with
  | EvPrep _ => []
  | EvNext _ (Some value) => yields t ++ [value]
  | _ => yields t
  end.
Proof. unfold yields. rewrite foldl_app. reflexivity. Qed.

Lemma pushed_after (n : Node W G Item Res E) s s' m m1 m' :
  prepItems m1 = prepItems m -> execResults m1 = execResults m ->
  pushed s s' m1 m' -> pushed s s' m m'.
Proof. unfold pushed. by intros <- <-. Qed.

Lemma pushed_item v s' m m' :
  pushed (TheItem v) s'
    {| world := world m; trace := trace m;
       prepItems := prepItems m ++ [v]; execResults := execResults m |} m' ->
  pushed (Nothing (Fulfilled v)) s' m m'.
Proof.
  unfold pushed, keeps, news. simpl. intros (Hi & Hr & Hki & Hkr & Hp).
  rewrite (Hki v eq_refl) in *. rewrite app_nil_r in Hi.
  split; [exact Hi|]. split; [exact Hr|]. split; [intros a; discriminate|].
  split; [intros a; discriminate | exact Hp].
Qed.

Lemma advance_carries (n : Node W G Item Res E) s (p : Prog Item Res E unit) :
  carries n s p ->
  forall m, exists s',
    carries n s' (fst (advance n p m)) /\ pushed s s' m (snd (advance n p m)).
Proof.
  induction 1 as [v result Hr|s e Hs|s X c k Hs Hc Hk IH|v k Hk IH|v result k Hr Hk];
    intros m.
  - exists (Both v result). split; [by constructor | apply pushed_refl].
  - exists s. split; [by constructor | apply pushed_refl].
  - simpl. destruct (is_async c).
    + exists s. split; [by constructor | apply pushed_refl].
    + destruct (perform_arrays n c m Hc) as [Hi Hr].
      specialize (IH m (snd (perform n c m))).
      destruct (perform n c m) as [o m1]. simpl in *.
      destruct IH as (s' & Hs' & Hp). exists s'. split; [exact Hs'|].
      by apply (pushed_after n s s' m m1).
  - simpl.
    match goal with
    | |- context [advance n _ ?m1] => destruct (IH m1) as (s' & Hs' & Hp)
    end.
    exists s'. split; [exact Hs' | by apply (pushed_item v)].
  - simpl. rewrite Hk. simpl. exists (Both v result). split; [by constructor|].
    unfold pushed, keeps, news. simpl. rewrite app_nil_r.
    split; [reflexivity|]. split; [reflexivity|]. split; [by intros a [= <-]|].
    split; [discriminate | reflexivity].
Qed.

Lemma resume_carries (n : Node W G Item Res E) s (p : Prog Item Res E unit) m :
  carries n s p ->
  exists s', carries n s' (fst (resume n p m)) /\ pushed s s' m (snd (resume n p m)).
Proof.
  intros Hp. destruct Hp as [v result Hr|s e Hs|s X c k Hs Hc Hk|v k Hk|v result k Hr Hk].
  - exists (Both v result). split; [by constructor | apply pushed_refl].
  - exists s. split; [by constructor | apply pushed_refl].
  - simpl. destruct (perform_arrays n c m Hc) as [Hi Hr].
    specialize (Hk m). destruct (perform n c m) as [o m1]. simpl in *.
    destruct (advance_carries n s (k o) Hk m1) as (s' & Hs' & Hp).
    exists s'. split; [exact Hs'|]. by apply (pushed_after n s s' m m1).
  - simpl.
    match goal with
    | |- context [advance n _ ?m1] =>
        destruct (advance_carries n _ _ Hk m1) as (s' & Hs' & Hp)
    end.
    exists s'. split; [exact Hs' | by apply (pushed_item v)].
  - simpl. rewrite Hk. simpl. exists (Both v result). split; [by constructor|].
    unfold pushed, keeps, news. simpl. rewrite app_nil_r.
    split; [reflexivity|]. split; [reflexivity|]. split; [by intros a [= <-]|].
    split; [discriminate | reflexivity].
Qed.

Lemma attempts_carries (n : Node W G Item Res E) v (f : Res -> Prog Item Res E unit) :
  (forall result, result_for n v result -> carries n (TheItem v) (f result)) ->
  forall remaining attempt,
    carries n (TheItem v) (bind (attempts n v remaining attempt) f).
Proof.
  intros Hf. induction remaining as [|remaining IH]; intros attempt; simpl.
  - by constructor.
  - apply carries_call; [done | done |]. intros m. simpl.
    destruct (exec n v (world m)) as [[result|e] w] eqn:Hexec; simpl.
    { apply Hf. exists (world m). left. by rewrite Hexec. }
    destruct (attempt =? maxRetries (config n) - 1).
    + destruct (execFallback n) as [fallback|] eqn:Hfb; simpl; [|by constructor].
      apply carries_call; [done | done |]. intros m1. simpl. rewrite Hfb.
      destruct (fallback v (Thrown e) (world m1)) as [[result|e'] w'] eqn:Hcall; simpl;
        [|by constructor].
      apply Hf. exists (world m1). right. exists fallback, (Thrown e).
      split; [exact Hfb|]. by rewrite Hcall.
    + simpl. apply carries_call; [done | done |]. intros m1. simpl.
      destruct (onError _ _ _ _ _) as [[[]|e1] w1]; simpl; [|by constructor].
      apply carries_call; [done | done |]. intros m2. simpl. apply IH.
Qed.

Lemma pipeline_carries (n : Node W G Item Res E) item :
  carries n (Nothing item) (pipeline n item).
Proof.
  unfold pipeline. simpl. apply carries_call; [done | done |]. intros m. simpl.
  destruct item as [v|e]; simpl; [|by constructor].
  apply carries_push_item. simpl.
  apply carries_call; [done | done |]. intros m1. simpl.
  apply attempts_carries. intros result Hr. simpl. by apply carries_push_result.
Qed.

Lemma omap_insert_news {A} (f : Pushed Item Res E -> option A) (stages : list (Pushed Item Res E))
    i s s' :
  stages !! i = Some s -> keeps f s s' ->
  omap f (<[i:=s']> stages) ≡ₚ omap f stages ++ news f s s'.
Proof.
  unfold keeps, news. intros Hi Hkeep.
  revert i Hi; induction stages as [|x stages IH]; intros [|i] Hi; simpl in *;
    try discriminate.
  - injection Hi as ->. destruct (f s) as [a|] eqn:Hs.
    + rewrite (Hkeep a eq_refl), app_nil_r. done.
    + destruct (f s') as [a|]; [|by rewrite app_nil_r].
      apply Permutation_cons_append.
  - specialize (IH i Hi). destruct (f x); [|exact IH]. simpl. by rewrite IH.
Qed.

End Matching.

Section MatchedArrays.

Context {W G Item Res E : Type}.
Variable nodes : NodeRef -> Node W G Item Res E.

Implicit Types c : Cycle W G Item Res E.
Implicit Types m : Mem W Item Res E.

Lemma omap_news {A} (f : Pushed Item Res E -> option A) item (s' : Pushed Item Res E) :
  f (Nothing item) = None -> omap f [s'] = news f (Nothing item) s'.
Proof. unfold news. intros ->. simpl. by destruct (f s'). Qed.

Lemma promise_insert (stages : list (Pushed Item Res E)) i s s' :
  stages !! i = Some s -> promise_of s' = promise_of s ->
  promise_of <$> <[i:=s']> stages = promise_of <$> stages.
Proof.
  intros Hi Hp. rewrite list_fmap_insert, Hp. apply list_insert_id.
  by rewrite list_lookup_fmap, Hi.
Qed.

Lemma paired_start r w t : paired_status nodes (start nodes r w t).
Proof.
  exists []. simpl. split; [constructor|]. split; [done|]. split; [done|].
  by rewrite yields_snoc.
Qed.

Lemma paired_route n action w t : paired_status nodes (route nodes n action w t).
Proof.
  unfold route. destruct action; try exact I;
    (destruct (truthy _); [|exact I]);
    (destruct (js_or _ _) as [a|r]; [exact I | apply paired_start]).
Qed.

Lemma paired_aggregate c : paired_status nodes (aggregate nodes c).
Proof.
  unfold aggregate. destruct (post _ _ _ _) as [[action|e] w];
    [apply paired_route | exact I].
Qed.

Lemma paired_step c ch : paired nodes c -> paired_status nodes (step nodes ch c).
Proof.
  intros (stages & Hst & Hitems & Hresults & Hpromises).
  unfold step. destruct ch as [|i|].
  - destruct (driver c) as [g|rej] eqn:Hd; [|by exists stages].
    destruct (gen_next _ g _) as [[value g'| |e] w]; [| |exact I].
    + pose proof (advance_carries (nodes (node c)) (Nothing (item_promise value)) _
                    (pipeline_carries (nodes (node c)) (item_promise value))
                    (log (EvNext (node c) (Some value)) w (mem c)))
        as (s' & Hs' & Hpi & Hpr & _ & _ & Hp).
      pose proof (advance_trace (nodes (node c))
                    (pipeline (nodes (node c)) (item_promise value))
                    (log (EvNext (node c) (Some value)) w (mem c)))
        as (l & Hl & Hq).
      destruct (advance _ _ _) as [p m']. simpl in *.
      exists (stages ++ [s']). simpl. split; [by apply Forall2_app; [|constructor]|].
      rewrite !omap_app, !(omap_news _ (item_promise value)) by reflexivity.
      rewrite Hpi, Hpr, Hitems, Hresults. split; [done|]. split; [done|].
      rewrite Hl, yields_quiet, yields_snoc, !fmap_app by exact Hq.
      simpl. by rewrite Hpromises, Hp.
    + exists stages. simpl. by rewrite yields_snoc.
  - destruct (execPromises c !! i) as [p|] eqn:Hp; [|by exists stages].
    destruct (Forall2_lookup_r _ _ _ _ _ Hst Hp) as (s & Hs & Hsp).
    destruct (resume_carries (nodes (node c)) s p (mem c) Hsp)
      as (s' & Hs' & Hpi & Hpr & Hki & Hkr & Hkp).
    destruct (resume_trace (nodes (node c)) p (mem c)) as (l & Hl & Hq).
    destruct (resume _ p _) as [p' m']. simpl in *.
    exists (<[i:=s']> stages). simpl.
    split; [by apply Forall2_insert|].
    rewrite (omap_insert_news item_of stages i s s' Hs Hki).
    rewrite (omap_insert_news result_of stages i s s' Hs Hkr).
    rewrite Hpi, Hpr, Hitems, Hresults. split; [done|]. split; [done|].
    by rewrite (promise_insert stages i s s' Hs Hkp), Hl, yields_quiet.
  - destruct (driver c) as [g|[e|]]; [by exists stages | exact I |].
    destruct (forallb _ _); [apply paired_aggregate | by exists stages].
Qed.

Lemma paired_run sched r w : paired_status nodes (run nodes sched r w).
Proof.
  unfold run. apply (schedule_invariant nodes (paired_status nodes)).
  - intros c ch Hc. by apply paired_step.
  - apply paired_start.
Qed.

(** When every pipeline is fulfilled, each has pushed its item and a result
    for it. *)
Lemma carried_pairs (n : Node W G Item Res E) (stages : list (Pushed Item Res E))
    (ps : list (Prog Item Res E unit)) :
  Forall2 (carries n) stages ps -> forallb is_fulfilled ps = true ->
  omap item_of stages = (omap pair_of stages).*1 /\
  omap result_of stages = (omap pair_of stages).*2 /\
  Forall (fun p => result_for n p.1 p.2) (omap pair_of stages) /\
  promise_of <$> stages = Fulfilled <$> (omap pair_of stages).*1.
Proof.
  induction 1 as [|s p stages ps Hsp Hst IH]; simpl; intros Hall; [done|].
  apply andb_prop in Hall as [Hp Hall].
  destruct (IH Hall) as (IH1 & IH2 & IH3 & IH4).
  destruct Hsp; simpl in Hp; try discriminate. simpl.
  split; [f_equal; exact IH1|]. split; [f_equal; exact IH2|].
  split; [by constructor|]. f_equal. exact IH4.
Qed.

(** X13. In any run and under any schedule, the arrays [post] is called
    with hold the same pairs: every promise the generator has yielded in the
    cycle was resolved to an item, and there is a list that pairs each of
    these items, in the order they were yielded, with a result that [exec] or
    [execFallback] returned for that very item, of which [prepItems] holds
    the items and [execResults] the results, each in some order; and [post]
    is that of the node of the cycle. *)
Theorem results_match_items sched r w c ch added r' items results res :
  run nodes sched r w = Running c ->
  status_trace (step nodes ch c) = trace (mem c) ++ added ->
  EvPost r' items results res ∈ added ->
  r' = node c /\
  matched (nodes (node c)) (item_promise <$> yields (trace (mem c))) items results.
Proof.
  intros Hrun Hadded Hin.
  pose proof (paired_run sched r w) as Hpaired. rewrite Hrun in Hpaired.
  destruct (step_added nodes c ch) as (added' & Htr & Hcase).
  rewrite Htr in Hadded. apply app_inv_head in Hadded. subst added'.
  destruct Hcase as [[Hnone _] | (-> & Hd & Hall & res' & rest & -> & Hrest)].
  { pose proof (count_elem is_post _ _ Hin eq_refl). lia. }
  apply elem_of_cons in Hin as [Heq | Hin];
    [|pose proof (count_elem is_post _ _ Hin eq_refl); lia].
  injection Heq as -> -> -> ->. split; [reflexivity|].
  destruct Hpaired as (stages & Hst & Hitems & Hresults & Hpromises).
  destruct (carried_pairs _ stages _ Hst Hall) as (H1 & H2 & H3 & H4).
  exists (omap pair_of stages).
  split; [by rewrite <- Hpromises|].
  split; [by rewrite <- H1|]. split; [by rewrite <- H2 | exact H3].
Qed.

End MatchedArrays.

(** On [echo], when the [exec] of the second item settles first: the arrays
    of [post] are not aligned, and are matched. *)
Lemma results_match_items_witness :
  let c : Cycle unit (list string) string string string :=
    {| mem := {| world := tt;
                 trace := [EvPrep O; EvNext O (Some (YValue "a"%string));
                           EvNext O (Some (YValue "b"%string));
                           EvExec "b"%string (inl "echo b"%string);
                           EvExec "a"%string (inl "echo a"%string);
                           EvNext O None];
                 prepItems := ["a"; "b"]%string;
                 execResults := ["echo b"; "echo a"]%string |};
       node := O;
       execPromises := [Ret tt; Ret tt];
       driver := AtAll None |} in
  let posted : Event string string string :=
    EvPost O ["a"; "b"]%string ["echo b"; "echo a"]%string (inl ANull) in
  run (fun _ => Examples.echo) Examples.second_settles_first O tt = Running c /\
  status_trace (step (fun _ => Examples.echo) Join c) = trace (mem c) ++ [posted] /\
  posted ∈ [posted] /\
  matched Examples.echo [Fulfilled "a"%string; Fulfilled "b"%string]
    ["a"; "b"]%string ["echo b"; "echo a"]%string.
Proof.
  intros c posted.
  assert (H1 : run (fun _ => Examples.echo) Examples.second_settles_first O tt
               = Running c) by reflexivity.
  assert (H2 : status_trace (step (fun _ => Examples.echo) Join c)
               = trace (mem c) ++ [posted]) by reflexivity.
  assert (H3 : posted ∈ [posted]) by apply list_elem_of_here.
  split; [exact H1|]. split; [exact H2|]. split; [exact H3|].
  exact (proj2 (results_match_items (fun _ => Examples.echo)
                  Examples.second_settles_first O tt c Join [posted] O
                  ["a"; "b"]%string ["echo b"; "echo a"]%string (inl ANull) H1 H2 H3)).
Defined.

(** ** Retries exhausted and a fallback that returns: the cycle *)

Section FallbackResults.

Context {W G Item Res E : Type}.
Variable nodes : NodeRef -> Node W G Item Res E.

Lemma paired_schedule sched r w t :
  paired_status nodes (schedule nodes sched (start nodes r w t)).
Proof.
  apply (schedule_invariant nodes (paired_status nodes)).
  - intros c ch Hc. by apply paired_step.
  - apply paired_start.
Qed.

(** When [exec] fails at every attempt, a result for an item is what
    [execFallback] returned for it. *)
Lemma result_is_fallback (n : Node W G Item Res E) item result :
  always_fails n -> result_for n item result -> fallback_for n item result.
Proof.
  intros Hfails [w' [Hexec | (fallback & error & Hfb & Hv)]].
  - destruct (Hfails item w') as [e He]. rewrite He in Hexec. discriminate.
  - by exists fallback, error, w'.
Qed.

(** The arrays of a step that calls [post]. *)
Lemma posted_pairs c ch added r' items results res :
  paired nodes c ->
  status_trace (step nodes ch c) = trace (mem c) ++ added ->
  EvPost r' items results res ∈ added ->
  r' = node c /\
  exists pairs : list (Item * Res),
    item_promise <$> yields (trace (mem c)) = Fulfilled <$> pairs.*1 /\
    items ≡ₚ pairs.*1 /\ results ≡ₚ pairs.*2 /\
    Forall (fun p => result_for (nodes (node c)) p.1 p.2) pairs.
Proof.
  intros (stages & Hst & Hitems & Hresults & Hpromises) Hadded Hin.
  destruct (step_added nodes c ch) as (added' & Htr & Hcase).
  rewrite Htr in Hadded. apply app_inv_head in Hadded. subst added'.
  destruct Hcase as [[Hnone _] | (-> & Hd & Hall & res' & rest & -> & Hrest)].
  { pose proof (count_elem is_post _ _ Hin eq_refl). lia. }
  apply elem_of_cons in Hin as [Heq | Hin];
    [|pose proof (count_elem is_post _ _ Hin eq_refl); lia].
  injection Heq as -> -> -> ->. split; [reflexivity|].
  destruct (carried_pairs _ stages _ Hst Hall) as (H1 & H2 & H3 & H4).
  exists (omap pair_of stages).
  split; [by rewrite <- Hpromises|].
  split; [by rewrite <- H1|]. split; [by rewrite <- H2 | exact H3].
Qed.

End FallbackResults.

(** C4, amended.  A node with [maxRetries] at least 1, an [exec] that fails
    at every attempt, an [execFallback] that returns and an [onError] that
    returns: [executeWithRetry] returns what [execFallback] returned for the
    item, after [maxRetries] calls of [exec] and with the call of
    [execFallback] as its last call; and wherever in a traversal a cycle of
    this node begins ([t0] is what has been called before), as long as [post]
    has not been called in this cycle [run] has neither failed nor returned;
    when [post] is called in this cycle, it is the [post] of this node, and
    its two arrays hold, each in some order, the items that the generator has
    yielded and, for each of them, a value that [execFallback] returned for
    it; and whatever has happened so far the promises can still settle so
    that [post] is called. *)
Theorem fallback_completes_cycle {W G Item Res E : Type}
    (nodes : NodeRef -> Node W G Item Res E) (r : NodeRef) (w : W)
    (t0 : list (Event Item Res E)) :
  1 <= maxRetries (config (nodes r)) ->
  always_fails (nodes r) ->
  fallback_returns (nodes r) ->
  onError_returns (nodes r) ->
  produces (nodes r) (prep (nodes r) w) ->
  (forall item m, exists v error m' t,
      interp (nodes r) (executeWithRetry (nodes r) item) m = (Fulfilled v, m') /\
      trace m' = trace m ++ t ++ [EvExecFallback item error (inl v)] /\
      Z.of_nat (count is_exec t) = maxRetries (config (nodes r)) /\
      count is_fallback t = O /\
      fallback_for (nodes r) item v) /\
  (forall sched,
      let st := schedule nodes sched (start nodes r w t0) in
      ((count is_post (status_trace st) <= count is_post t0)%nat ->
       exists c, st = Running c) /\
      (forall c ch added r' items results res,
          st = Running c ->
          count is_post (trace (mem c)) = count is_post t0 ->
          status_trace (step nodes ch c) = trace (mem c) ++ added ->
          EvPost r' items results res ∈ added ->
          r' = r /\
          exists pairs : list (Item * Res),
            item_promise <$> yields (trace (mem c)) = Fulfilled <$> pairs.*1 /\
            items ≡ₚ pairs.*1 /\ results ≡ₚ pairs.*2 /\
            Forall (fun p => fallback_for (nodes r) p.1 p.2) pairs) /\
      (exists sched',
          (count is_post t0 <
           count is_post
             (status_trace (schedule nodes (sched ++ sched') (start nodes r w t0))))%nat)).
Proof.
  intros Hmax Hfails Hfallback Hquiet Hproduces. split.
  - intros item m.
    destruct (attempts_fallback (nodes r) item Hfails Hfallback Hquiet
                (Z.to_nat (maxRetries (config (nodes r)))) 0 m)
      as (v & error & m' & t & Hrun & Htr & Hex & Hfbk & Hv); [lia | lia |].
    exists v, error, m', t. split; [exact Hrun|]. split; [exact Htr|].
    split; [lia|]. split; [exact Hfbk | exact Hv].
  - intros sched st.
    pose proof (safe_schedule nodes r t0 Hmax Hfallback Hquiet sched _
                  (safe_start nodes r w t0 Hproduces)) as Hrun.
    fold st in Hrun. split; [|split].
    + intros Hzero. destruct Hrun as [Hposted | (c & Hc & _)]; [lia | by exists c].
    + intros c ch added r' items results res Hst Hcount Hadded Hin.
      pose proof (paired_schedule nodes sched r w t0) as Hpaired.
      fold st in Hpaired. rewrite Hst in Hrun, Hpaired.
      assert (Hnode : node c = r).
      { destruct Hrun as [Hposted | (c0 & [= <-] & (Hnode & _) & _)];
          [simpl in Hposted; lia | exact Hnode]. }
      destruct (posted_pairs nodes c ch added r' items results res Hpaired Hadded Hin)
        as (-> & pairs & Hpromises & Hitems & Hresults & Hpairs).
      split; [exact Hnode|]. exists pairs.
      split; [exact Hpromises|]. split; [exact Hitems|]. split; [exact Hresults|].
      rewrite Hnode in Hpairs. eapply Forall_impl; [exact Hpairs|].
      intros [item result] Hr. by apply result_is_fallback.
    + setoid_rewrite schedule_app. fold st.
      by apply (safe_can_post nodes r t0 Hmax Hfallback Hquiet).
Qed.

(** On [degrading], with two attempts and a negative delay, run from the
    start until its one pipeline is fulfilled and the generator is done. *)
Lemma fallback_completes_cycle_witness :
  let c : Cycle unit (list string) string string string :=
    {| mem := {| world := tt;
                 trace := [EvPrep O; EvNext O (Some (YValue "a"%string));
                           EvExec "a"%string (inr "no a"%string);
                           EvOnError (Thrown "no a"%string) 1 2;
                           EvSetTimeout 0;
                           EvExec "a"%string (inr "no a"%string);
                           EvExecFallback "a"%string (Thrown "no a"%string)
                             (inl "instead of a"%string);
                           EvNext O None];
                 prepItems := ["a"%string];
                 execResults := ["instead of a"%string] |};
       node := O;
       execPromises := [Ret tt];
       driver := AtAll None |} in
  let sched := [Pull] ++ replicate 6 (Settle O) ++ [Pull] in
  let posted : Event string string string :=
    EvPost O ["a"%string] ["instead of a"%string] (inl AUndefined) in
  1 <= maxRetries (config Examples.degrading) /\
  always_fails Examples.degrading /\
  fallback_returns Examples.degrading /\
  onError_returns Examples.degrading /\
  produces Examples.degrading (prep Examples.degrading tt) /\
  schedule (fun _ => Examples.degrading) sched
    (start (fun _ => Examples.degrading) O tt []) = Running c /\
  status_trace (step (fun _ => Examples.degrading) Join c) = trace (mem c) ++ [posted] /\
  exists pairs : list (string * string),
    ["a"%string] ≡ₚ pairs.*1 /\ ["instead of a"%string] ≡ₚ pairs.*2 /\
    Forall (fun p => fallback_for Examples.degrading p.1 p.2) pairs.
Proof.
  intros c sched posted.
  assert (H1 : 1 <= maxRetries (config Examples.degrading)) by (vm_compute; discriminate).
  assert (H2 : always_fails Examples.degrading).
  { intros item w. by eexists. }
  assert (H3 : fallback_returns Examples.degrading).
  { eexists. split; [reflexivity|]. intros item error w. by eexists. }
  assert (H4 : onError_returns Examples.degrading) by (intros error a mx w; reflexivity).
  assert (H5 : produces Examples.degrading (prep Examples.degrading tt)).
  { by apply produces_yield_each. }
  assert (H6 : schedule (fun _ => Examples.degrading) sched
                 (start (fun _ => Examples.degrading) O tt []) = Running c)
    by reflexivity.
  assert (H7 : status_trace (step (fun _ => Examples.degrading) Join c)
               = trace (mem c) ++ [posted]) by reflexivity.
  split; [exact H1|]. split; [exact H2|]. split; [exact H3|]. split; [exact H4|].
  split; [exact H5|]. split; [exact H6|]. split; [exact H7|].
  destruct (fallback_completes_cycle (fun _ => Examples.degrading) O tt []
              H1 H2 H3 H4 H5) as [_ Hcycle].
  destruct (Hcycle sched) as (_ & Hposted & _).
  destruct (Hposted c Join [posted] O ["a"%string] ["instead of a"%string]
              (inl AUndefined) H6 eq_refl H7 (list_elem_of_here _ _))
    as (_ & pairs & _ & Hitems & Hresults & Hpairs).
  exists pairs. split; [exact Hitems|]. split; [exact Hresults | exact Hpairs].
Defined.

(** ** The calls of [exec] in a cycle *)

Section ExecBudget.

Context {W G Item Res E : Type}.
Variable nodes : NodeRef -> Node W G Item Res E.

Implicit Types c : Cycle W G Item Res E.
Implicit Types m : Mem W Item Res E.
Implicit Types p : Prog Item Res E unit.

Lemma within_more k p : within k p -> forall k', (k <= k')%nat -> within k' p.
Proof.
  induction 1 as [k|k e|k item K HK IH|k X c K Hc HK IH]; intros k' Hle.
  - constructor.
  - constructor.
  - destruct k' as [|k']; [lia|]. constructor. intros o. apply IH. lia.
  - constructor; [exact Hc|]. intros o. by apply IH.
Qed.

Lemma execs_quiet (t l : list (Event Item Res E)) :
  forallb quiet_event l = true -> execs (t ++ l) = (execs t + count is_exec l)%nat.
Proof.
  unfold execs. rewrite foldl_app. generalize (foldl
    (fun n ev => match ev with
                 | EvPrep _ => O | EvExec _ _ => S n | _ => n end) O t).
  induction l as [|ev l IH]; intros n Hq; simpl in *; [lia|].
  apply andb_prop in Hq as [Hev Hl].
  destruct ev; simpl in Hev; try discriminate; rewrite IH by exact Hl; simpl; lia.
Qed.

Lemma execs_snoc (t : list (Event Item Res E)) ev :
  execs (t ++ [ev]) =
  match ev with
  | EvPrep _ => O
  | EvExec _ _ => S (execs t)
  | _ => execs t
  end.
Proof. unfold execs. rewrite foldl_app. reflexivity. Qed.

Lemma perform_execs (n : Node W G Item Res E) {X} (c : Call Item Res E X) m :
  exists l,
    trace (snd (perform n c m)) = trace m ++ l /\ forallb quiet_event l = true /\
    count is_exec l = if is_exec_call c then 1%nat else O.
Proof.
  destruct c; simpl.
  - exists []. by rewrite app_nil_r.
  - destruct (exec n item (world m)) as [r w]. simpl. by eexists [_].
  - destruct (execFallback n) as [fb|]; simpl.
    + destruct (fb item error (world m)) as [r w]. simpl. by eexists [_].
    + exists []. by rewrite app_nil_r.
  - destruct (onError _ _ _ _ _) as [[[]|e] w]; simpl; by eexists [_].
  - by eexists [_].
  - exists []. by rewrite app_nil_r.
  - exists []. by rewrite app_nil_r.
Qed.

Lemma advance_within (n : Node W G Item Res E) k p :
  within k p ->
  forall m, exists k' l,
    trace (snd (advance n p m)) = trace m ++ l /\ forallb quiet_event l = true /\
    within k' (fst (advance n p m)) /\ (count is_exec l + k' <= k)%nat.
Proof.
  induction 1 as [k|k e|k item K HK IH|k X c K Hc HK IH]; intros m.
  - exists k, []. simpl. rewrite app_nil_r. repeat split; [constructor | lia].
  - exists k, []. simpl. rewrite app_nil_r. repeat split; [constructor | lia].
  - exists (S k), []. simpl. rewrite app_nil_r. repeat split; [by constructor | lia].
  - simpl. destruct (is_async c).
    + exists k, []. simpl. rewrite app_nil_r. repeat split; [by constructor | lia].
    + destruct (perform_execs n c m) as (l1 & H1 & Hq1 & Hn1). rewrite Hc in Hn1.
      destruct (perform n c m) as [o m1]. simpl in H1.
      destruct (IH o m1) as (k' & l2 & H2 & Hq2 & Hk' & Hle).
      exists k', (l1 ++ l2). rewrite H2, H1, app_assoc. split; [reflexivity|].
      split; [by rewrite forallb_app, Hq1, Hq2|]. split; [exact Hk'|].
      rewrite count_app. lia.
Qed.

Lemma resume_within (n : Node W G Item Res E) k p m :
  within k p ->
  exists k' l,
    trace (snd (resume n p m)) = trace m ++ l /\ forallb quiet_event l = true /\
    within k' (fst (resume n p m)) /\ (count is_exec l + k' <= k)%nat.
Proof.
  intros Hp. destruct Hp as [k|k e|k item K HK|k X c K Hc HK].
  - exists k, []. simpl. rewrite app_nil_r. repeat split; [constructor | lia].
  - exists k, []. simpl. rewrite app_nil_r. repeat split; [constructor | lia].
  - change (resume n (Vis (Exec item) K) m)
      with (let '(o, m') := perform n (Exec item) m in advance n (K o) m').
    destruct (perform_execs n (Exec item) m) as (l1 & H1 & Hq1 & Hn1).
    destruct (perform n (Exec item) m) as [o m1]. simpl in H1, Hn1.
    destruct (advance_within n k (K o) (HK o) m1) as (k' & l2 & H2 & Hq2 & Hk' & Hle).
    exists k', (l1 ++ l2). rewrite H2, H1, app_assoc. split; [reflexivity|].
    split; [by rewrite forallb_app, Hq1, Hq2|]. split; [exact Hk'|].
    rewrite count_app. lia.
  - simpl. destruct (perform_execs n c m) as (l1 & H1 & Hq1 & Hn1). rewrite Hc in Hn1.
    destruct (perform n c m) as [o m1]. simpl in H1.
    destruct (advance_within n k (K o) (HK o) m1) as (k' & l2 & H2 & Hq2 & Hk' & Hle).
    exists k', (l1 ++ l2). rewrite H2, H1, app_assoc. split; [reflexivity|].
    split; [by rewrite forallb_app, Hq1, Hq2|]. split; [exact Hk'|].
    rewrite count_app. lia.
Qed.

Lemma attempts_within (n : Node W G Item Res E) item (f : Res -> Prog Item Res E unit) :
  (forall v, within O (f v)) ->
  forall remaining attempt,
    within remaining (bind (attempts n item remaining attempt) f).
Proof.
  intros Hf. induction remaining as [|remaining IH]; intros attempt; simpl.
  - constructor.
  - apply within_exec. intros [v|e]; simpl.
    { apply (within_more O); [apply Hf | lia]. }
    destruct (attempt =? maxRetries (config n) - 1).
    + destruct (execFallback n); simpl; [|constructor].
      apply within_call; [done|]. intros [v|e']; simpl; [|constructor].
      apply (within_more O); [apply Hf | lia].
    + simpl. apply within_call; [done|]. intros [[]|e']; simpl; [|constructor].
      apply within_call; [done|]. intros [[]|e']; simpl; [apply IH | constructor].
Qed.

Lemma pipeline_within (n : Node W G Item Res E) item :
  within (Z.to_nat (maxRetries (config n))) (pipeline n item).
Proof.
  unfold pipeline. simpl. apply within_call; [done|].
  intros [v|e]; simpl; [|constructor].
  apply within_call; [done|]. intros [[]|e]; simpl; [|constructor].
  apply within_call; [done|]. intros [v'|e]; simpl; [|constructor].
  apply attempts_within. intros r. simpl.
  apply within_call; [done|]. intros [[]|e]; simpl; constructor.
Qed.

End ExecBudget.

Section ThriftyCycles.

Context {W G Item Res E : Type}.
Variable nodes : NodeRef -> Node W G Item Res E.

Implicit Types c : Cycle W G Item Res E.

Lemma sum_list_insert (budgets : list nat) i k k' :
  budgets !! i = Some k ->
  (sum_list (<[i:=k']> budgets) + k = sum_list budgets + k')%nat.
Proof.
  revert i; induction budgets as [|x budgets IH]; intros [|i] Hi; simpl in *;
    try discriminate.
  - injection Hi as ->. lia.
  - specialize (IH i Hi). lia.
Qed.

Lemma thrifty_start r w t : thrifty_status nodes (start nodes r w t).
Proof.
  exists []. simpl. split; [constructor|]. rewrite execs_snoc. lia.
Qed.

Lemma thrifty_route n action w t : thrifty_status nodes (route nodes n action w t).
Proof.
  unfold route. destruct action; try exact I;
    (destruct (truthy _); [|exact I]);
    (destruct (js_or _ _) as [a|r]; [exact I | apply thrifty_start]).
Qed.

Lemma thrifty_aggregate c : thrifty_status nodes (aggregate nodes c).
Proof.
  unfold aggregate. destruct (post _ _ _ _) as [[action|e] w];
    [apply thrifty_route | exact I].
Qed.

Lemma thrifty_step c ch : thrifty nodes c -> thrifty_status nodes (step nodes ch c).
Proof.
  intros (budgets & Hb & Hle).
  unfold step. destruct ch as [|i|].
  - destruct (driver c) as [g|rej] eqn:Hd; [|by exists budgets].
    destruct (gen_next _ g _) as [[value g'| |e] w]; [| |exact I].
    + pose proof (advance_within (nodes (node c)) _ _
                    (pipeline_within (nodes (node c)) (item_promise value))
                    (log (EvNext (node c) (Some value)) w (mem c)))
        as (k' & l & Hl & Hq & Hk' & Hcount).
      destruct (advance _ _ _) as [p m']. simpl in *.
      exists (budgets ++ [k']). simpl. split; [by apply Forall2_app; [|constructor]|].
      rewrite Hl, execs_quiet, execs_snoc, sum_list_with_app, length_app by exact Hq.
      simpl. nia.
    + exists budgets. simpl. rewrite execs_snoc. done.
  - destruct (execPromises c !! i) as [p|] eqn:Hp; [|by exists budgets].
    destruct (Forall2_lookup_r _ _ _ _ _ Hb Hp) as (k & Hk & Hkp).
    destruct (resume_within (nodes (node c)) k p (mem c) Hkp)
      as (k' & l & Hl & Hq & Hk' & Hcount).
    destruct (resume _ p _) as [p' m']. simpl in *.
    exists (<[i:=k']> budgets). simpl.
    split; [by apply Forall2_insert|].
    pose proof (sum_list_insert budgets i k k' Hk).
    rewrite Hl, execs_quiet, length_insert by exact Hq. lia.
  - destruct (driver c) as [g|[e|]]; [by exists budgets | exact I |].
    destruct (forallb _ _); [apply thrifty_aggregate | by exists budgets].
Qed.

Lemma thrifty_run sched r w : thrifty_status nodes (run nodes sched r w).
Proof.
  unfold run. apply (schedule_invariant nodes (thrifty_status nodes)).
  - intros c ch Hc. by apply thrifty_step.
  - apply thrifty_start.
Qed.

(** X14. At every point of a run and under every schedule, [exec] has been
    called, in the cycle that is running, at most [maxRetries] times for each
    item the generator has yielded in that cycle; with [maxRetries] zero or
    negative it has not been called at all. *)
Theorem exec_budget sched r w c :
  run nodes sched r w = Running c ->
  (execs (trace (mem c))
   <= yielded (trace (mem c)) * Z.to_nat (maxRetries (config (nodes (node c)))))%nat /\
  (maxRetries (config (nodes (node c))) <= 0 -> execs (trace (mem c)) = O).
Proof.
  intros Hrun.
  pose proof (thrifty_run sched r w) as Hthrifty. rewrite Hrun in Hthrifty.
  pose proof (tidy_run nodes sched r w) as Htidy. rewrite Hrun in Htidy.
  destruct Hthrifty as (budgets & _ & Hle).
  destruct Htidy as (stages & _ & _ & _ & Hyield). rewrite <- Hyield.
  split; [lia|]. intros Hmax.
  replace (Z.to_nat (maxRetries (config (nodes (node c))))) with O in Hle by lia.
  lia.
Qed.

End ThriftyCycles.

(** On [echo], once both pipelines are fulfilled: two calls of [exec] for
    two items, of the six that three attempts allow. *)
Lemma exec_budget_witness :
  let c : Cycle unit (list string) string string string :=
    {| mem := {| world := tt;
                 trace := [EvPrep O; EvNext O (Some (YValue "a"%string));
                           EvNext O (Some (YValue "b"%string));
                           EvExec "b"%string (inl "echo b"%string);
                           EvExec "a"%string (inl "echo a"%string);
                           EvNext O None];
                 prepItems := ["a"; "b"]%string;
                 execResults := ["echo b"; "echo a"]%string |};
       node := O;
       execPromises := [Ret tt; Ret tt];
       driver := AtAll None |} in
  run (fun _ => Examples.echo) Examples.second_settles_first O tt = Running c /\
  (execs (trace (mem c))
   <= yielded (trace (mem c)) * Z.to_nat (maxRetries (config Examples.echo)))%nat.
Proof.
  intros c.
  assert (H : run (fun _ => Examples.echo) Examples.second_settles_first O tt
              = Running c) by reflexivity.
  split; [exact H|].
  exact (proj1 (exec_budget (fun _ => Examples.echo) Examples.second_settles_first
                  O tt c H)).
Defined.

(** ** How a traversal goes on and ends *)

Section Traversal.

Context {W G Item Res E : Type}.
Variable nodes : NodeRef -> Node W G Item Res E.

Implicit Types c : Cycle W G Item Res E.
Implicit Types st : Status W G Item Res E.

Lemma route_cases n action w t :
  route nodes n action w t = Returned w t \/
  (exists r, route nodes n action w t = start nodes r w t) \/
  route nodes n action w t = Failed TypeError w t.
Proof.
  unfold route. destruct action; try (by left);
    (destruct (truthy _); [|by left]);
    (destruct (js_or _ _) as [a|r]; [by right; right | right; left; by exists r]).
Qed.

Lemma in_sequence_step c ch :
  in_sequence nodes (Running c) -> in_sequence nodes (step nodes ch c).
Proof.
  simpl. intros Hc. unfold step. destruct ch as [|i|].
  - destruct (driver c) as [g|rej]; [|exact Hc].
    destruct (gen_next _ g _) as [[value g'| |e] w]; [| |exact I].
    + pose proof (advance_trace (nodes (node c))
                    (pipeline (nodes (node c)) (item_promise value))
                    (log (EvNext (node c) (Some value)) w (mem c)))
        as (l & Hl & Hq).
      destruct (advance _ _ _) as [p m']. simpl in *.
      destruct (quiet_count l Hq) as [Hpost Hprep].
      rewrite Hl, !count_app, Hpost, Hprep. simpl. lia.
    + simpl. rewrite !count_app. simpl. lia.
  - destruct (execPromises c !! i) as [p|]; [|exact Hc].
    destruct (resume_trace (nodes (node c)) p (mem c)) as (l & Hl & Hq).
    destruct (resume _ p _) as [p' m']. simpl in *.
    destruct (quiet_count l Hq) as [Hpost Hprep].
    rewrite Hl, !count_app, Hpost, Hprep. lia.
  - destruct (driver c) as [g|[e|]]; [exact Hc | exact I |].
    destruct (forallb _ _); [|exact Hc].
    unfold aggregate.
    destruct (post _ _ _ _) as [[action|e] w] eqn:Hposted; [|exact I].
    destruct (route_cases (nodes (node c)) action w
                (trace (mem c) ++
                 [EvPost (node c) (prepItems (mem c)) (execResults (mem c)) (inl action)]))
      as [Hroute | [[r Hroute] | Hroute]]; rewrite Hroute.
    + eexists _, _, _, _, _, _. split; [reflexivity|]. split; [exact Hposted|].
      split; [exact Hroute|]. rewrite !count_app. simpl. lia.
    + simpl. rewrite !count_app. simpl. lia.
    + exact I.
Qed.

(** X15. When [run] returns, the last call was a [post] that did not throw
    and whose action is [KILL], or leads to no node; the world [run] returns
    in is the one this call of [post] left, [post] having returned the action
    and that world when it was called with the two arrays; and every cycle
    that was begun has had its [post]: as many calls of [prep] as of
    [post]. *)
Theorem returns_after_post sched r w w' t :
  run nodes sched r w = Returned w' t ->
  exists t' r' items results action w0,
    t = t' ++ [EvPost r' items results (inl action)] /\
    post (nodes r') items results w0 = (inl action, w') /\
    route nodes (nodes r') action w' t = Returned w' t /\
    count is_prep t = count is_post t.
Proof.
  intros Hrun.
  assert (Hseq : in_sequence nodes (run nodes sched r w)).
  { unfold run. apply (schedule_invariant nodes (in_sequence nodes)).
    - apply in_sequence_step.
    - simpl. reflexivity. }
  rewrite Hrun in Hseq. exact Hseq.
Qed.

Lemma posts_grow sched st :
  (count is_post (status_trace st)
   <= count is_post (status_trace (schedule nodes sched st)))%nat.
Proof.
  apply (schedule_invariant nodes
           (fun st' => (count is_post (status_trace st)
                        <= count is_post (status_trace st'))%nat)); [|lia].
  intros c ch Hc. destruct (step_added nodes c ch) as (added & -> & _).
  rewrite count_app. simpl in Hc. lia.
Qed.

(** X16. From any point of a cycle whose generator comes to an end, the
    promises can settle so that the cycle ends: some continuation of the
    schedule leads to the call of [post], or to the rejection of [run]. *)
Theorem cycle_can_end c :
  (forall g, driver c = AtNext g -> produces (nodes (node c)) g) ->
  exists sched,
    (exists e w t, schedule nodes sched (Running c) = Failed e w t) \/
    (count is_post (trace (mem c))
     < count is_post (status_trace (schedule nodes sched (Running c))))%nat.
Proof.
  intros Hgen.
  destruct (can_join nodes c Hgen) as (sched & c' & Hs & _ & Hend).
  pose proof (posts_grow sched (Running c)) as Hgrow. rewrite Hs in Hgrow.
  simpl in Hgrow.
  exists (sched ++ [Join]). rewrite schedule_app, Hs. simpl. unfold step.
  destruct Hend as [[Hd Hall] | [e Hd]]; rewrite Hd.
  - right. rewrite Hall. pose proof (aggregate_posts nodes c'). lia.
  - left. by eexists _, _, _.
Qed.

End Traversal.

(** On [echo], run to its end: [post] returns [null] and [echo] has no
    edge. *)
Lemma returns_after_post_witness :
  let t : list (Event string string string) :=
    [EvPrep O; EvNext O (Some (YValue "a"%string));
     EvNext O (Some (YValue "b"%string));
     EvExec "b"%string (inl "echo b"%string);
     EvExec "a"%string (inl "echo a"%string);
     EvNext O None;
     EvPost O ["a"; "b"]%string ["echo b"; "echo a"]%string (inl ANull)] in
  run (fun _ => Examples.echo) (Examples.second_settles_first ++ [Join]) O tt
  = Returned tt t /\
  count is_prep t = count is_post t.
Proof.
  intros t.
  assert (H : run (fun _ => Examples.echo) (Examples.second_settles_first ++ [Join]) O tt
              = Returned tt t) by reflexivity.
  split; [exact H|].
  destruct (returns_after_post (fun _ => Examples.echo)
              (Examples.second_settles_first ++ [Join]) O tt tt t H)
    as (t' & r' & items & results & action & w0 & _ & _ & _ & Hcount).
  exact Hcount.
Defined.

(** On [hopeless], after its first item has been yielded and [exec] has
    failed once for it. *)
Lemma cycle_can_end_witness :
  let c : Cycle unit (list string) string string string :=
    {| mem := {| world := tt;
                 trace := [EvPrep O; EvNext O (Some (YValue "a"%string));
                           EvExec "a"%string (inr "no a"%string);
                           EvOnError (Thrown "no a"%string) 1 3;
                           EvSetTimeout 2000];
                 prepItems := ["a"%string];
                 execResults := [] |};
       node := O;
       execPromises := [bind (attempts Examples.hopeless "a"%string 2 1)
                          (fun v => call (PushExecResult v))];
       driver := AtNext ["b"%string] |} in
  (forall g, driver c = AtNext g -> produces Examples.hopeless g) /\
  exists sched,
    (exists e w t, schedule (fun _ => Examples.hopeless) sched (Running c) = Failed e w t) \/
    (count is_post (trace (mem c))
     < count is_post
         (status_trace (schedule (fun _ => Examples.hopeless) sched (Running c))))%nat.
Proof.
  intros c.
  assert (H : forall g, driver c = AtNext g -> produces Examples.hopeless g)
    by (intros g _; by apply produces_yield_each).
  split; [exact H|].
  exact (cycle_can_end (fun _ => Examples.hopeless) c H).
Defined.

(** ** The cycle of a node that yields one item *)

Section SingleItem.

Context {W G Item Res E : Type}.
Variable nodes : NodeRef -> Node W G Item Res E.

Implicit Types c : Cycle W G Item Res E.
Implicit Types m : Mem W Item Res E.

(** Resumed often enough, a pipeline that runs alone ends as [interp] says. *)
Lemma advance_resumes (n : Node W G Item Res E) {A} (p : Prog Item Res E A) :
  forall m, exists k,
    resumes n k (fst (advance n p m)) (snd (advance n p m))
    = (settled_as (fst (interp n p m)), snd (interp n p m)).
Proof.
  induction p as [a|e|X c K IH]; intros m.
  - by exists O.
  - by exists O.
  - simpl. destruct (is_async c).
    + destruct (perform n c m) as [o m1] eqn:Hperform.
      destruct (IH o m1) as [k Hk]. exists (S k). simpl. rewrite Hperform.
      destruct (advance n (K o) m1) as [p' m']. exact Hk.
    + destruct (perform n c m) as [o m1]. apply IH.
Qed.

Lemma settle_alone (k : nat) :
  forall c i g (p : Prog Item Res E unit),
    execPromises c !! i = Some p -> driver c = AtNext g ->
    schedule nodes (replicate k (Settle i)) (Running c)
    = Running {| mem := snd (resumes (nodes (node c)) k p (mem c));
                 node := node c;
                 execPromises :=
                   <[i := fst (resumes (nodes (node c)) k p (mem c))]> (execPromises c);
                 driver := AtNext g |}.
Proof.
  induction k as [|k IH]; intros c i g p Hp Hd.
  - simpl. rewrite list_insert_id by exact Hp. destruct c. simpl in *. by subst.
  - cbn [replicate schedule]. rewrite (step_settle nodes c i p Hp). cbv zeta.
    rewrite Hd. simpl.
    assert (Hlt : (i < length (execPromises c))%nat) by (by eapply lookup_lt_Some).
    destruct (resume (nodes (node c)) p (mem c)) as [p1 m1]. simpl.
    rewrite (IH _ i g p1); [|by apply list_lookup_insert_eq|reflexivity].
    simpl. by rewrite list_insert_insert_eq.
Qed.

Lemma interp_bind (n : Node W G Item Res E) {A B} (p : Prog Item Res E A)
    (f : A -> Prog Item Res E B) :
  forall m,
    interp n (bind p f) m =
    match fst (interp n p m) with
    | Fulfilled a => interp n (f a) (snd (interp n p m))
    | Rejected e => (Rejected e, snd (interp n p m))
    end.
Proof.
  induction p as [a|e|X c K IH]; intros m; simpl; try reflexivity.
  destruct (perform n c m) as [o m1]. apply IH.
Qed.

Lemma attempts_arrays (n : Node W G Item Res E) item :
  forall remaining attempt m,
    prepItems (snd (interp n (attempts n item remaining attempt) m)) = prepItems m /\
    execResults (snd (interp n (attempts n item remaining attempt) m)) = execResults m.
Proof.
  induction remaining as [|remaining IH]; intros attempt m; simpl; [done|].
  destruct (exec n item (world m)) as [[v|e] w]; simpl; [done|].
  destruct (attempt =? maxRetries (config n) - 1).
  - destruct (execFallback n) as [fallback|] eqn:Hfb; simpl; [|done].
    rewrite Hfb. by destruct (fallback item (Thrown e) w) as [[v|e'] w'].
  - simpl. destruct (onError _ _ _ _ _) as [[[]|e1] w1]; simpl; [|done].
    match goal with
    | |- context [interp _ (attempts _ _ _ _) ?m1] => destruct (IH (attempt + 1) m1)
    end.
    done.
Qed.

(** What the pipeline of an item does when it runs alone: the item is
    pushed, then [executeWithRetry] runs, and its value is pushed. *)
Lemma pipeline_alone (n : Node W G Item Res E) v m :
  let m1 := {| world := world m; trace := trace m;
               prepItems := prepItems m ++ [v]; execResults := execResults m |} in
  let m2 := snd (interp n (executeWithRetry n v) m1) in
  interp n (pipeline n (Fulfilled v)) m =
  match fst (interp n (executeWithRetry n v) m1) with
  | Fulfilled result =>
      (Fulfilled tt,
       {| world := world m2; trace := trace m2;
          prepItems := prepItems m ++ [v]; execResults := execResults m ++ [result] |})
  | Rejected e => (Rejected e, m2)
  end.
Proof.
  intros m1 m2. unfold pipeline. simpl. fold m1. rewrite interp_bind. fold m2.
  destruct (attempts_arrays n v (Z.to_nat (maxRetries (config n))) 0 m1) as [Hi Hr].
  fold (executeWithRetry n v) in Hi, Hr. fold m2 in Hi, Hr.
  destruct (fst (interp n (executeWithRetry n v) m1)); [|reflexivity].
  simpl. by rewrite Hi, Hr.
Qed.

End SingleItem.

Section SingleItemCycle.

Context {W G Item Res E : Type}.
Variable nodes : NodeRef -> Node W G Item Res E.

(** The cycle of a node whose generator yields one item and is then done,
    when the promises settle one after the other. *)
Lemma one_item_in_turn r w t value v g1 w1 o m2 w3 :
  let n := nodes r in
  gen_next n (prep n w) w = (ItYield value g1, w1) ->
  item_promise value = Fulfilled v ->
  interp n (executeWithRetry n v)
    {| world := w1; trace := t ++ [EvPrep r; EvNext r (Some value)];
       prepItems := [v]; execResults := [] |} = (o, m2) ->
  gen_next n g1 (world m2) = (ItDone, w3) ->
  exists k,
    schedule nodes (Pull :: replicate k (Settle O) ++ [Pull; Join]) (start nodes r w t) =
    match o with
    | Fulfilled result => after_all nodes r v result w3 (trace m2 ++ [EvNext r None])
    | Rejected e => Failed e w3 (trace m2 ++ [EvNext r None])
    end.
Proof.
  intros n Hyield Hitem Hrun Hdone.
  pose (mlog := log (EvNext r (Some value)) w1
                  {| world := w; trace := t ++ [EvPrep r];
                     prepItems := []; execResults := [] |}).
  destruct (advance_resumes n (pipeline n (item_promise value)) mlog) as [k Hk].
  exists k.
  (* the first [next()] *)
  change (Pull :: replicate k (Settle O) ++ [Pull; Join])
    with ([Pull] ++ replicate k (Settle O) ++ [Pull; Join]).
  rewrite !schedule_app. unfold start. cbn [schedule].
  erewrite step_pull_yield; [|reflexivity|exact Hyield]. cbv zeta.
  cbn [mem node execPromises driver]. fold n. fold mlog.
  (* the pipeline, alone *)
  rewrite (settle_alone nodes k _ O g1 (fst (advance n (pipeline n (item_promise value)) mlog)));
    [|reflexivity|reflexivity].
  cbn [mem node execPromises driver]. fold n. rewrite Hk. cbn [fst snd].
  rewrite Hitem, pipeline_alone. cbv zeta.
  assert (Hm1 : {| world := world mlog; trace := trace mlog;
                   prepItems := prepItems mlog ++ [v];
                   execResults := execResults mlog |}
                = {| world := w1; trace := t ++ [EvPrep r; EvNext r (Some value)];
                     prepItems := [v]; execResults := [] |}).
  { unfold mlog. simpl. by rewrite <- app_assoc. }
  rewrite Hm1, Hrun. cbn [fst snd].
  destruct o as [result|e]; cbn [fst snd settled_as].
  - (* the generator is done, and [Promise.all] is fulfilled *)
    cbn [schedule]. unfold step at 1. cbn [driver mem node execPromises world].
    fold n. rewrite Hdone. cbn [schedule]. unfold step. simpl. reflexivity.
  - cbn [schedule]. unfold step at 1. cbn [driver mem node execPromises world].
    fold n. rewrite Hdone. cbn [schedule]. unfold step. simpl. reflexivity.
Qed.

(** X17. The cycle of a node whose generator yields one item [v] and is
    then done, when the promises settle one after the other: after the
    first [next()], [executeWithRetry] runs for [v] with [prepItems] equal to
    [[v]]; if it throws, [run] is rejected with what it threw, once the
    generator is done; if it returns [result], [post] is called with [[v]]
    and [[result]], in the world the generator left, and its action is
    routed. *)
Theorem single_item_cycle r w t value v g1 w1 o m2 w3 :
  let n := nodes r in
  gen_next n (prep n w) w = (ItYield value g1, w1) ->
  item_promise value = Fulfilled v ->
  interp n (executeWithRetry n v)
    {| world := w1; trace := t ++ [EvPrep r; EvNext r (Some value)];
       prepItems := [v]; execResults := [] |} = (o, m2) ->
  gen_next n g1 (world m2) = (ItDone, w3) ->
  exists k,
    schedule nodes (Pull :: replicate k (Settle O) ++ [Pull; Join]) (start nodes r w t) =
    match o with
    | Fulfilled result =>
        let called :=
          trace m2 ++ [EvNext r None;
                       EvPost r [v] [result] (fst (post n [v] [result] w3))] in
        match post n [v] [result] w3 with
        | (inl action, w4) => route nodes n action w4 called
        | (inr e, w4) => Failed (Thrown e) w4 called
        end
    | Rejected e => Failed e w3 (trace m2 ++ [EvNext r None])
    end.
Proof.
  intros n Hyield Hitem Hrun Hdone.
  destruct (one_item_in_turn r w t value v g1 w1 o m2 w3 Hyield Hitem Hrun Hdone)
    as [k Hk].
  exists k. rewrite Hk. destruct o as [result|e]; [|reflexivity].
  unfold after_all, aggregate. simpl. fold n.
  destruct (post n [v] [result] w3) as [[action|e] w4]; simpl;
    by rewrite <- ?app_assoc.
Qed.

End SingleItemCycle.

(** On [flaky], whose [exec] fails twice and then returns. *)
Lemma single_item_cycle_witness :
  let m2 : Mem nat string string string :=
    {| world := 3%nat;
       trace := [EvPrep O; EvNext O (Some (YValue "a"%string));
                 EvExec "a"%string (inr "down"%string);
                 EvOnError (Thrown "down"%string) 1 3; EvSetTimeout 2000;
                 EvExec "a"%string (inr "down"%string);
                 EvOnError (Thrown "down"%string) 2 3; EvSetTimeout 2000;
                 EvExec "a"%string (inl "ok a"%string)];
       prepItems := ["a"%string];
       execResults := [] |} in
  gen_next Examples.flaky (prep Examples.flaky O) O = (ItYield (YValue "a"%string) [], O) /\
  interp Examples.flaky (executeWithRetry Examples.flaky "a"%string)
    {| world := O; trace := [] ++ [EvPrep O; EvNext O (Some (YValue "a"%string))];
       prepItems := ["a"%string]; execResults := [] |}
  = (Fulfilled "ok a"%string, m2) /\
  gen_next Examples.flaky [] (world m2) = (ItDone, 3%nat) /\
  exists k,
    schedule (fun _ => Examples.flaky) (Pull :: replicate k (Settle O) ++ [Pull; Join])
      (start (fun _ => Examples.flaky) O O [])
    = Returned 3%nat
        (trace m2 ++ [EvNext O None;
                      EvPost O ["a"%string] ["ok a"%string] (inl AUndefined)]).
Proof.
  intros m2.
  assert (H1 : gen_next Examples.flaky (prep Examples.flaky O) O
               = (ItYield (YValue "a"%string) [], O)) by reflexivity.
  assert (H2 : item_promise (YValue "a"%string : Yielded string string)
               = Fulfilled "a"%string) by reflexivity.
  assert (H3 : interp Examples.flaky (executeWithRetry Examples.flaky "a"%string)
                 {| world := O;
                    trace := [] ++ [EvPrep O; EvNext O (Some (YValue "a"%string))];
                    prepItems := ["a"%string]; execResults := [] |}
               = (Fulfilled "ok a"%string, m2)) by reflexivity.
  assert (H4 : gen_next Examples.flaky [] (world m2) = (ItDone, 3%nat)) by reflexivity.
  split; [exact H1|]. split; [exact H3|]. split; [exact H4|].
  destruct (single_item_cycle (fun _ => Examples.flaky) O O [] (YValue "a"%string)
              "a"%string [] O (Fulfilled "ok a"%string) m2 3%nat H1 H2 H3 H4) as [k Hk].
  exists k. exact Hk.
Defined.

(** ** [UnreliableNode] of the test suite *)

Section UnreliableNodeFacts.

Variable mockLLM_call : string -> string.
Variable maxRetries' : Z.
Variable retryDelay' : option Z.

Abbreviation unreliable :=
  (RetryFallbackTest.UnreliableNode mockLLM_call
     (Some {| p_maxRetries := Some maxRetries';
              p_retryDelay := retryDelay';
              p_timeout := None |})).

Abbreviation answer attempt :=
  (if (3 <=? maxRetries') || (2 <=? attempt) then mockLLM_call
   else fun _ => "Fallback response due to error"%string).

Lemma unreliable_attempts item :
  forall remaining attempt (m : Mem RetryFallbackTest.RetryStore string string string),
    (1 <= remaining)%nat ->
    Z.of_nat remaining = maxRetries' - attempt ->
    0 <= attempt ->
    RetryFallbackTest.attempts (world m) = attempt ->
    exists m',
      interp unreliable (attempts unreliable item remaining attempt) m
      = (Fulfilled (answer attempt item), m') /\
      world m' =
      {| RetryFallbackTest.prompt := RetryFallbackTest.prompt (world m);
         RetryFallbackTest.result := RetryFallbackTest.result (world m);
         RetryFallbackTest.attempts :=
           if 2 <=? attempt then attempt + 1 else Z.min maxRetries' 3 |}.
Proof.
  induction remaining as [|remaining IH]; intros attempt m Hpos Hrem Hnonneg Hstore;
    [lia|].
  simpl. unfold RetryFallbackTest.exec. simpl. rewrite Hstore.
  destruct (Z.ltb_spec (attempt + 1) 3) as [Hfail|Hok]; simpl.
  - destruct (Z.eqb_spec attempt (maxRetries' - 1)) as [Hlast|Hmore]; simpl.
    + eexists. split.
      * destruct (Z.leb_spec 3 maxRetries'); [lia|].
        destruct (Z.leb_spec 2 attempt); [lia|]. reflexivity.
      * simpl. destruct (Z.leb_spec 2 attempt); [lia|].
        f_equal. lia.
    + match goal with
      | |- context [interp _ (attempts _ _ _ _) ?m1] =>
          destruct (IH (attempt + 1) m1) as (m' & Hrun & Hworld);
            [lia | lia | lia | reflexivity |]
      end.
      exists m'. split.
      * rewrite Hrun. do 2 f_equal.
        destruct (Z.leb_spec 3 maxRetries'); [reflexivity|].
        destruct (Z.leb_spec 2 attempt); [lia|].
        destruct (Z.leb_spec 2 (attempt + 1)); [lia | reflexivity].
      * rewrite Hworld. simpl. f_equal.
        destruct (Z.leb_spec 2 attempt); [lia|].
        destruct (Z.leb_spec 2 (attempt + 1)); lia.
  - eexists. split.
    + destruct (Z.leb_spec 2 attempt); [|lia]. by rewrite orb_true_r.
    + simpl. by destruct (Z.leb_spec 2 attempt); [|lia].
Qed.

End UnreliableNodeFacts.

(** ** A pipeline that is the only one of its cycle *)

Section OnlyPipeline.

Context {W G Item Res E : Type}.
Variable n : Node W G Item Res E.

Implicit Types m : Mem W Item Res E.

Lemma same_state_refl m : same_state m m.
Proof. by repeat split. Qed.

Lemma same_state_trans m1 m2 m3 :
  same_state m1 m2 -> same_state m2 m3 -> same_state m1 m3.
Proof. unfold same_state. intros (-> & -> & ->) (-> & -> & ->). done. Qed.

Lemma same_state_sym m1 m2 : same_state m1 m2 -> same_state m2 m1.
Proof. unfold same_state. intros (-> & -> & ->). done. Qed.

(** A call answers the same, and acts the same, whatever has been called
    before. *)
Lemma perform_same {X} (c : Call Item Res E X) m m' :
  same_state m m' ->
  fst (perform n c m) = fst (perform n c m') /\
  same_state (snd (perform n c m)) (snd (perform n c m')).
Proof.
  intros (Hw & Hi & Hr). unfold same_state. destruct c; simpl; rewrite <- ?Hw.
  - done.
  - by destruct (exec n item (world m)) as [r w].
  - destruct (execFallback n) as [fb|]; [|done].
    by destruct (fb item error (world m)) as [r w].
  - by destruct (onError _ _ _ _ _) as [r w].
  - done.
  - by rewrite Hi.
  - by rewrite Hr.
Qed.

Lemma interp_same {A} (p : Prog Item Res E A) :
  forall m m', same_state m m' ->
    fst (interp n p m) = fst (interp n p m') /\
    same_state (snd (interp n p m)) (snd (interp n p m')).
Proof.
  induction p as [a|e|X c K IH]; intros m m' Hsame; simpl; try done.
  destruct (perform_same c m m' Hsame) as [Ho Hm].
  destruct (perform n c m) as [o m1], (perform n c m') as [o' m1'].
  simpl in Ho, Hm. subst o'. by apply IH.
Qed.

(** Where a pipeline ends does not change when it is resumed. *)
Lemma advance_interp {A} (p : Prog Item Res E A) :
  forall m, interp n (fst (advance n p m)) (snd (advance n p m)) = interp n p m.
Proof.
  induction p as [a|e|X c K IH]; intros m; simpl; try reflexivity.
  destruct (is_async c); [reflexivity|].
  destruct (perform n c m) as [o m1]. apply IH.
Qed.

Lemma resume_interp {A} (p : Prog Item Res E A) m :
  interp n (fst (resume n p m)) (snd (resume n p m)) = interp n p m.
Proof.
  destruct p as [a|e|X c K]; simpl; try reflexivity.
  destruct (perform n c m) as [o m1]. apply advance_interp.
Qed.

End OnlyPipeline.

(** ** The cycle of one item, under any schedule *)

Section OneItemCycle.

Context {W G Item Res E : Type}.
Variable nodes : NodeRef -> Node W G Item Res E.
Variable r : NodeRef.
Variable w : W.
Variable t : list (Event Item Res E).
Variable value : Yielded Item E.
Variable v : Item.
Variable g1 : G.
Variable w1 : W.
Variable t1 : list (Event Item Res E).
Variable o : Settled E Res.
Variable m2 : Mem W Item Res E.

Hypothesis Hyield : gen_next (nodes r) (prep (nodes r) w) w = (ItYield value g1, w1).
Hypothesis Hitem : item_promise value = Fulfilled v.
Hypothesis Hdone : forall w', gen_next (nodes r) g1 w' = (ItDone, w').
Hypothesis Hrun :
  interp (nodes r) (executeWithRetry (nodes r) v)
    {| world := w1; trace := t1; prepItems := [v]; execResults := [] |} = (o, m2).

Implicit Types c : Cycle W G Item Res E.
Implicit Types m : Mem W Item Res E.

Lemma pipeline_ends m :
  world m = w1 -> prepItems m = [] -> execResults m = [] ->
  fst (interp (nodes r) (pipeline (nodes r) (Fulfilled v)) m) = pipeline_outcome o /\
  same_state (snd (interp (nodes r) (pipeline (nodes r) (Fulfilled v)) m))
    {| world := world m2; trace := []; prepItems := [v];
       execResults := match o with
                      | Fulfilled result => [result]
                      | Rejected _ => []
                      end |}.
Proof.
  intros Hw Hi Hr. rewrite pipeline_alone. cbv zeta. rewrite Hw, Hi, Hr. simpl.
  destruct (interp_same (nodes r) (executeWithRetry (nodes r) v)
              {| world := w1; trace := trace m; prepItems := [v]; execResults := [] |}
              {| world := w1; trace := t1; prepItems := [v]; execResults := [] |})
    as [Ho Hm]; [by repeat split|].
  destruct (attempts_arrays (nodes r) v (Z.to_nat (maxRetries (config (nodes r)))) 0
              {| world := w1; trace := t1; prepItems := [v]; execResults := [] |})
    as [Hi2 Hr2].
  fold (executeWithRetry (nodes r) v) in Hi2, Hr2.
  rewrite Hrun in Ho, Hm, Hi2, Hr2. simpl in Hi2, Hr2, Ho, Hm.
  rewrite Ho. destruct Hm as (Hmw & Hmi & Hmr).
  destruct o as [result|e]; simpl.
  - split; [reflexivity|]. by repeat split.
  - split; [reflexivity|]. unfold same_state. simpl.
    rewrite Hmw, Hmi, Hmr, Hi2, Hr2. done.
Qed.

Lemma only_pipeline_step c ch :
  only_pipeline nodes r w t v g1 o (world m2) c ->
  (exists c', step nodes ch c = Running c' /\
     only_pipeline nodes r w t v g1 o (world m2) c') \/
  (exists e tr, o = Rejected e /\ step nodes ch c = Failed e (world m2) tr) \/
  (exists result,
     o = Fulfilled result /\
     step nodes ch c = after_all nodes r v result (world m2) (trace (mem c))).
Proof.
  intros [Hnode [Hstart | (p & Hps & Hout & Hsame & Hdrv)]].
  - (* the cycle has not begun *)
    unfold start in Hstart. injection Hstart as ->. left. destruct ch as [|i|].
    + erewrite step_pull_yield; [|reflexivity|exact Hyield]. cbv zeta.
      eexists. split; [reflexivity|]. split; [reflexivity|]. right.
      eexists. split; [reflexivity|]. cbn [mem node]. rewrite advance_interp, Hitem.
      destruct (pipeline_ends (log (EvNext r (Some value)) w1
                  {| world := w; trace := t ++ [EvPrep r];
                     prepItems := []; execResults := [] |}) eq_refl eq_refl eq_refl)
        as [H1 H2].
      split; [exact H1|]. split; [exact H2|]. by left.
    + eexists. split; [reflexivity|]. split; [reflexivity|]. by left.
    + eexists. split; [reflexivity|]. split; [reflexivity|]. by left.
  - assert (Hstay : only_pipeline nodes r w t v g1 o (world m2) c).
    { split; [exact Hnode|]. right. by exists p. }
    destruct ch as [|i|].
    + (* [generator.next(..)] settles *)
      destruct Hdrv as [Hd | [Hd | (e & Hd & Hp)]].
      * left. rewrite (step_pull_done nodes c g1 (world (mem c)) Hd);
          [|rewrite Hnode; apply Hdone].
        eexists. split; [reflexivity|]. split; [exact Hnode|]. right. exists p.
        split; [exact Hps|]. cbn [mem driver].
        destruct (interp_same (nodes r) p
                    (log (EvNext (node c) None) (world (mem c)) (mem c)) (mem c))
          as [Ho Hm]; [by repeat split|].
        split; [by rewrite Ho|].
        split; [by apply (same_state_trans _ _ _ Hm)|].
        rewrite Hps. destruct p as [[]|e|X c0 K]; simpl.
        -- right; by left.
        -- right; right. by exists e.
        -- right; by left.
      * left. exists c. unfold step. rewrite Hd. done.
      * left. exists c. unfold step. rewrite Hd. done.
    + (* the call that the pipeline awaits settles *)
      destruct i as [|i].
      * left. rewrite (step_settle nodes c O p); [|by rewrite Hps]. cbv zeta.
        rewrite Hnode, Hps.
        pose proof (resume_interp (nodes r) p (mem c)) as Hkeep.
        destruct (resume (nodes r) p (mem c)) as [p' m'] eqn:Hresume.
        cbn [fst snd] in *.
        eexists. split; [reflexivity|]. split; [reflexivity|]. right. exists p'.
        split; [reflexivity|]. cbn [mem driver]. rewrite Hkeep.
        split; [exact Hout|]. split; [exact Hsame|].
        destruct Hdrv as [Hd | [Hd | (e & Hd & Hp)]]; rewrite Hd.
        -- by left.
        -- destruct p' as [[]|e|X c0 K]; simpl.
           ++ right; by left.
           ++ right; right. by exists e.
           ++ right; by left.
        -- subst p. simpl in Hresume. injection Hresume as <- <-.
           right; right. by exists e.
      * left. exists c. unfold step. rewrite Hps. done.
    + (* [Promise.all] settles *)
      destruct Hdrv as [Hd | [Hd | (e & Hd & Hp)]].
      * left. exists c. unfold step. rewrite Hd. done.
      * unfold step. rewrite Hd, Hps. destruct p as [[]|e|X c0 K]; simpl.
        -- right; right. simpl in Hout, Hsame.
           destruct o as [result|e]; [|discriminate]. exists result.
           split; [reflexivity|]. unfold after_all. f_equal.
           destruct Hsame as (Hw & Hi & Hr). simpl in Hw, Hi, Hr.
           destruct c as [[cw ct ci cr] cn cps cd]. simpl in *. by subst.
        -- by left; exists c.
        -- by left; exists c.
      * right; left. subst p. simpl in Hout, Hsame.
        destruct o as [result|e']; [discriminate|]. injection Hout as <-.
        exists e, (trace (mem c)). split; [reflexivity|].
        unfold step. rewrite Hd. f_equal. apply Hsame.
Qed.

Lemma aggregate_fresh c c' : aggregate nodes c = Running c' -> execPromises c' = [].
Proof.
  unfold aggregate. destruct (post _ _ _ _) as [[action|e] w']; [|discriminate].
  destruct (route_cases nodes (nodes (node c)) action w'
              (trace (mem c) ++
               [EvPost (node c) (prepItems (mem c)) (execResults (mem c)) (inl action)]))
    as [-> | [[r' ->] | ->]]; try discriminate.
  unfold start. by intros [= <-].
Qed.

Lemma one_item_step c ch :
  one_item_status nodes r w t v g1 o (world m2) (Running c) ->
  one_item_status nodes r w t v g1 o (world m2) (step nodes ch c).
Proof.
  intros [(c0 & [= <-] & Hc & Hcount) | [(e & tr & _ & [=]) |
          (result & tr & sched & Ho & Hst)]].
  - destruct (only_pipeline_step c ch Hc)
      as [(c' & Hstep & Hc') | [(e & tr & Ho & Hstep) | (result & Ho & Hstep)]].
    + left. exists c'. split; [exact Hstep|]. split; [exact Hc'|].
      destruct (step_added nodes c ch) as (added & Htr & Hcase).
      rewrite Hstep in Htr. simpl in Htr. rewrite Htr, count_app.
      destruct Hcase as [[Hnone _] | (-> & Hd & Hall & res & rest & -> & _)]; [lia|].
      (* a step that calls [post] does not leave the cycle as it was *)
      exfalso. unfold step in Hstep. rewrite Hd, Hall in Hstep.
      destruct Hc' as [_ [Hstart | (p' & Hps' & _)]].
      * unfold start in Hstart. injection Hstart as ->. simpl in Htr.
        apply (f_equal (count is_post)) in Htr. rewrite !count_app in Htr.
        simpl in Htr. lia.
      * rewrite (aggregate_fresh c c' Hstep) in Hps'. discriminate.
    + right; left. by exists e, tr.
    + right; right. exists result, (trace (mem c)), []. split; [exact Ho|].
      rewrite Hstep. by destruct (after_all _ _ _ _ _ _).
  - right; right. exists result, tr, (sched ++ [ch]). split; [exact Ho|].
    rewrite schedule_app, <- Hst. simpl. by destruct (step nodes ch c).
Qed.

Lemma one_item_always sched :
  one_item_status nodes r w t v g1 o (world m2) (schedule nodes sched (start nodes r w t)).
Proof.
  apply (schedule_invariant nodes (one_item_status nodes r w t v g1 o (world m2))).
  - apply one_item_step.
  - left. eexists. split; [reflexivity|]. split.
    + split; [reflexivity|]. by left.
    + simpl. rewrite count_app. simpl. lia.
Qed.

(** X18. The cycle of a node whose generator yields one item [v] and is
    then done, leaving the world alone, under any schedule.  Let [o] be how
    [executeWithRetry] ends for [v] when it runs from the world the first
    [next()] left, and [m2] the memory it leaves.  Then at every point the
    cycle still runs and [post] has not been called; or [o] is a failure, and
    [run] is rejected with it, in the world of [m2]; or [o] is a value, and
    [run] has gone on from the call of [post] with [[v]] and that value, in
    the world of [m2]. *)
Theorem single_item_outcome sched :
  let st := schedule nodes sched (start nodes r w t) in
  (exists c, st = Running c /\ node c = r /\
     count is_post (trace (mem c)) = count is_post t) \/
  (exists e tr, o = Rejected e /\ st = Failed e (world m2) tr) \/
  (exists result tr sched',
     o = Fulfilled result /\
     st = schedule nodes sched' (after_all nodes r v result (world m2) tr)).
Proof.
  intros st. destruct (one_item_always sched)
    as [(c & Hc & [Hnode _] & Hcount) | [Hfailed | Hposted]].
  - left. by exists c.
  - right; left. exact Hfailed.
  - right; right. exact Hposted.
Qed.

End OneItemCycle.

(** On [flaky], whose [exec] fails twice and then returns, after the item
    has been yielded and the pipeline resumed twice. *)
Lemma single_item_outcome_witness :
  let m2 : Mem nat string string string :=
    {| world := 3%nat;
       trace := [EvExec "a"%string (inr "down"%string);
                 EvOnError (Thrown "down"%string) 1 3; EvSetTimeout 2000;
                 EvExec "a"%string (inr "down"%string);
                 EvOnError (Thrown "down"%string) 2 3; EvSetTimeout 2000;
                 EvExec "a"%string (inl "ok a"%string)];
       prepItems := ["a"%string];
       execResults := [] |} in
  let st := schedule (fun _ => Examples.flaky) [Pull; Settle O; Settle O]
              (start (fun _ => Examples.flaky) O O []) in
  let o : Settled string string := Fulfilled "ok a"%string in
  gen_next Examples.flaky (prep Examples.flaky O) O = (ItYield (YValue "a"%string) [], O) /\
  (forall w', gen_next Examples.flaky [] w' = (ItDone, w')) /\
  interp Examples.flaky (executeWithRetry Examples.flaky "a"%string)
    {| world := O; trace := []; prepItems := ["a"%string]; execResults := [] |}
  = (o, m2) /\
  ((exists c, st = Running c /\ node c = O /\
      count is_post (trace (mem c))
      = count is_post ([] : list (Event string string string))) \/
   (exists e tr, o = Rejected e /\ st = Failed e (world m2) tr) \/
   (exists result tr sched',
      o = Fulfilled result /\
      st = schedule (fun _ => Examples.flaky) sched'
             (after_all (fun _ => Examples.flaky) O "a"%string result (world m2) tr))).
Proof.
  intros m2 st o.
  assert (H1 : gen_next Examples.flaky (prep Examples.flaky O) O
               = (ItYield (YValue "a"%string) [], O)) by reflexivity.
  assert (H2 : item_promise (YValue "a"%string : Yielded string string)
               = Fulfilled "a"%string) by reflexivity.
  assert (H3 : forall w', gen_next Examples.flaky [] w' = (ItDone, w'))
    by (intros w'; reflexivity).
  assert (H4 : interp Examples.flaky (executeWithRetry Examples.flaky "a"%string)
                 {| world := O; trace := []; prepItems := ["a"%string];
                    execResults := [] |}
               = (o, m2)) by reflexivity.
  split; [exact H1|]. split; [exact H3|]. split; [exact H4|].
  exact (single_item_outcome (fun _ => Examples.flaky) O O [] (YValue "a"%string)
           "a"%string [] O [] o m2 H1 H2 H3 H4
           [Pull; Settle O; Settle O]).
Defined.

(** ** [UnreliableNode], run *)

Section UnreliableNodeRun.

Variable mockLLM_call : string -> string.
Variable maxRetries' : Z.
Variable retryDelay' : option Z.

(** X19. [UnreliableNode] of the test suite, constructed with
    [maxRetries] at least 1 and run on a store with [attempts] at 0.  The
    promises can settle so that [run] returns; and under any schedule [run]
    is never rejected, and when it has returned it has left in the store the
    number of calls of [exec], which is [maxRetries] and at most 3, and as
    [result] the answer of [mockLLM] when [maxRetries] is at least 3, the
    text of [execFallback] otherwise. *)
Theorem unreliable_node_run (prompt0 : string) :
  1 <= maxRetries' ->
  let nodes := fun _ : NodeRef =>
    RetryFallbackTest.UnreliableNode mockLLM_call
      (Some {| p_maxRetries := Some maxRetries';
               p_retryDelay := retryDelay';
               p_timeout := None |}) in
  let store :=
    {| RetryFallbackTest.prompt := prompt0;
       RetryFallbackTest.result := None;
       RetryFallbackTest.attempts := 0 |} in
  let final :=
    {| RetryFallbackTest.prompt := prompt0;
       RetryFallbackTest.result :=
         Some (if 3 <=? maxRetries' then mockLLM_call prompt0
               else "Fallback response due to error"%string);
       RetryFallbackTest.attempts := Z.min maxRetries' 3 |} in
  (exists sched t, run nodes sched O store = Returned final t) /\
  (forall sched,
      (exists c, run nodes sched O store = Running c) \/
      (exists t, run nodes sched O store = Returned final t)).
Proof.
  intros Hmax nodes store final.
  assert (Hanswer :
            (if (3 <=? maxRetries') || (2 <=? 0) then mockLLM_call
             else fun _ => "Fallback response due to error"%string) prompt0
            = if 3 <=? maxRetries' then mockLLM_call prompt0
              else "Fallback response due to error"%string).
  { change (2 <=? 0) with false. rewrite orb_false_r.
    by destruct (3 <=? maxRetries'). }
  assert (Hposted : forall w2 tr,
            w2 = {| RetryFallbackTest.prompt := prompt0;
                    RetryFallbackTest.result := None;
                    RetryFallbackTest.attempts := Z.min maxRetries' 3 |} ->
            exists t,
              after_all nodes O prompt0
                ((if (3 <=? maxRetries') || (2 <=? 0) then mockLLM_call
                  else fun _ => "Fallback response due to error"%string) prompt0)
                w2 tr
              = Returned final t).
  { intros w2 tr ->. eexists. unfold after_all, aggregate. simpl.
    unfold route, getEdge, js_or. simpl. unfold final. by rewrite Hanswer. }
  split.
  - pose (m1 := {| world := store;
                   trace := [] ++ [EvPrep O; EvNext O (Some (YValue prompt0))];
                   prepItems := [prompt0]; execResults := [] |}
                : Mem RetryFallbackTest.RetryStore string string string).
    destruct (unreliable_attempts mockLLM_call maxRetries' retryDelay' prompt0
                (Z.to_nat maxRetries') 0 m1) as (m2 & Hrun & Hworld);
      [lia | lia | lia | reflexivity |].
    destruct (one_item_in_turn nodes O store [] (YValue prompt0) prompt0 false
                store _ m2 (world m2) eq_refl eq_refl Hrun eq_refl) as [k Hk].
    destruct (Hposted (world m2) (trace m2 ++ [EvNext O None])) as [t Ht];
      [by rewrite Hworld|].
    exists (Pull :: replicate k (Settle O) ++ [Pull; Join]), t.
    unfold run. by rewrite Hk.
  - intros sched.
    pose (m1 := {| world := store; trace := [];
                   prepItems := [prompt0]; execResults := [] |}
                : Mem RetryFallbackTest.RetryStore string string string).
    destruct (unreliable_attempts mockLLM_call maxRetries' retryDelay' prompt0
                (Z.to_nat maxRetries') 0 m1) as (m2 & Hrun & Hworld);
      [lia | lia | lia | reflexivity |].
    destruct (one_item_always nodes O store [] (YValue prompt0) prompt0 false
                store [] _ m2 eq_refl eq_refl (fun _ => eq_refl) Hrun sched)
      as [(c & Hc & _) | [(e & tr & [=] & _) | (result & tr & sched' & [= <-] & Hst)]].
    + left. by exists c.
    + right. destruct (Hposted (world m2) tr) as [t Ht]; [by rewrite Hworld|].
      exists t. unfold run. rewrite Hst, Ht. by destruct sched'.
Qed.

End UnreliableNodeRun.

(** The test 'uses fallback when retries exhausted': two attempts. *)
Lemma unreliable_node_run_witness :
  let nodes := fun _ : NodeRef =>
    RetryFallbackTest.UnreliableNode (String.append "Response to: ")
      (Some {| p_maxRetries := Some 2;
               p_retryDelay := Some 10;
               p_timeout := None |}) in
  let store :=
    {| RetryFallbackTest.prompt := "Test prompt";
       RetryFallbackTest.result := None;
       RetryFallbackTest.attempts := 0 |} in
  let final :=
    {| RetryFallbackTest.prompt := "Test prompt";
       RetryFallbackTest.result := Some "Fallback response due to error"%string;
       RetryFallbackTest.attempts := 2 |} in
  1 <= 2 /\
  (exists sched t, run nodes sched O store = Returned final t) /\
  (forall sched,
      (exists c, run nodes sched O store = Running c) \/
      (exists t, run nodes sched O store = Returned final t)).
Proof.
  intros nodes store final.
  assert (H : 1 <= 2) by lia.
  split; [exact H|].
  exact (unreliable_node_run (String.append "Response to: ") 2 (Some 10)
           "Test prompt"%string H).
Defined.

(** ** Cycles whose pipelines are all fulfilled *)

Section FulfillingCycles.

Context {W G Item Res E : Type}.
Variable nodes : NodeRef -> Node W G Item Res E.
Variable r : NodeRef.
Variable P : G -> Prop.
Variable t0 : list (Event Item Res E).

Hypothesis Hnext : kept_by_next nodes r P.
Hypothesis Hpipes :
  forall v t, ends_in (nodes r) is_done t (pipeline (nodes r) (Fulfilled v)).

Implicit Types c : Cycle W G Item Res E.

Lemma fulfilling_core_step c ch :
  unfailing nodes r P c ->
  (exists c', step nodes ch c = Running c' /\ unfailing nodes r P c') \/
  (ch = Join /\ driver c = AtAll None /\
   forallb is_fulfilled (execPromises c) = true /\
   step nodes ch c = aggregate nodes c).
Proof.
  intros (Hnode & Hps & Hdrv).
  assert (Hstay : exists c', Running c = Running c' /\ unfailing nodes r P c')
    by (exists c; by split; [|split; [|split]]).
  unfold step. rewrite Hnode. destruct ch as [|i|].
  - left. destruct (driver c) as [g|rej] eqn:Hd; [|exact Hstay].
    pose proof (Hnext g (world (mem c)) Hdrv) as Hg.
    destruct (gen_next (nodes r) g (world (mem c))) as [[value g'| |e] w'] eqn:Hgen;
      [| |done].
    + destruct Hg as [[v Hv] Hg']. rewrite Hv.
      set (m0 := log (EvNext r (Some value)) w' (mem c)).
      pose proof (ends_in_advance (nodes r) _ _ _ lasting_is_done
                    (Hpipes v (trace m0)) m0 ltac:(reflexivity)) as Hp.
      pose proof (advance_prefix (nodes r) (pipeline (nodes r) (Fulfilled v)) m0) as Hpre.
      destruct (advance _ _ _) as [p m']. simpl in Hp, Hpre.
      eexists. split; [reflexivity|]. split; [reflexivity|]. simpl.
      split; [apply Forall_app; split; [|by constructor]|exact Hg'].
      apply (safe_later nodes r (trace (mem c))); [|exact Hps].
      etrans; [|exact Hpre]. by eexists.
    + eexists. split; [reflexivity|]. split; [reflexivity|]. simpl.
      split; [|by apply (safe_first_rejection nodes r (trace (mem c)))].
      apply (safe_later nodes r (trace (mem c))); [by eexists | exact Hps].
  - left. destruct (execPromises c !! i) as [p|] eqn:Hp; [|exact Hstay].
    pose proof (ends_in_resume (nodes r) _ _ p (mem c) lasting_is_done
                  (proj1 (Forall_lookup _ _) Hps i p Hp) ltac:(reflexivity)) as Hp'.
    pose proof (resume_prefix (nodes r) p (mem c)) as Hpre.
    destruct (resume (nodes r) p (mem c)) as [p' m']. simpl in Hp', Hpre.
    eexists. split; [reflexivity|]. split; [reflexivity|]. simpl.
    split; [apply Forall_insert;
            [by apply (safe_later nodes r (trace (mem c)))|exact Hp']|].
    destruct (driver c) as [g|[e|]]; simpl; [exact Hdrv | exact Hdrv |].
    destruct p' as [a|e|X c0 k0]; [reflexivity| |reflexivity].
    by destruct (safe_not_thrown nodes r _ e Hp').
  - destruct (driver c) as [g|[e|]] eqn:Hd; [by left | discriminate |].
    destruct (forallb _ _) eqn:Hall; [by right | by left].
Qed.

Lemma fulfilling_step c ch :
  unfailing_status nodes r P t0 (Running c) ->
  unfailing_status nodes r P t0 (step nodes ch c).
Proof.
  destruct (step_added nodes c ch) as (added & Htr & Hcase).
  intros [Hposted | (c0 & [= <-] & Hc & Hcount)].
  - left. rewrite Htr, count_app. simpl in Hposted. lia.
  - destruct (fulfilling_core_step c ch Hc)
      as [(c' & Hstep & Hc') | (_ & _ & _ & Hstep)].
    + destruct Hcase as [[Hnone _] | (_ & _ & _ & res & rest & -> & _)].
      * right. exists c'. split; [exact Hstep|]. split; [exact Hc'|].
        rewrite Hstep in Htr. simpl in Htr. rewrite Htr, count_app. lia.
      * left. rewrite Htr, count_app. simpl. lia.
    + left. rewrite Hstep. pose proof (aggregate_posts nodes c). lia.
Qed.

Lemma fulfilling_schedule sched st :
  unfailing_status nodes r P t0 st ->
  unfailing_status nodes r P t0 (schedule nodes sched st).
Proof.
  apply (schedule_invariant nodes (unfailing_status nodes r P t0)). intros c ch.
  apply fulfilling_step.
Qed.

Lemma fulfilling_can_post st :
  (forall g, P g -> produces (nodes r) g) ->
  unfailing_status nodes r P t0 st ->
  exists sched,
    (count is_post t0 < count is_post (status_trace (schedule nodes sched st)))%nat.
Proof.
  intros Hends [Hposted | (c & -> & Hc & Hcount)]; [by exists []|].
  pose proof Hc as (Hnode & Hps & Hdrv).
  destruct (can_join nodes c) as (sched & c' & Hs & _ & Hend).
  { intros g Hg. rewrite Hg in Hdrv. rewrite Hnode. by apply Hends. }
  assert (Hc' : unfailing_status nodes r P t0 (Running c')).
  { rewrite <- Hs. apply fulfilling_schedule. right. by exists c. }
  destruct Hc' as [Hposted | (c0 & [= <-] & (_ & _ & Hdrv') & Hcount')].
  { exists sched. by rewrite Hs. }
  exists (sched ++ [Join]). rewrite schedule_app, Hs. simpl. unfold step.
  destruct Hend as [[Hd Hall] | [e Hd]]; rewrite Hd in Hdrv'; [|discriminate].
  rewrite Hd, Hall. pose proof (aggregate_posts nodes c'). lia.
Qed.

End FulfillingCycles.

(** ** Nodes whose [exec] returns *)

Section Reliable.

Context {W G Item Res E : Type}.
Variable node : Node W G Item Res E.

Lemma attempts_reliable item (f : Res -> Prog Item Res E unit) :
  always_returns node ->
  (forall v t, ends_in node is_done t (f v)) ->
  forall remaining attempt t,
    (1 <= remaining)%nat ->
    ends_in node is_done t (bind (attempts node item remaining attempt) f).
Proof.
  intros Hreturns Hf remaining attempt t Hpos.
  destruct remaining as [|remaining]; [lia|].
  simpl. constructor. intros m _. simpl.
  destruct (Hreturns item (world m)) as [v Hv].
  destruct (exec node item (world m)) as [result w']. simpl in Hv. subst result.
  simpl. apply Hf.
Qed.

Lemma pipeline_reliable v t :
  always_returns node -> 1 <= maxRetries (config node) ->
  ends_in node is_done t (pipeline node (Fulfilled v)).
Proof.
  intros Hreturns Hmax. unfold pipeline. simpl.
  constructor. intros m _. simpl.
  constructor. intros m1 _. simpl.
  constructor. intros m2 _. simpl.
  apply attempts_reliable; [done | | lia].
  intros result t'. simpl. constructor. intros m3 _. simpl. by constructor.
Qed.

Lemma executeWithRetry_reliable item (m : Mem W Item Res E) :
  always_returns node -> 1 <= maxRetries (config node) ->
  exists v m',
    interp node (executeWithRetry node item) m = (Fulfilled v, m') /\
    trace m' = trace m ++ [EvExec item (inl v)].
Proof.
  intros Hreturns Hmax. unfold executeWithRetry.
  destruct (Z.to_nat (maxRetries (config node))) as [|remaining] eqn:Hrem; [lia|].
  simpl. destruct (Hreturns item (world m)) as [v Hv].
  destruct (exec node item (world m)) as [result w']. simpl in Hv. subst result.
  simpl. by eexists _, _.
Qed.

End Reliable.

(** X20. A node with [maxRetries] at least 1 whose [exec] never throws:
    [executeWithRetry] makes the one call of [exec] and returns its value;
    and wherever in a traversal a cycle of this node begins ([t0] is what
    has been called before), as long as [post] has not been called in this
    cycle [run] has neither failed nor returned, and whatever has happened so
    far the promises can still settle so that [post] is called. *)
Theorem reliable_cycle_posts {W G Item Res E : Type}
    (nodes : NodeRef -> Node W G Item Res E) (r : NodeRef) (w : W)
    (t0 : list (Event Item Res E)) :
  1 <= maxRetries (config (nodes r)) ->
  always_returns (nodes r) ->
  produces (nodes r) (prep (nodes r) w) ->
  (forall item m, exists v m',
      interp (nodes r) (executeWithRetry (nodes r) item) m = (Fulfilled v, m') /\
      trace m' = trace m ++ [EvExec item (inl v)]) /\
  (forall sched,
      let st := schedule nodes sched (start nodes r w t0) in
      ((count is_post (status_trace st) <= count is_post t0)%nat ->
       exists c, st = Running c) /\
      (exists sched',
          (count is_post t0 <
           count is_post
             (status_trace (schedule nodes (sched ++ sched') (start nodes r w t0))))%nat)).
Proof.
  intros Hmax Hreturns Hproduces. split.
  - intros item m. by apply executeWithRetry_reliable.
  - intros sched st.
    assert (Hpipes : forall v t,
               ends_in (nodes r) is_done t (pipeline (nodes r) (Fulfilled v)))
      by (intros v t; by apply pipeline_reliable).
    assert (Hnext : kept_by_next nodes r (produces (nodes r))).
    { intros g w' [g0 Hthrow Hitem Hrest].
      destruct (gen_next (nodes r) g0 w') as [[value g'| |e] w1] eqn:Hgen.
      - split; [by eapply Hitem | by eapply Hrest].
      - done.
      - by destruct (Hthrow _ _ _ Hgen). }
    assert (Hstart : unfailing_status nodes r (produces (nodes r)) t0
                       (start nodes r w t0)).
    { right. eexists. split; [reflexivity|]. split.
      - split; [reflexivity|]. split; [constructor | exact Hproduces].
      - simpl. rewrite count_app. simpl. lia. }
    pose proof (fulfilling_schedule nodes r _ t0 Hnext Hpipes sched _ Hstart) as Hrun.
    fold st in Hrun. split.
    + intros Hzero. destruct Hrun as [Hposted | (c & Hc & _)]; [lia | by exists c].
    + setoid_rewrite schedule_app. fold st.
      by apply (fulfilling_can_post nodes r (produces (nodes r)) t0 Hnext Hpipes).
Qed.

(** On [echo], whose [exec] returns its item with a prefix. *)
Lemma reliable_cycle_posts_witness :
  1 <= maxRetries (config Examples.echo) /\
  always_returns Examples.echo /\
  produces Examples.echo (prep Examples.echo tt) /\
  (forall sched,
      let st := run (fun _ => Examples.echo) sched O tt in
      ((count is_post (status_trace st) <= O)%nat -> exists c, st = Running c) /\
      (exists sched',
          (0 < count is_post
                 (status_trace (run (fun _ => Examples.echo) (sched ++ sched') O tt)))%nat)).
Proof.
  assert (H1 : 1 <= maxRetries (config Examples.echo)) by (vm_compute; discriminate).
  assert (H2 : always_returns Examples.echo) by (intros item w; by eexists).
  assert (H3 : produces Examples.echo (prep Examples.echo tt))
    by (by apply produces_yield_each).
  split; [exact H1|]. split; [exact H2|]. split; [exact H3|].
  exact (proj2 (reliable_cycle_posts (fun _ => Examples.echo) O tt [] H1 H2 H3)).
Defined.

(** ** [ParallelNode] of the test suite *)

Section ParallelNodeRun.

Variable mockLLM_call : string -> string.
Variable queries0 : list string.

Abbreviation parallel := (ParallelExecutionTest.ParallelNode mockLLM_call None).
Abbreviation parallels := (fun _ : NodeRef => parallel).
Abbreviation store0 :=
  {| ParallelExecutionTest.queries := queries0;
     ParallelExecutionTest.results := None |}.

Implicit Types c : Cycle ParallelExecutionTest.ParallelStore nat string string string.
Implicit Types m : Mem ParallelExecutionTest.ParallelStore string string string.

Lemma parallel_perform_world {X} (call : Call string string string X) m :
  world (snd (perform parallel call m)) = world m.
Proof. by destruct call. Qed.

Lemma parallel_advance_world {A} (p : Prog string string string A) :
  forall m, world (snd (advance parallel p m)) = world m.
Proof.
  induction p as [a|e|X call K IH]; intros m; simpl; try reflexivity.
  destruct (is_async call); [reflexivity|].
  pose proof (parallel_perform_world call m) as Hw.
  destruct (perform parallel call m) as [o m1]. simpl in Hw. by rewrite IH.
Qed.

Lemma parallel_resume_world {A} (p : Prog string string string A) m :
  world (snd (resume parallel p m)) = world m.
Proof.
  destruct p as [a|e|X call K]; simpl; try reflexivity.
  pose proof (parallel_perform_world call m) as Hw.
  destruct (perform parallel call m) as [o m1]. simpl in Hw.
  by rewrite parallel_advance_world.
Qed.

Lemma parallel_aggregate c :
  aggregate parallels c
  = Returned {| ParallelExecutionTest.queries :=
                  ParallelExecutionTest.queries (world (mem c));
                ParallelExecutionTest.results := Some (execResults (mem c)) |}
      (trace (mem c)
       ++ [EvPost (node c) (prepItems (mem c)) (execResults (mem c)) (inl ANull)]).
Proof. reflexivity. Qed.

Lemma in_cycle_step c ch c' :
  ParallelExecutionTest.in_cycle store0 c ->
  step parallels ch c = Running c' ->
  ParallelExecutionTest.in_cycle store0 c'.
Proof.
  intros [Hw Hy]. unfold step. cbv beta. destruct ch as [|i|].
  - destruct (driver c) as [i|rej] eqn:Hd; [|intros [= <-]; split; [done | by rewrite Hd]].
    change (gen_next parallel i (world (mem c)))
      with (ParallelExecutionTest.prep_next i (world (mem c))).
    unfold ParallelExecutionTest.prep_next. rewrite Hw.
    cbn [ParallelExecutionTest.queries].
    destruct (queries0 !! i) as [query|] eqn:Hq.
    + pose proof (advance_trace parallel (pipeline parallel (item_promise (YValue query)))
                    (log (EvNext (node c) (Some (YValue query))) store0 (mem c)))
        as (l & Hl & Hquiet).
      pose proof (parallel_advance_world
                    (pipeline parallel (item_promise (YValue query)))
                    (log (EvNext (node c) (Some (YValue query))) store0 (mem c))) as Hw'.
      destruct (advance _ _ _) as [p m']. simpl in Hl, Hw'. intros [= <-].
      split; [exact Hw'|]. simpl.
      rewrite Hl, (yields_quiet _ _ Hquiet), yields_snoc, Hy.
      by rewrite (take_S_r _ _ _ Hq), fmap_app.
    + intros [= <-]. split; [reflexivity|]. simpl. rewrite yields_snoc, Hy.
      rewrite take_ge; [reflexivity|]. by apply lookup_ge_None.
  - destruct (execPromises c !! i) as [p|]; [|intros [= <-]; by split].
    pose proof (resume_trace parallel p (mem c)) as (l & Hl & Hquiet).
    pose proof (parallel_resume_world p (mem c)) as Hw'.
    destruct (resume _ p _) as [p' m']. simpl in Hl, Hw'. intros [= <-].
    split; [simpl; congruence|]. simpl. rewrite Hl, (yields_quiet _ _ Hquiet), Hy.
    destruct (driver c) as [g|[e|]]; [reflexivity | reflexivity |].
    by destruct p'.
  - destruct (driver c) as [i|[e|]] eqn:Hd.
    + intros [= <-]. split; [done | by rewrite Hd].
    + discriminate.
    + destruct (forallb _ _); [by rewrite parallel_aggregate|].
      intros [= <-]. split; [done | by rewrite Hd].
Qed.

Lemma fulfilled_inj {E A : Type} (l1 l2 : list A) :
  (Fulfilled <$> l1 : list (Settled E A)) = Fulfilled <$> l2 -> l1 = l2.
Proof.
  revert l2; induction l1 as [|a l1 IH]; intros [|b l2] Heq; simpl in Heq;
    try discriminate; [reflexivity|].
  injection Heq as -> Heq. f_equal. by apply IH.
Qed.

Lemma parallel_results (pairs : list (string * string)) :
  Forall (fun p => result_for parallel p.1 p.2) pairs ->
  pairs.*2 = mockLLM_call <$> pairs.*1.
Proof.
  induction 1 as [|[v result] pairs Hr _ IH]; [reflexivity|].
  destruct Hr as (w & [Hexec | (fb & err & Hfb & _)]); [|discriminate].
  simpl in Hexec. injection Hexec as <-. simpl. f_equal. exact IH.
Qed.

Lemma parallel_pipelines v t :
  ends_in parallel is_done t (pipeline parallel (Fulfilled v)).
Proof.
  apply pipeline_reliable; [|by vm_compute].
  intros item w. by eexists.
Qed.

Lemma parallel_next : kept_by_next parallels O (fun _ => True).
Proof.
  intros i w _. simpl. unfold ParallelExecutionTest.prep_next.
  destruct (_ !! i) as [query|]; [|done]. split; [by eexists | done].
Qed.

Lemma answered_step c ch :
  ParallelExecutionTest.answered mockLLM_call store0 (Running c) ->
  ParallelExecutionTest.answered mockLLM_call store0 (step parallels ch c).
Proof.
  intros [(c0 & [= <-] & Hsafe & Hpaired & Hin) | (rs & t & [=] & _)].
  destruct (fulfilling_core_step parallels O (fun _ => True)
              parallel_next parallel_pipelines c ch Hsafe)
    as [(c' & Hstep & Hsafe') | (_ & Hd & Hall & Hstep)].
  - left. exists c'. split; [exact Hstep|]. split; [exact Hsafe'|].
    split; [|by apply (in_cycle_step c ch)].
    pose proof (paired_step parallels c ch Hpaired) as Hp. by rewrite Hstep in Hp.
  - right. rewrite Hstep, parallel_aggregate.
    destruct Hin as [Hw Hy]. rewrite Hd in Hy. rewrite Hw. simpl.
    eexists _, _. split; [reflexivity|].
    destruct Hpaired as (stages & Hst & _ & Hresults & Hpromises).
    destruct (carried_pairs _ stages _ Hst Hall) as (_ & H2 & H3 & H4).
    rewrite Hpromises, Hy in H4. rewrite <- list_fmap_compose in H4.
    assert (Hitems : (omap pair_of stages).*1 = queries0).
    { symmetry. apply (fulfilled_inj (E := string)). exact H4. }
    by rewrite Hresults, H2, (parallel_results _ H3), Hitems.
Qed.

Lemma answered_always sched :
  ParallelExecutionTest.answered mockLLM_call store0 (run parallels sched O store0).
Proof.
  unfold run. apply (schedule_invariant parallels
                       (ParallelExecutionTest.answered mockLLM_call store0)).
  - apply answered_step.
  - left. eexists. split; [reflexivity|]. split.
    + split; [reflexivity|]. split; [constructor | done].
    + split; [exact (paired_start parallels O store0 []) | by split].
Qed.

(** The generator is pulled until it has gone through the array. *)
Lemma parallel_pull (d : nat) :
  forall c i,
    d = (length queries0 - i)%nat -> driver c = AtNext i -> world (mem c) = store0 ->
    exists k c',
      schedule parallels (replicate k Pull) (Running c) = Running c' /\
      exists rej, driver c' = AtAll rej.
Proof.
  induction d as [|d IH]; intros c i Hdist Hd Hw.
  - assert (Hnext : gen_next (parallels (node c)) i (world (mem c))
                    = (ItDone, world (mem c))).
    { rewrite Hw. simpl. unfold ParallelExecutionTest.prep_next. simpl.
      rewrite (proj2 (lookup_ge_None queries0 i)); [reflexivity | lia]. }
    eexists 1%nat, _. cbn [replicate schedule].
    rewrite (step_pull_done parallels c i _ Hd Hnext). split; [reflexivity|].
    by eexists.
  - destruct (lookup_lt_is_Some_2 queries0 i ltac:(lia)) as [query Hq].
    assert (Hnext : gen_next (parallels (node c)) i (world (mem c))
                    = (ItYield (YValue query) (S i), world (mem c))).
    { rewrite Hw. simpl. unfold ParallelExecutionTest.prep_next. simpl.
      by rewrite Hq. }
    pose proof (step_pull_yield parallels c i _ _ _ Hd Hnext) as Hstep.
    cbv zeta in Hstep.
    match type of Hstep with
    | _ = Running ?c1 =>
        destruct (IH c1 (S i)) as (k & c' & Hs & Hrej);
          [lia | reflexivity
          | cbn [mem]; cbv beta; by rewrite parallel_advance_world |]
    end.
    exists (S k), c'. cbn [replicate schedule]. rewrite Hstep.
    split; [exact Hs | exact Hrej].
Qed.

(** X21. [ParallelNode] of the test suite, run on a store with any array
    of queries.  Under any schedule [run] is never rejected, and when it has
    returned, [store.results] holds the answers of [mockLLM] to the queries,
    one for each query, in some order; and the promises can settle so that
    [run] returns. *)
Theorem parallel_node_run :
  (forall sched,
      (exists c, run parallels sched O store0 = Running c) \/
      (exists rs t,
          run parallels sched O store0
          = Returned {| ParallelExecutionTest.queries := queries0;
                        ParallelExecutionTest.results := Some rs |} t /\
          rs ≡ₚ mockLLM_call <$> queries0 /\ length rs = length queries0)) /\
  (exists sched rs t,
      run parallels sched O store0
      = Returned {| ParallelExecutionTest.queries := queries0;
                    ParallelExecutionTest.results := Some rs |} t).
Proof.
  split.
  - intros sched.
    destruct (answered_always sched) as [(c & Hc & _) | (rs & t & Hrun & Hrs)].
    + left. by exists c.
    + right. exists rs, t. split; [exact Hrun|]. split; [exact Hrs|].
      by rewrite Hrs, length_fmap.
  - pose (c0 := {| mem := {| world := store0; trace := [] ++ [EvPrep O];
                             prepItems := []; execResults := [] |};
                   node := O; execPromises := []; driver := AtNext O |}
                : Cycle ParallelExecutionTest.ParallelStore nat string string string).
    assert (Hstart : start parallels O store0 [] = Running c0) by reflexivity.
    destruct (parallel_pull (length queries0 - 0) c0 O)
      as (k & c1 & Hs1 & rej & Hd1); [reflexivity | reflexivity | reflexivity |].
    destruct (can_join parallels c1) as (sched2 & c2 & Hs2 & _ & Hend).
    { intros g Hg. rewrite Hd1 in Hg. discriminate. }
    pose proof (answered_always (replicate k Pull ++ sched2)) as Hans.
    unfold run in Hans. rewrite Hstart, schedule_app, Hs1, Hs2 in Hans.
    destruct Hans as [(c & [= <-] & (_ & _ & Hdrv) & _ & [Hw _]) | (rs & t & [=] & _)].
    destruct Hend as [[Hd Hall] | [e Hd]]; rewrite Hd in Hdrv; [|discriminate].
    exists (replicate k Pull ++ sched2 ++ [Join]). eexists _, _.
    unfold run. rewrite Hstart, !schedule_app, Hs1, Hs2. simpl. unfold step.
    rewrite Hd, Hall, parallel_aggregate, Hw. reflexivity.
Qed.

End ParallelNodeRun.

(** ** The workflow of the test suite *)

Section WorkflowRun.

Variable mockLLM_call : string -> string.
Variable query : string.

Abbreviation workflow := (WorkflowTest.workflow mockLLM_call).
Abbreviation research := (mockLLM_call (String.append "Research the following topic: " query)).
Abbreviation outlined :=
  (mockLLM_call (String.append "Create an outline based on: " research)).
Abbreviation report :=
  (mockLLM_call (String.append "Write a report following this outline: " outlined)).
Abbreviation stored a b c :=
  {| WorkflowTest.userQuery := query; WorkflowTest.researchResults := a;
     WorkflowTest.outline := b; WorkflowTest.finalReport := c |}.

Implicit Types t : list (Event string string string).

Lemma research_cycle t sched :
  (exists c, schedule workflow sched (start workflow O (stored None None None) t)
             = Running c) \/
  (exists tr sched',
      schedule workflow sched (start workflow O (stored None None None) t)
      = schedule workflow sched' (start workflow 1%nat (stored (Some research) None None) tr)).
Proof.
  destruct (one_item_always workflow O (stored None None None) t
              (YValue (String.append "Research the following topic: " query)) _
              false (stored None None None) [] (Fulfilled research)
              (WorkflowTest.once (stored None None None) _ research [])
              eq_refl eq_refl (fun _ => eq_refl) eq_refl sched)
    as [(c & Hc & _) | [(e & tr & [=] & _) | (result & tr & sched' & [= <-] & Hst)]].
  - left. by exists c.
  - right. eexists _, sched'. rewrite Hst. reflexivity.
Qed.

Lemma outline_cycle t sched :
  (exists c, schedule workflow sched (start workflow 1%nat (stored (Some research) None None) t)
             = Running c) \/
  (exists tr sched',
      schedule workflow sched (start workflow 1%nat (stored (Some research) None None) t)
      = schedule workflow sched'
          (start workflow 2%nat (stored (Some research) (Some outlined) None) tr)).
Proof.
  destruct (one_item_always workflow 1%nat (stored (Some research) None None) t
              (YValue (String.append "Create an outline based on: " research)) _
              false (stored (Some research) None None) [] (Fulfilled outlined)
              (WorkflowTest.once (stored (Some research) None None) _ outlined [])
              eq_refl eq_refl (fun _ => eq_refl) eq_refl sched)
    as [(c & Hc & _) | [(e & tr & [=] & _) | (result & tr & sched' & [= <-] & Hst)]].
  - left. by exists c.
  - right. eexists _, sched'. rewrite Hst. reflexivity.
Qed.

Lemma writer_cycle t sched :
  (exists c, schedule workflow sched
               (start workflow 2%nat (stored (Some research) (Some outlined) None) t)
             = Running c) \/
  (exists tr,
      schedule workflow sched
        (start workflow 2%nat (stored (Some research) (Some outlined) None) t)
      = Returned (stored (Some research) (Some outlined) (Some report)) tr).
Proof.
  destruct (one_item_always workflow 2%nat (stored (Some research) (Some outlined) None) t
              (YValue (String.append "Write a report following this outline: " outlined)) _
              false (stored (Some research) (Some outlined) None) [] (Fulfilled report)
              (WorkflowTest.once (stored (Some research) (Some outlined) None) _ report [])
              eq_refl eq_refl (fun _ => eq_refl) eq_refl sched)
    as [(c & Hc & _) | [(e & tr & [=] & _) | (result & tr & sched' & [= <-] & Hst)]].
  - left. by exists c.
  - right. eexists. rewrite Hst. by destruct sched'.
Qed.

Lemma research_in_turn t :
  exists k tr,
    schedule workflow (Pull :: replicate k (Settle O) ++ [Pull; Join])
      (start workflow O (stored None None None) t)
    = start workflow 1%nat (stored (Some research) None None) tr.
Proof.
  destruct (one_item_in_turn workflow O (stored None None None) t
              (YValue (String.append "Research the following topic: " query)) _
              false (stored None None None) (Fulfilled research)
              (WorkflowTest.once (stored None None None) _ research _)
              (stored None None None) eq_refl eq_refl eq_refl eq_refl) as [k Hk].
  exists k. eexists. rewrite Hk. reflexivity.
Qed.

Lemma outline_in_turn t :
  exists k tr,
    schedule workflow (Pull :: replicate k (Settle O) ++ [Pull; Join])
      (start workflow 1%nat (stored (Some research) None None) t)
    = start workflow 2%nat (stored (Some research) (Some outlined) None) tr.
Proof.
  destruct (one_item_in_turn workflow 1%nat (stored (Some research) None None) t
              (YValue (String.append "Create an outline based on: " research)) _
              false (stored (Some research) None None) (Fulfilled outlined)
              (WorkflowTest.once (stored (Some research) None None) _ outlined _)
              (stored (Some research) None None) eq_refl eq_refl eq_refl eq_refl)
    as [k Hk].
  exists k. eexists. rewrite Hk. reflexivity.
Qed.

Lemma writer_in_turn t :
  exists k tr,
    schedule workflow (Pull :: replicate k (Settle O) ++ [Pull; Join])
      (start workflow 2%nat (stored (Some research) (Some outlined) None) t)
    = Returned (stored (Some research) (Some outlined) (Some report)) tr.
Proof.
  destruct (one_item_in_turn workflow 2%nat (stored (Some research) (Some outlined) None) t
              (YValue (String.append "Write a report following this outline: " outlined)) _
              false (stored (Some research) (Some outlined) None) (Fulfilled report)
              (WorkflowTest.once (stored (Some research) (Some outlined) None) _ report _)
              (stored (Some research) (Some outlined) None)
              eq_refl eq_refl eq_refl eq_refl) as [k Hk].
  exists k. eexists. rewrite Hk. reflexivity.
Qed.

(** X22. The workflow of the test suite, [researchNode] connected to
    [outlineNode] and [outlineNode] to [writerNode], run on a store that
    holds a query.  Under any schedule [run] is never rejected, and when it
    has returned the store holds the answer of [mockLLM] to the research
    prompt, its answer to the outline prompt made from that, and its answer
    to the report prompt made from the outline; the actions 'outline' and
    'write' that [post] returns have no edge, and the default edges are
    followed.  And the promises can settle so that [run] returns. *)
Theorem workflow_run :
  (forall sched,
      (exists c, run workflow sched O (stored None None None) = Running c) \/
      (exists t, run workflow sched O (stored None None None)
                 = Returned (stored (Some research) (Some outlined) (Some report)) t)) /\
  (exists sched t,
      run workflow sched O (stored None None None)
      = Returned (stored (Some research) (Some outlined) (Some report)) t).
Proof.
  split.
  - intros sched. unfold run.
    destruct (research_cycle [] sched) as [Hrunning | (tr1 & sched1 & ->)];
      [by left|].
    destruct (outline_cycle tr1 sched1) as [Hrunning | (tr2 & sched2 & ->)];
      [by left|].
    destruct (writer_cycle tr2 sched2) as [Hrunning | (tr3 & ->)]; [by left|].
    right. by exists tr3.
  - destruct (research_in_turn []) as (k1 & tr1 & H1).
    destruct (outline_in_turn tr1) as (k2 & tr2 & H2).
    destruct (writer_in_turn tr2) as (k3 & tr3 & H3).
    exists ((Pull :: replicate k1 (Settle O) ++ [Pull; Join])
            ++ (Pull :: replicate k2 (Settle O) ++ [Pull; Join])
            ++ (Pull :: replicate k3 (Settle O) ++ [Pull; Join])), tr3.
    unfold run. by rewrite !schedule_app, H1, H2, H3.
Qed.

End WorkflowRun.

(** ** The configuration a node is constructed with *)

Section DefaultPolicy.

Context {W G Item Res E : Type}.
Variable node : Node W G Item Res E.
Variable item : Item.

(** X23. A node constructed without a configuration, or with one that
    gives neither [maxRetries] nor [retryDelay], has the default retry
    policy: when [exec] fails at every attempt, [onError] returns and there
    is no [execFallback], [executeWithRetry] calls [exec] three times,
    reports the first two failures to [onError] as attempts 1 and 2 of 3,
    sleeps 2000 ms after each of them, and throws the third failure. *)
Theorem default_policy (config' : option PartialConfig) (m : Mem W Item Res E) :
  config node = spread_config config' ->
  (forall c, config' = Some c -> p_maxRetries c = None /\ p_retryDelay c = None) ->
  always_fails node ->
  onError_returns node ->
  execFallback node = None ->
  exists e1 e2 e3 m',
    interp node (executeWithRetry node item) m = (Rejected (Thrown e3), m') /\
    trace m' = trace m ++
      [EvExec item (inr e1); EvOnError (Thrown e1) 1 3; EvSetTimeout 2000;
       EvExec item (inr e2); EvOnError (Thrown e2) 2 3; EvSetTimeout 2000;
       EvExec item (inr e3)].
Proof.
  intros Hconfig Hgiven Hfails Hquiet Hnone.
  assert (Hreport : forall error attempt w,
            exists w', onError node error attempt 3 w = (inl tt, w')).
  { intros error attempt w. pose proof (Hquiet error attempt 3 w) as H.
    destruct (onError node error attempt 3 w) as [report w']. simpl in H. subst report.
    by exists w'. }
  assert (Hmax : maxRetries (config node) = 3).
  { rewrite Hconfig. destruct config' as [c|]; [|reflexivity].
    destruct (Hgiven c eq_refl) as [H1 _]. simpl. by rewrite H1. }
  assert (Hdelay : retryDelay (config node) = 2000).
  { rewrite Hconfig. destruct config' as [c|]; [|reflexivity].
    destruct (Hgiven c eq_refl) as [_ H2]. simpl. by rewrite H2. }
  unfold executeWithRetry. rewrite Hmax. simpl. rewrite Hmax, Hdelay, Hnone. simpl.
  destruct (Hfails item (world m)) as [e1 He1].
  destruct (exec node item (world m)) as [r1 w1]. simpl in He1. subst r1. simpl.
  destruct (Hreport (Thrown e1) (0 + 1) w1) as [w1' ->]. simpl.
  destruct (Hfails item w1') as [e2 He2].
  destruct (exec node item w1') as [r2 w2]. simpl in He2. subst r2. simpl.
  destruct (Hreport (Thrown e2) (0 + 1 + 1) w2) as [w2' ->]. simpl.
  destruct (Hfails item w2') as [e3 He3].
  destruct (exec node item w2') as [r3 w3]. simpl in He3. subst r3. simpl.
  exists e1, e2, e3. eexists. split; [reflexivity|].
  simpl. by rewrite <- !app_assoc.
Qed.

End DefaultPolicy.

(** On [hopeless], constructed without a configuration. *)
Lemma default_policy_witness :
  config Examples.hopeless = spread_config None /\
  always_fails Examples.hopeless /\
  onError_returns Examples.hopeless /\
  execFallback Examples.hopeless = None /\
  exists e1 e2 e3 m',
    interp Examples.hopeless (executeWithRetry Examples.hopeless "a"%string)
      (Examples.fresh tt) = (Rejected (Thrown e3), m') /\
    trace m' = trace (Examples.fresh tt) ++
      [EvExec "a"%string (inr e1); EvOnError (Thrown e1) 1 3; EvSetTimeout 2000;
       EvExec "a"%string (inr e2); EvOnError (Thrown e2) 2 3; EvSetTimeout 2000;
       EvExec "a"%string (inr e3)].
Proof.
  assert (H1 : config Examples.hopeless = spread_config None) by reflexivity.
  assert (H2 : forall c, (None : option PartialConfig) = Some c ->
                 p_maxRetries c = None /\ p_retryDelay c = None)
    by (intros c; discriminate).
  assert (H3 : always_fails Examples.hopeless) by (intros item w; by eexists).
  assert (H4 : execFallback Examples.hopeless = None) by reflexivity.
  assert (H5 : onError_returns Examples.hopeless) by (intros error a mx w; reflexivity).
  split; [exact H1|]. split; [exact H3|]. split; [exact H5|]. split; [exact H4|].
  exact (default_policy Examples.hopeless "a"%string None (Examples.fresh tt)
           H1 H2 H3 H5 H4).
Defined.

(** ** [ConfigurableNode], run *)

Section ConfigurableNodeRun.

Variable mockLLM_call : string -> string.

Abbreviation ConfigWorld := (WithParams string NodeConfigurationTest.ConfigStore).
Abbreviation configured a b :=
  {| NodeConfigurationTest.input := a; NodeConfigurationTest.output := b |}.

Lemma prefix_given this (w : ConfigWorld) :
  NodeConfigurationTest.prefix this w
  = default ""%string (params w this !! "prefix"%string).
Proof.
  unfold NodeConfigurationTest.prefix.
  destruct (params w this !! "prefix"%string) as [s|]; [|reflexivity].
  simpl. destruct (String.eqb_spec s ""); by subst.
Qed.

Lemma configurable_exec (n : Node ConfigWorld bool string string string) prompt
    (m : Mem ConfigWorld string string string) :
  exec n = NodeConfigurationTest.exec mockLLM_call ->
  1 <= maxRetries (config n) ->
  interp n (executeWithRetry n prompt) m =
  (Fulfilled (mockLLM_call prompt),
   {| world := world m;
      trace := trace m ++ [EvExec prompt (inl (mockLLM_call prompt))];
      prepItems := prepItems m; execResults := execResults m |}).
Proof.
  intros Hexec Hmax. unfold executeWithRetry.
  destruct (Z.to_nat (maxRetries (config n))) as [|k] eqn:Hk; [lia|].
  simpl. rewrite Hexec. reflexivity.
Qed.

(** X24. [ConfigurableNode] of the test suite, constructed with
    [maxRetries] at least 1 and run alone after two calls of [setParams].
    The parameters of the second call replace those of the first: the prompt
    is the [prefix] of the second call, or nothing when it gives none,
    followed by the input.  The promises can settle so that [run] returns;
    and under any schedule [run] is never rejected, and when it has returned
    the store holds as [output] the answer of [mockLLM] to that prompt. *)
Theorem configurable_node_run (config : option PartialConfig)
    (earlier given : Params string) (input0 : string) :
  1 <= maxRetries (spread_config config) ->
  let nodes := fun _ : NodeRef =>
    NodeConfigurationTest.ConfigurableNode mockLLM_call O config in
  let w0 : ConfigWorld :=
    setParams O given (setParams O earlier (no_params (configured input0 None))) in
  let final : ConfigWorld :=
    {| params := params w0;
       store :=
         configured input0
           (Some (mockLLM_call
                    (String.append (default ""%string (given !! "prefix"%string))
                       input0))) |} in
  (exists sched t, run nodes sched O w0 = Returned final t) /\
  (forall sched,
      (exists c, run nodes sched O w0 = Running c) \/
      (exists t, run nodes sched O w0 = Returned final t)).
Proof.
  intros Hmax nodes w0 final.
  pose (prompt := String.append (NodeConfigurationTest.prefix O w0) input0).
  assert (Hprefix : NodeConfigurationTest.prefix O w0
                    = default ""%string (given !! "prefix"%string))
    by (by rewrite prefix_given).
  assert (Hposted : forall tr, exists t,
            after_all nodes O prompt (mockLLM_call prompt) w0 tr = Returned final t).
  { intros tr. eexists. unfold after_all, aggregate. simpl.
    unfold route, getEdge, js_or. simpl. unfold final, prompt. by rewrite Hprefix. }
  split.
  - destruct (one_item_in_turn nodes O w0 [] (YValue prompt) prompt false w0 _ _ w0
                eq_refl eq_refl
                (configurable_exec (nodes O) prompt _ eq_refl Hmax) eq_refl)
      as [k Hk].
    destruct (Hposted
                (([] ++ [EvPrep O; EvNext O (Some (YValue prompt))])
                 ++ [EvExec prompt (inl (mockLLM_call prompt))] ++ [EvNext O None]))
      as [t Ht].
    exists (Pull :: replicate k (Settle O) ++ [Pull; Join]), t.
    unfold run. rewrite Hk. simpl. simpl in Ht. rewrite <- Ht. reflexivity.
  - intros sched.
    destruct (one_item_always nodes O w0 [] (YValue prompt) prompt false w0 [] _ _
                eq_refl eq_refl (fun _ => eq_refl)
                (configurable_exec (nodes O) prompt _ eq_refl Hmax) sched)
      as [(c & Hc & _) | [(e & tr & [=] & _) | (result & tr & sched' & [= <-] & Hst)]].
    + left. by exists c.
    + right. destruct (Hposted tr) as [t Ht].
      exists t. unfold run. rewrite Hst. simpl. rewrite Ht. by destruct sched'.
Qed.

(** X25. A [ConfigurableNode] with parameters set, connected by
    [connect(nextNode)] to a second [ConfigurableNode] on which [setParams]
    was not called, both constructed with [maxRetries] at least 1.  The
    parameters are the node's own: the second node makes its prompt without
    a prefix, whatever the first node was given.  Under any schedule [run] is
    never rejected, and when it has returned the store holds as [output] the
    answer of [mockLLM] to the input alone, the [output] of the first node
    being overwritten; and the promises can settle so that [run] returns. *)
Theorem params_are_per_node (config0 config1 : option PartialConfig)
    (given : Params string) (input0 : string) :
  1 <= maxRetries (spread_config config0) ->
  1 <= maxRetries (spread_config config1) ->
  let nodes := fun r : NodeRef =>
    match r with
    | O => connect (VNode 1%nat) None
             (NodeConfigurationTest.ConfigurableNode mockLLM_call O config0)
    | _ => NodeConfigurationTest.ConfigurableNode mockLLM_call 1%nat config1
    end in
  let w0 : ConfigWorld := setParams O given (no_params (configured input0 None)) in
  let final : ConfigWorld :=
    {| params := params w0;
       store := configured input0 (Some (mockLLM_call input0)) |} in
  (exists sched t, run nodes sched O w0 = Returned final t) /\
  (forall sched,
      (exists c, run nodes sched O w0 = Running c) \/
      (exists t, run nodes sched O w0 = Returned final t)).
Proof.
  intros Hmax0 Hmax1 nodes w0 final.
  pose (prompt := String.append (NodeConfigurationTest.prefix O w0) input0).
  pose (w1 := {| params := params w0;
                 store := configured input0 (Some (mockLLM_call prompt)) |}
              : ConfigWorld).
  assert (Hfirst : forall tr, exists t,
            after_all nodes O prompt (mockLLM_call prompt) w0 tr
            = start nodes 1%nat w1 t).
  { intros tr. eexists. unfold after_all, aggregate. simpl.
    unfold route, getEdge, js_or. simpl. reflexivity. }
  assert (Hsecond : forall tr, exists t,
            after_all nodes 1%nat input0 (mockLLM_call input0) w1 tr
            = Returned final t).
  { intros tr. eexists. unfold after_all, aggregate. simpl.
    unfold route, getEdge, js_or. simpl. reflexivity. }
  split.
  - destruct (one_item_in_turn nodes O w0 [] (YValue prompt) prompt false w0 _ _ w0
                eq_refl eq_refl
                (configurable_exec (nodes O) prompt _ eq_refl Hmax0) eq_refl)
      as [k0 Hk0].
    cbv iota in Hk0.
    match type of Hk0 with
    | _ = after_all _ _ _ _ _ ?tr => destruct (Hfirst tr) as [t1 Ht1]
    end.
    destruct (one_item_in_turn nodes 1%nat w1 t1 (YValue input0) input0 false w1 _ _ w1
                eq_refl eq_refl
                (configurable_exec (nodes 1%nat) input0 _ eq_refl Hmax1) eq_refl)
      as [k1 Hk1].
    cbv iota in Hk1.
    match type of Hk1 with
    | _ = after_all _ _ _ _ _ ?tr => destruct (Hsecond tr) as [t2 Ht2]
    end.
    exists ((Pull :: replicate k0 (Settle O) ++ [Pull; Join])
            ++ (Pull :: replicate k1 (Settle O) ++ [Pull; Join])), t2.
    unfold run. by rewrite schedule_app, Hk0, Ht1, Hk1, Ht2.
  - intros sched. unfold run.
    destruct (one_item_always nodes O w0 [] (YValue prompt) prompt false w0 [] _ _
                eq_refl eq_refl (fun _ => eq_refl)
                (configurable_exec (nodes O) prompt _ eq_refl Hmax0) sched)
      as [(c & Hc & _) | [(e & tr & [=] & _) | (result & tr & sched' & [= <-] & Hst)]].
    { left. by exists c. }
    simpl in Hst. destruct (Hfirst tr) as [t1 Ht1]. rewrite Ht1 in Hst.
    rewrite Hst.
    destruct (one_item_always nodes 1%nat w1 t1 (YValue input0) input0 false w1 [] _ _
                eq_refl eq_refl (fun _ => eq_refl)
                (configurable_exec (nodes 1%nat) input0 _ eq_refl Hmax1) sched')
      as [(c & Hc & _) | [(e & tr' & [=] & _) | (result & tr' & sched'' & [= <-] & Hst')]].
    { left. by exists c. }
    right. simpl in Hst'. destruct (Hsecond tr') as [t2 Ht2]. rewrite Ht2 in Hst'.
    exists t2. rewrite Hst'. by destruct sched''.
Qed.

End ConfigurableNodeRun.

(** The test 'nodes can be configured with custom parameters', after an
    earlier call of [setParams]. *)
Lemma configurable_node_run_witness :
  let llm := String.append "Response to: " in
  let nodes := fun _ : NodeRef => NodeConfigurationTest.ConfigurableNode llm O None in
  let earlier : Params string := {[ "prefix"%string := "Prompt: "%string ]} in
  let given : Params string := {[ "prefix"%string := "Say: "%string ]} in
  let w0 : WithParams string NodeConfigurationTest.ConfigStore :=
    setParams O given
      (setParams O earlier
         (no_params {| NodeConfigurationTest.input := "Hello";
                       NodeConfigurationTest.output := None |})) in
  let final : WithParams string NodeConfigurationTest.ConfigStore :=
    {| params := params w0;
       store := {| NodeConfigurationTest.input := "Hello";
                   NodeConfigurationTest.output :=
                     Some "Response to: Say: Hello"%string |} |} in
  1 <= maxRetries (spread_config None) /\
  (exists sched t, run nodes sched O w0 = Returned final t) /\
  (forall sched,
      (exists c, run nodes sched O w0 = Running c) \/
      (exists t, run nodes sched O w0 = Returned final t)).
Proof.
  intros llm nodes earlier given w0 final.
  assert (H : 1 <= maxRetries (spread_config None)) by (simpl; lia).
  split; [exact H|].
  exact (configurable_node_run llm None earlier given "Hello" H).
Defined.

(** The nodes of the test 'configuration supports method chaining', run. *)
Lemma params_are_per_node_witness :
  let llm := String.append "Response to: " in
  let config0 :=
    Some {| p_maxRetries := Some 2; p_retryDelay := None; p_timeout := None |} in
  let nodes := fun r : NodeRef =>
    match r with
    | O => connect (VNode 1%nat) None
             (NodeConfigurationTest.ConfigurableNode llm O config0)
    | _ => NodeConfigurationTest.ConfigurableNode llm 1%nat None
    end in
  let given : Params string := {[ "prefix"%string := "Prompt: "%string ]} in
  let w0 : WithParams string NodeConfigurationTest.ConfigStore :=
    setParams O given
      (no_params {| NodeConfigurationTest.input := "Test";
                    NodeConfigurationTest.output := None |}) in
  let final : WithParams string NodeConfigurationTest.ConfigStore :=
    {| params := params w0;
       store := {| NodeConfigurationTest.input := "Test";
                   NodeConfigurationTest.output := Some "Response to: Test"%string |} |} in
  1 <= maxRetries (spread_config config0) /\
  1 <= maxRetries (spread_config None) /\
  (exists sched t, run nodes sched O w0 = Returned final t) /\
  (forall sched,
      (exists c, run nodes sched O w0 = Running c) \/
      (exists t, run nodes sched O w0 = Returned final t)).
Proof.
  intros llm config0 nodes given w0 final.
  assert (H0 : 1 <= maxRetries (spread_config config0)) by (simpl; lia).
  assert (H1 : 1 <= maxRetries (spread_config None)) by (simpl; lia).
  split; [exact H0|]. split; [exact H1|].
  exact (params_are_per_node llm config0 None given "Test" H0 H1).
Defined.

(** ** The two agents, run *)

Section MultiAgentRun.

Variable mockLLM_call : string -> string.
Variable target : option string.

Abbreviation agents := (MultiAgentTest.agents mockLLM_call).
Abbreviation hint :=
  {| MultiAgentTest.from := "Hinter";
     MultiAgentTest.content := Some "related-clue"%string |}.
Abbreviation wrong :=
  {| MultiAgentTest.from := "Guesser";
     MultiAgentTest.content := Some "wrong-guess"%string |}.
Abbreviation right_guess :=
  {| MultiAgentTest.from := "Guesser"; MultiAgentTest.content := target |}.
Abbreviation told ms g k :=
  {| MultiAgentTest.messages := ms; MultiAgentTest.targetWord := target;
     MultiAgentTest.guessed := g; MultiAgentTest.rounds := k |}.

Implicit Types t : list (Event string (option string) string).
Implicit Types ms : list MultiAgentTest.Message.
Implicit Types g : option bool.
Implicit Types k : Z.

Lemma hinter_cycle ms g k t sched :
  (exists c, schedule agents sched (start agents O (told ms g k) t) = Running c) \/
  (exists tr sched',
      schedule agents sched (start agents O (told ms g k) t)
      = schedule agents sched' (start agents 1%nat (told (ms ++ [hint]) g k) tr)).
Proof.
  destruct (one_item_always agents O (told ms g k) t
              (YValue (MultiAgentTest.hinter_prompt (told ms g k))) _
              false (told ms g k) [] (Fulfilled (Some "related-clue"%string))
              (MultiAgentTest.once (told ms g k) _ (Some "related-clue"%string) [])
              eq_refl eq_refl (fun _ => eq_refl) eq_refl sched)
    as [(c & Hc & _) | [(e & tr & [=] & _) | (result & tr & sched' & [= <-] & Hst)]].
  - left. by exists c.
  - right. eexists _, sched'. rewrite Hst. reflexivity.
Qed.

Lemma hinter_in_turn ms g k t :
  exists j tr,
    schedule agents (Pull :: replicate j (Settle O) ++ [Pull; Join])
      (start agents O (told ms g k) t)
    = start agents 1%nat (told (ms ++ [hint]) g k) tr.
Proof.
  destruct (one_item_in_turn agents O (told ms g k) t
              (YValue (MultiAgentTest.hinter_prompt (told ms g k))) _
              false (told ms g k) (Fulfilled (Some "related-clue"%string))
              (MultiAgentTest.once (told ms g k) _ (Some "related-clue"%string) _)
              (told ms g k) eq_refl eq_refl eq_refl eq_refl) as [j Hj].
  exists j. eexists. rewrite Hj. reflexivity.
Qed.

(** What [post] of [GuesserNode] does with the guess of round [k]. *)
Lemma guesser_posts ms g k tr :
  let answer := if 2 <=? k then target else Some "wrong-guess"%string in
  let posted := after_all agents 1%nat (MultiAgentTest.guesser_prompt (told ms g k))
                  answer (told ms g k) tr in
  if bool_decide (answer = target)
  then exists t', posted = Returned (told (ms ++ [right_guess]) (Some true) (k + 1)) t'
  else if 3 <=? k + 1
       then exists t', posted = Returned (told (ms ++ [wrong]) g (k + 1)) t'
       else exists t', posted = start agents O (told (ms ++ [wrong]) g (k + 1)) t'.
Proof.
  intros answer posted. unfold posted, after_all, aggregate. simpl.
  fold answer. destruct (bool_decide (answer = target)) eqn:Hguess.
  - apply bool_decide_eq_true in Hguess. rewrite Hguess.
    eexists. unfold route. reflexivity.
  - assert (Hanswer : answer = Some "wrong-guess"%string).
    { unfold answer in *. destruct (2 <=? k); [|reflexivity].
      by apply bool_decide_eq_false in Hguess. }
    rewrite Hanswer. destruct (3 <=? k + 1).
    + eexists. reflexivity.
    + eexists. unfold route, getEdge, js_or. simpl. reflexivity.
Qed.

Lemma guesser_cycle ms g k t sched :
  (exists c, schedule agents sched (start agents 1%nat (told ms g k) t) = Running c) \/
  (exists tr sched',
      schedule agents sched (start agents 1%nat (told ms g k) t)
      = schedule agents sched'
          (after_all agents 1%nat (MultiAgentTest.guesser_prompt (told ms g k))
             (if 2 <=? k then target else Some "wrong-guess"%string)
             (told ms g k) tr)).
Proof.
  destruct (one_item_always agents 1%nat (told ms g k) t
              (YValue (MultiAgentTest.guesser_prompt (told ms g k))) _
              false (told ms g k) []
              (Fulfilled (if 2 <=? k then target else Some "wrong-guess"%string))
              (MultiAgentTest.once (told ms g k) _
                 (if 2 <=? k then target else Some "wrong-guess"%string) [])
              eq_refl eq_refl (fun _ => eq_refl) eq_refl sched)
    as [(c & Hc & _) | [(e & tr & [=] & _) | (result & tr & sched' & [= <-] & Hst)]].
  - left. by exists c.
  - right. by exists tr, sched'.
Qed.

Lemma guesser_in_turn ms g k t :
  exists j tr,
    schedule agents (Pull :: replicate j (Settle O) ++ [Pull; Join])
      (start agents 1%nat (told ms g k) t)
    = after_all agents 1%nat (MultiAgentTest.guesser_prompt (told ms g k))
        (if 2 <=? k then target else Some "wrong-guess"%string) (told ms g k) tr.
Proof.
  destruct (one_item_in_turn agents 1%nat (told ms g k) t
              (YValue (MultiAgentTest.guesser_prompt (told ms g k))) _
              false (told ms g k)
              (Fulfilled (if 2 <=? k then target else Some "wrong-guess"%string))
              (MultiAgentTest.once (told ms g k) _
                 (if 2 <=? k then target else Some "wrong-guess"%string) _)
              (told ms g k) eq_refl eq_refl eq_refl eq_refl) as [j Hj].
  exists j. eexists. exact Hj.
Qed.

(** The rounds that end with a wrong guess, from round [k] on. *)
Abbreviation wrong_rounds k :=
  (if bool_decide (target = Some "wrong-guess"%string) then O else Z.to_nat (2 - k)).
Abbreviation final ms k n :=
  (told (ms ++ concat (replicate n [hint; wrong]) ++ [hint; right_guess])
     (Some true) (k + Z.of_nat n + 1)).

Lemma last_round k :
  wrong_rounds k = O ->
  bool_decide ((if 2 <=? k then target else Some "wrong-guess"%string) = target) = true.
Proof.
  intros Hn. apply bool_decide_eq_true. case_bool_decide as Htarget.
  - rewrite Htarget. by destruct (2 <=? k).
  - destruct (Z.leb_spec 2 k); [reflexivity|lia].
Qed.

Lemma next_round k n :
  wrong_rounds k = S n ->
  bool_decide ((if 2 <=? k then target else Some "wrong-guess"%string) = target) = false
  /\ (3 <=? k + 1) = false /\ wrong_rounds (k + 1) = n.
Proof.
  intros Hn. case_bool_decide as Htarget; [discriminate|].
  destruct (Z.leb_spec 2 k); [lia|]. split; [|split].
  - apply bool_decide_eq_false. congruence.
  - apply Z.leb_gt. lia.
  - lia.
Qed.

Lemma final_next ms k n :
  final ((ms ++ [hint]) ++ [wrong]) (k + 1) n = final ms k (S n).
Proof.
  f_equal.
  - simpl. by rewrite <- !app_assoc.
  - lia.
Qed.

Lemma agents_always n : forall ms g k t sched,
  wrong_rounds k = n ->
  (exists c, schedule agents sched (start agents O (told ms g k) t) = Running c) \/
  (exists t', schedule agents sched (start agents O (told ms g k) t)
              = Returned (final ms k n) t').
Proof.
  induction n as [|n IH]; intros ms g k t sched Hn.
  - destruct (hinter_cycle ms g k t sched) as [Hrunning | (tr1 & sched1 & ->)];
      [by left|].
    destruct (guesser_cycle (ms ++ [hint]) g k tr1 sched1)
      as [Hrunning | (tr2 & sched2 & ->)]; [by left|].
    pose proof (guesser_posts (ms ++ [hint]) g k tr2) as Hpost. cbv zeta in Hpost.
    rewrite (last_round k Hn) in Hpost. destruct Hpost as [t' ->].
    right. exists t'. replace (k + Z.of_nat O + 1) with (k + 1) by lia.
    simpl. rewrite <- app_assoc. by destruct sched2.
  - destruct (next_round k n Hn) as (Hguess & Hmax & Hnext).
    destruct (hinter_cycle ms g k t sched) as [Hrunning | (tr1 & sched1 & ->)];
      [by left|].
    destruct (guesser_cycle (ms ++ [hint]) g k tr1 sched1)
      as [Hrunning | (tr2 & sched2 & ->)]; [by left|].
    pose proof (guesser_posts (ms ++ [hint]) g k tr2) as Hpost. cbv zeta in Hpost.
    rewrite Hguess, Hmax in Hpost. destruct Hpost as [t' ->].
    rewrite <- final_next. by apply IH.
Qed.

Lemma agents_in_turn n : forall ms g k t,
  wrong_rounds k = n ->
  exists sched t',
    schedule agents sched (start agents O (told ms g k) t) = Returned (final ms k n) t'.
Proof.
  induction n as [|n IH]; intros ms g k t Hn.
  - destruct (hinter_in_turn ms g k t) as (j1 & tr1 & H1).
    destruct (guesser_in_turn (ms ++ [hint]) g k tr1) as (j2 & tr2 & H2).
    pose proof (guesser_posts (ms ++ [hint]) g k tr2) as Hpost. cbv zeta in Hpost.
    rewrite (last_round k Hn) in Hpost. destruct Hpost as [t' Hpost].
    exists ((Pull :: replicate j1 (Settle O) ++ [Pull; Join])
            ++ (Pull :: replicate j2 (Settle O) ++ [Pull; Join])), t'.
    rewrite schedule_app, H1, H2, Hpost.
    replace (k + Z.of_nat O + 1) with (k + 1) by lia. simpl. by rewrite <- app_assoc.
  - destruct (next_round k n Hn) as (Hguess & Hmax & Hnext).
    destruct (hinter_in_turn ms g k t) as (j1 & tr1 & H1).
    destruct (guesser_in_turn (ms ++ [hint]) g k tr1) as (j2 & tr2 & H2).
    pose proof (guesser_posts (ms ++ [hint]) g k tr2) as Hpost. cbv zeta in Hpost.
    rewrite Hguess, Hmax in Hpost. destruct Hpost as [t' Hpost].
    destruct (IH ((ms ++ [hint]) ++ [wrong]) g (k + 1) t' Hnext) as (sched & t'' & H3).
    exists ((Pull :: replicate j1 (Settle O) ++ [Pull; Join])
            ++ (Pull :: replicate j2 (Settle O) ++ [Pull; Join]) ++ sched), t''.
    rewrite !schedule_app, H1, H2, Hpost, H3. by rewrite final_next.
Qed.


End MultiAgentRun.

